(** * libcsv: a shallow embedding of the query engine and ingestor

    The development follows [libcsv.go]: Go strings and byte slices are
    lists of bytes, [int64] values are integers with the wrap-around
    written out, the dedup map of [Filter] is a finite map keyed by the
    canonical string of a record, and a run-time panic is an outcome of
    its own, distinct from an error returned as a value. *)

From Stdlib Require Import ZArith List String Ascii Lia Bool.
From Stdlib Require Import DecimalString DecimalPos DecimalZ.
From stdpp Require Import base gmap strings list sorting.

Local Open Scope Z_scope.

(** ** Bytes and strings *)

(** A Go [string] or [[]byte]: a sequence of bytes. *)
Abbreviation gostring := (list ascii).

(** Literals are written as Rocq strings. *)
Definition b (s : string) : gostring := list_ascii_of_string s.

Definition code (c : ascii) : Z := Z.of_N (N_of_ascii c).

Definition chr (z : Z) : ascii := ascii_of_N (Z.to_N z).

(** The ASCII double quote. *)
Definition dquote : ascii := "034"%char.

Definition byte_eqb (x y : ascii) : bool := Ascii.eqb x y.

Fixpoint bytes_eqb (s t : gostring) : bool :=
  match s, t with
  | [], [] => true
  | x :: s', y :: t' => byte_eqb x y && bytes_eqb s' t'
  | _, _ => false
  end.

(** [strings.HasPrefix s p]. *)
Fixpoint hasPrefix (s p : gostring) : bool :=
  match p, s with
  | [], _ => true
  | y :: p', x :: s' => byte_eqb x y && hasPrefix s' p'
  | _ :: _, [] => false
  end.

(** [strings.IndexByte]; [-1] when the byte is absent. *)
Fixpoint indexByte (s : gostring) (c : ascii) : Z :=
  match s with
  | [] => -1
  | x :: s' =>
      if byte_eqb x c then 0
      else let i := indexByte s' c in if i <? 0 then -1 else i + 1
  end.

(** [strings.Count s (string c)] for a one-byte pattern. *)
Fixpoint countByte (s : gostring) (c : ascii) : Z :=
  match s with
  | [] => 0
  | x :: s' => (if byte_eqb x c then 1 else 0) + countByte s' c
  end.

(** [strings.Contains s sub]. *)
Fixpoint contains (s sub : gostring) : bool :=
  hasPrefix s sub ||
  match s with
  | [] => false
  | _ :: s' => contains s' sub
  end.

(** ** UTF-8, as [unicode/utf8] decodes it *)

Definition RuneError : Z := 65533.

Definition inRange (lo hi : Z) (c : ascii) : bool :=
  (lo <=? code c) && (code c <=? hi).

Definition cont (c : ascii) : Z := Z.land (code c) 63.

(** [utf8.DecodeRune]: the rune at the head of [s] and its width;
    an invalid or truncated encoding is [RuneError] of width 1. *)
Definition decodeRune (s : gostring) : Z * nat :=
  match s with
  | [] => (RuneError, 0%nat)
  | b0 :: rest =>
      if code b0 <? 128 then (code b0, 1%nat)
      else if inRange 194 223 b0 then
        match rest with
        | b1 :: _ =>
            if inRange 128 191 b1
            then (Z.lor (Z.shiftl (Z.land (code b0) 31) 6) (cont b1), 2%nat)
            else (RuneError, 1%nat)
        | _ => (RuneError, 1%nat)
        end
      else if inRange 224 239 b0 then
        match rest with
        | b1 :: b2 :: _ =>
            let lo := if code b0 =? 224 then 160 else 128 in
            let hi := if code b0 =? 237 then 159 else 191 in
            if inRange lo hi b1 && inRange 128 191 b2
            then (Z.lor (Z.shiftl (Z.land (code b0) 15) 12)
                    (Z.lor (Z.shiftl (cont b1) 6) (cont b2)), 3%nat)
            else (RuneError, 1%nat)
        | _ => (RuneError, 1%nat)
        end
      else if inRange 240 244 b0 then
        match rest with
        | b1 :: b2 :: b3 :: _ =>
            let lo := if code b0 =? 240 then 144 else 128 in
            let hi := if code b0 =? 244 then 143 else 191 in
            if inRange lo hi b1 && inRange 128 191 b2 && inRange 128 191 b3
            then (Z.lor (Z.shiftl (Z.land (code b0) 7) 18)
                    (Z.lor (Z.shiftl (cont b1) 12)
                       (Z.lor (Z.shiftl (cont b2) 6) (cont b3))), 4%nat)
            else (RuneError, 1%nat)
        | _ => (RuneError, 1%nat)
        end
      else (RuneError, 1%nat)
  end.

Definition lastn (k : nat) (s : gostring) : gostring :=
  drop (length s - k) s.

(** [utf8.DecodeLastRune]: the last [k] bytes form a rune exactly when
    they decode to a rune of width [k]; the backward scan of the library
    stops on the start byte of that encoding. *)
Definition decodeLastRune (s : gostring) : Z * nat :=
  match rev s with
  | [] => (RuneError, 0%nat)
  | l :: _ =>
      if code l <? 128 then (code l, 1%nat)
      else
        let try k :=
          if (k <=? length s)%nat
          then match decodeRune (lastn k s) with
               | (r, w) => if (w =? k)%nat then Some (r, k) else None
               end
          else None in
        match try 2%nat, try 3%nat, try 4%nat with
        | Some r, _, _ => r
        | None, Some r, _ => r
        | None, None, Some r => r
        | None, None, None => (RuneError, 1%nat)
        end
  end.

(** [unicode.IsSpace]. *)
Definition isSpaceRune (r : Z) : bool :=
  (9 <=? r) && (r <=? 13) || (r =? 32) || (r =? 133) || (r =? 160)
  || (r =? 5760) || (8192 <=? r) && (r <=? 8202)
  || (r =? 8232) || (r =? 8233) || (r =? 8239) || (r =? 8287) || (r =? 12288).

(** The class [\s] of Go regular expressions: [\t\n\f\r ] only. *)
Definition isReSpace (c : ascii) : bool :=
  let n := code c in
  (n =? 9) || (n =? 10) || (n =? 12) || (n =? 13) || (n =? 32).

Fixpoint trimLeftSpace_go (fuel : nat) (s : gostring) : gostring :=
  match fuel with
  | O => s
  | S fuel' =>
      match s with
      | [] => []
      | _ =>
          let '(r, w) := decodeRune s in
          if isSpaceRune r then trimLeftSpace_go fuel' (drop w s) else s
      end
  end.

Definition trimLeftSpace (s : gostring) : gostring :=
  trimLeftSpace_go (length s) s.

Fixpoint trimRightSpace_go (fuel : nat) (s : gostring) : gostring :=
  match fuel with
  | O => s
  | S fuel' =>
      match s with
      | [] => []
      | _ =>
          let '(r, w) := decodeLastRune s in
          if isSpaceRune r
          then trimRightSpace_go fuel' (take (length s - w) s)
          else s
      end
  end.

Definition trimRightSpace (s : gostring) : gostring :=
  trimRightSpace_go (length s) s.

(** [strings.TrimSpace] and [bytes.TrimSpace]. *)
Definition TrimSpace (s : gostring) : gostring :=
  trimRightSpace (trimLeftSpace s).

(** [whitespace.ReplaceAllString s " "] for [whitespace = \s+]: every
    maximal run of [\s] bytes becomes one space. *)
Fixpoint collapseSpace (s : gostring) : gostring :=
  match s with
  | [] => []
  | x :: s' =>
      if isReSpace x then
        match s' with
        | y :: _ => if isReSpace y then collapseSpace s' else " "%char :: collapseSpace s'
        | [] => [" "%char]
        end
      else x :: collapseSpace s'
  end.

(** [clean] of the source. *)
Definition clean (s : gostring) : gostring := collapseSpace (TrimSpace s).

(** [strings.ReplaceAll s old new]: non-overlapping occurrences of [old],
    scanned from the left.  With an empty [old] the library inserts [new]
    before every rune and at the end. *)
Fixpoint replaceAll_go (skip : nat) (s old new : gostring) : gostring :=
  match s with
  | [] => []
  | x :: s' =>
      match skip with
      | S k => replaceAll_go k s' old new
      | O =>
          if hasPrefix s old
          then new ++ replaceAll_go (length old - 1) s' old new
          else x :: replaceAll_go 0 s' old new
      end
  end.

Fixpoint insertRunes_go (skip : nat) (s new : gostring) : gostring :=
  match s with
  | [] => []
  | x :: s' =>
      match skip with
      | S k => x :: insertRunes_go k s' new
      | O => new ++ x :: insertRunes_go (snd (decodeRune s) - 1) s' new
      end
  end.

Definition ReplaceAll (s old new : gostring) : gostring :=
  match old with
  | [] => insertRunes_go 0 s new ++ new
  | _ => replaceAll_go 0 s old new
  end.

(** [strings.Split s sep] and [bytes.Split s sep] for a one-byte
    separator, which is what the source passes (";", "," and the
    default [OPT_SEPARATOR]); the result always has one piece more than
    there are separators. *)
Fixpoint Split (s : gostring) (sep : ascii) : list gostring :=
  match s with
  | [] => [[]]
  | x :: s' =>
      if byte_eqb x sep then [] :: Split s' sep
      else match Split s' sep with
           | h :: t => (x :: h) :: t
           | [] => [[x]]
           end
  end.

(** [strings.SplitN s " " 2]. *)
Definition SplitN2 (s : gostring) (sep : ascii) : list gostring :=
  let i := indexByte s sep in
  if i <? 0 then [s]
  else [take (Z.to_nat i) s; drop (Z.to_nat i + 1) s].

(** ** [strconv.ParseInt s 10 bitSize] *)

Definition isDigit (c : ascii) : bool := inRange 48 57 c.

Fixpoint parseDigits (acc : Z) (s : gostring) : option Z :=
  match s with
  | [] => Some acc
  | c :: s' =>
      if isDigit c then parseDigits (acc * 10 + (code c - 48)) s' else None
  end.

(** [None] stands for the library's error (syntax or range). *)
Definition ParseInt (s : gostring) (bitSize : Z) : option Z :=
  match s with
  | [] => None
  | c :: rest =>
      let '(neg, ds) :=
        if byte_eqb c "+" then (false, rest)
        else if byte_eqb c "-" then (true, rest)
        else (false, s) in
      match ds with
      | [] => None
      | _ =>
          match parseDigits 0 ds with
          | None => None
          | Some u =>
              let cutoff := 2 ^ (bitSize - 1) in
              if neg then (if u <=? cutoff then Some (- u) else None)
              else (if u <? cutoff then Some u else None)
          end
      end
  end.

(** ** 64-bit integers *)

Definition MinInt64 : Z := - 2 ^ 63.
Definition MaxInt64 : Z := 2 ^ 63 - 1.

(** Two's-complement wrap-around of [int64] arithmetic. *)
Definition wrap64 (z : Z) : Z := (z + 2 ^ 63) mod 2 ^ 64 - 2 ^ 63.

Definition add64 (x y : Z) : Z := wrap64 (x + y).
Definition sub64 (x y : Z) : Z := wrap64 (x - y).
Definition mul64 (x y : Z) : Z := wrap64 (x * y).
Definition neg64 (x : Z) : Z := wrap64 (- x).

Definition isInt64 (z : Z) : Prop := MinInt64 <= z <= MaxInt64.

(** ** Regular expressions

    The source's patterns use byte classes, sequencing, greedy
    repetition, capture groups and the anchors [^] and [$].  Go's
    [regexp] returns the match a backtracking search finds first
    (leftmost, then by greedy priority); [rmatch] is that search, in
    continuation-passing style. *)

Inductive re : Type :=
| Eps
| Chr (p : ascii -> bool)
| Seq (r1 r2 : re)
| Alt (r1 r2 : re)
| Star (r : re)
| Group (i : nat) (r : re)
| Bol
| Eol.

Definition caps : Type := list (nat * (nat * nat)).

Fixpoint rmatch (r : re) (pos : nat) (s : gostring) (cs : caps)
    (k : nat -> gostring -> caps -> option caps) {struct r} : option caps :=
  match r with
  | Eps => k pos s cs
  | Chr p =>
      match s with
      | x :: s' => if p x then k (S pos) s' cs else None
      | [] => None
      end
  | Seq r1 r2 =>
      rmatch r1 pos s cs (fun pos' s' cs' => rmatch r2 pos' s' cs' k)
  | Alt r1 r2 =>
      match rmatch r1 pos s cs k with
      | Some c => Some c
      | None => rmatch r2 pos s cs k
      end
  | Star r1 =>
      (fix star (fuel : nat) (pos : nat) (s : gostring) (cs : caps)
         : option caps :=
         match fuel with
         | O => k pos s cs
         | S fuel' =>
             match rmatch r1 pos s cs
                     (fun pos' s' cs' =>
                        if (pos <? pos')%nat then star fuel' pos' s' cs'
                        else None)
             with
             | Some c => Some c
             | None => k pos s cs
             end
         end) (S (length s)) pos s cs
  | Group i r1 =>
      rmatch r1 pos s cs
        (fun pos' s' cs' => k pos' s' ((i, (pos, pos')) :: cs'))
  | Bol => if (pos =? 0)%nat then k pos s cs else None
  | Eol => match s with [] => k pos s cs | _ :: _ => None end
  end.

(** The leftmost start position at which [r] matches. *)
Fixpoint search (r : re) (pos : nat) (s : gostring) : option caps :=
  match rmatch r pos s [] (fun _ _ cs => Some cs) with
  | Some cs => Some cs
  | None =>
      match s with
      | [] => None
      | _ :: s' => search r (S pos) s'
      end
  end.

Fixpoint capture (cs : caps) (i : nat) : option (nat * nat) :=
  match cs with
  | [] => None
  | (j, span) :: cs' => if (i =? j)%nat then Some span else capture cs' i
  end.

(** The text of group [i] of a match on [s]; a group that took no part
    in the match is empty. *)
Definition groupText (s : gostring) (cs : caps) (i : nat) : gostring :=
  match capture cs i with
  | Some (from, to) => take (to - from) (drop from s)
  | None => []
  end.

(** [re.FindSubmatch s] for a pattern with [n] groups: the texts of
    groups 1..n, or [None] when there is no match (the library's [nil]). *)
Definition FindSubmatch (r : re) (n : nat) (s : gostring)
  : option (list gostring) :=
  match search r 0 s with
  | Some cs => Some (map (fun i => groupText s cs (S i)) (seq 0 n))
  | None => None
  end.

Definition isWord (c : ascii) : bool :=
  inRange 48 57 c || inRange 65 90 c || inRange 97 122 c || (code c =? 95).

Definition anyOf (cls : string) (c : ascii) : bool :=
  existsb (byte_eqb c) (b cls).

Definition reS : re := Chr isReSpace.
Definition reD : re := Chr isDigit.
Definition reW : re := Chr isWord.
(** [.] matches any byte but a newline. *)
Definition reDot : re := Chr (fun c => negb (code c =? 10)).
Definition Plus (r : re) : re := Seq r (Star r).
Definition Opt (r : re) : re := Alt r Eps.
Fixpoint seqs (rs : list re) : re :=
  match rs with
  | [] => Eps
  | [r] => r
  | r :: rs' => Seq r (seqs rs')
  end.
Definition reD4 : re := seqs [reD; reD; reD; reD].
Definition reD2 : re := seqs [reD; reD].
Definition reD12 : re := Seq reD (Opt reD).
Definition reW3 : re := seqs [reW; reW; reW; Star reW].
Definition reLit (c : ascii) : re := Chr (byte_eqb c).

(** [\s*([xzabcds]\s*[=><])\s*(.+)\s*] *)
Definition _FORMULA_REGEX : re :=
  seqs [Star reS;
        Group 1 (seqs [Chr (anyOf "xzabcds"); Star reS; Chr (anyOf "=><")]);
        Star reS; Group 2 (Plus reDot); Star reS].

(** [^(\d{4})-(\d{2})-(\d{2})$] *)
Definition _DATE_REGEX_YYYY_MM_DD : re :=
  seqs [Bol; Group 1 reD4; reLit "-"; Group 2 reD2; reLit "-";
        Group 3 reD2; Eol].

(** [^(\d{1,2})[\/\.\-](\d{1,2})[\/\.\-](\d{4})$] *)
Definition _DATE_REGEX_DD_MM_YYYY : re :=
  seqs [Bol; Group 1 reD12; Chr (anyOf "/.-"); Group 2 reD12;
        Chr (anyOf "/.-"); Group 3 reD4; Eol].

(** [^(\w{3,})\s+(\d{4})$] *)
Definition _DATE_REGEX_MONTH_YYYY : re :=
  seqs [Bol; Group 1 reW3; Plus reS; Group 2 reD4; Eol].

(** [^(\d{1,2})\s+(\w{3,})\s+(\d{4})$] *)
Definition _DATE_REGEX_DD_MONTH_YYYY : re :=
  seqs [Bol; Group 1 reD12; Plus reS; Group 2 reW3; Plus reS;
        Group 3 reD4; Eol].

(** [^(\d{1,2})\s+(\w{3,})$] *)
Definition _DATE_REGEX_DD_MONTH : re :=
  seqs [Bol; Group 1 reD12; Plus reS; Group 2 reW3; Eol].

(** ** Outcomes: values, errors returned as values, panics *)

(** What [throw] wraps into its panic. *)
Inductive thrown : Type :=
| BadDate (cell : gostring)
| BadAmount (cell : gostring)
| DoesntAddUp (diff : Z).          (* "doesn't add up %v" *)

Inductive panic : Type :=
| IndexOutOfRange
| SliceBoundsOutOfRange
| Thrown (e : thrown) (row : list gostring).

(** The errors [Filter] returns, one constructor per [fmt.Errorf]. *)
Inductive error : Type :=
| ErrParenCount                       (* "number of opened paranthesis don't match with closed ones" *)
| ErrNoClosing (str : gostring)       (* "formula %v does't have a closing parenthesis" *)
| ErrNested (formula : gostring)      (* "unsupported nested paranthesis in %s" *)
| ErrExpectedOpening (str : gostring) (* "expected opening parenthesis after operator in %v" *)
| ErrUnexpectedOperation (operator : gostring) (* "unexpected operation between collections: %v" *)
| ErrIncorrectQuery (q : gostring)    (* "incorrect query %v" *)
| ErrMissingOperation (v : gostring)  (* "incorrect query, missing operation %v" *)
| ErrMissingFormula (v : gostring)    (* "incorrect query, missing formula %v" *)
| ErrUnsupportedOperator (op : ascii) (* "unsupported operator: %v" *)
| ErrHeader (h op : ascii)            (* "header a? %v", ..., "header z? %v" *)
| ErrUnsupportedHeader (h : ascii)    (* "unsupported header: %v" *)
| ErrNotADay (s : gostring)           (* "not a day %v: %v" *)
| ErrNotAMonth (s : gostring)         (* "not a month %v: %v" *)
| ErrNotAYear (s : gostring)          (* "not a year %v: %v" *)
| ErrNotAnAmount (s : gostring)       (* "not an amount %v: %v" *)
| ErrNotANumber (s : gostring).       (* "not a number %v: %v" *)

Inductive res (A : Type) : Type :=
| Ok (a : A)
| Err (e : error)
| Panic (p : panic).
Arguments Ok {A} a.
Arguments Err {A} e.
Arguments Panic {A} p.

Global Instance res_ret : MRet res := fun _ a => Ok a.
Global Instance res_bind : MBind res := fun _ _ f m =>
  match m with
  | Ok a => f a
  | Err e => Err e
  | Panic p => Panic p
  end.

(** [l[i]] with Go's bounds check. *)
Definition index {A} (l : list A) (i : Z) : res A :=
  if i <? 0 then Panic IndexOutOfRange
  else match l !! Z.to_nat i with
       | Some x => Ok x
       | None => Panic IndexOutOfRange
       end.

(** [s[lo:hi]] with Go's bounds check. *)
Definition slice (s : gostring) (lo hi : Z) : res gostring :=
  if (0 <=? lo) && (lo <=? hi) && (hi <=? Z.of_nat (length s))
  then Ok (take (Z.to_nat (hi - lo)) (drop (Z.to_nat lo) s))
  else Panic SliceBoundsOutOfRange.

(** ** Calendar: [time.Date(...).Unix()] at 00:00:00 UTC *)

Definition isLeap (y : Z) : bool :=
  (y mod 4 =? 0) && (negb (y mod 100 =? 0) || (y mod 400 =? 0)).

Definition daysBefore (m : Z) : Z :=
  nth (Z.to_nat (m - 1)) [0; 31; 59; 90; 120; 151; 181; 212; 243; 273; 304; 334] 0.

(** Days from 1970-01-01 to January 1st of year [y]. *)
Definition daysSinceEpoch (y : Z) : Z :=
  let y1 := y - 1 in 365 * y1 + y1 / 4 - y1 / 100 + y1 / 400 - 719162.

(** [time.Date(year, month, day, 0, 0, 0, 0, time.UTC).Unix()]: the
    month overflows into the year, the day is added unnormalised. *)
Definition unixDate (year month day : Z) : Z :=
  let m0 := month - 1 in
  let y := year + m0 / 12 in
  let m := m0 mod 12 + 1 in
  86400 * (daysSinceEpoch y + daysBefore m
           + (if isLeap y && (3 <=? m) then 1 else 0) + (day - 1)).

Definition daysIn (year month : Z) : Z :=
  if (month =? 2) && isLeap year then 29
  else nth (Z.to_nat (month - 1)) [31; 28; 31; 30; 31; 30; 31; 31; 30; 31; 30; 31] 0.

(** [time.Parse(OPT_DATE_LAYOUT, s)] for the default layout
    ["2006-01-02"], as Unix seconds; [None] is the library's error. *)
Definition parseDate (s : gostring) : option Z :=
  match s with
  | [y1; y2; y3; y4; d1; m1; m2; d2; a1; a2] =>
      if forallb isDigit [y1; y2; y3; y4; m1; m2; a1; a2]
         && byte_eqb d1 "-" && byte_eqb d2 "-"
      then
        match parseDigits 0 [y1; y2; y3; y4], parseDigits 0 [m1; m2],
              parseDigits 0 [a1; a2] with
        | Some y, Some m, Some d =>
            if (1 <=? m) && (m <=? 12) && (1 <=? d) && (d <=? daysIn y m)
            then Some (unixDate y m d) else None
        | _, _, _ => None
        end
      else None
  | _ => None
  end.

(** ** Records and collections *)

(** [Record] of the source.  [Date] is the instant as Unix seconds (the
    source reads it through [Unix], [Equal] and [After] only, and dates
    carry no fraction of a second); [Amount] is an [int64]. *)
Record Rec : Type := mkRec {
  Sender : gostring;
  Receiver : gostring;
  Label : gostring;
  Date : Z;
  Amount : Z
}.

Abbreviation Collection := (list Rec).

(** [%v] of an integer. *)
Definition fmtInt (z : Z) : gostring :=
  b (NilZero.string_of_int (Z.to_int z)).

(** [Record.String]: the canonical key
    [["%v","%v","%v",%v,%v]]. *)
Definition RecString (r : Rec) : gostring :=
  b "[" ++ [dquote] ++ Sender r ++ [dquote; ","%char; dquote] ++ Receiver r
    ++ [dquote; ","%char; dquote] ++ Label r ++ [dquote; ","%char]
    ++ fmtInt (Date r) ++ b "," ++ fmtInt (Amount r) ++ b "]".

(** ** Ingestion: [New], one CSV row at a time

    The CSV reader is outside the source; [New] is modelled on the rows
    it delivers. *)

Definition OPT_SEPARATOR : ascii := "+".

Definition mustParseDate (row : list gostring) (i : Z) : res Z :=
  cell ← index row i;
  match parseDate (clean cell) with
  | Some t => Ok t
  | None => Panic (Thrown (BadDate (clean cell)) row)
  end.

Definition mustParseAmount (row : list gostring) (i : Z) : res Z :=
  cell ← index row i;
  let str := ReplaceAll (clean cell) (b ".") [] in
  match ParseInt str 64 with
  | Some v => Ok v
  | None => Panic (Thrown (BadAmount str) row)
  end.

(** The body of the loop over the sub-items of a compound label. *)
Definition subRecord (row : list gostring) (k : Z) (each : gostring)
  : res Rec :=
  let pairs := SplitN2 (clean each) " " in
  a ← mustParseAmount pairs 0;
  let subtotal := mul64 a k in
  s ← index row 0;
  r ← index row 1;
  l ← index pairs 1;
  d ← mustParseDate row 3;
  Ok (mkRec (clean s) (clean r) (clean l) d subtotal).

Fixpoint subRecords (row : list gostring) (k : Z) (items : list gostring)
    (acc : Z) (out : Collection) : res (Z * Collection) :=
  match items with
  | [] => Ok (acc, out)
  | each :: rest =>
      r ← subRecord row k each;
      subRecords row k rest (add64 acc (Amount r)) (out ++ [r])
  end.

(** One iteration of the reading loop of [New]: the records appended
    for [row]. *)
Definition ingestRow (row : list gostring) : res Collection :=
  label ← index row 2;
  if contains label [OPT_SEPARATOR] then
    sum ← mustParseAmount row 4;
    let k := if sum <? 0 then -1 else 1 in
    '(acc, out) ← subRecords row k (Split label OPT_SEPARATOR) 0 [];
    let diff := sub64 sum acc in
    if negb (diff =? 0) then Panic (Thrown (DoesntAddUp diff) row)
    else Ok out
  else
    s ← index row 0;
    r ← index row 1;
    d ← mustParseDate row 3;
    a ← mustParseAmount row 4;
    Ok [mkRec (clean s) (clean r) (clean label) d a].

Fixpoint New_go (rows : list (list gostring)) (collection : Collection)
  : res Collection :=
  match rows with
  | [] => Ok collection
  | row :: rest =>
      rs ← ingestRow row;
      New_go rest (collection ++ rs)
  end.

Definition New (rows : list (list gostring)) : res Collection :=
  New_go rows [].

(** ** The expression compiler *)

Definition _UNION : ascii := "+".
Definition _DIFF : ascii := "-".
Definition _OP_SQ : ascii := "[".
Definition _OP_RD : ascii := "(".
Definition _CL_SQ : ascii := "]".
Definition _CL_RD : ascii := ")".

Record token : Type := mkToken {
  value : gostring;
  flags : Z;
  class : Z
}.

Definition IsFormula (t : token) : bool := class t =? 1.

Definition min (x y : Z) : Z := if x <? y then x else y.

(** The index of the first of two bytes, as both branches of [compile]
    compute it; [-1] when neither occurs. *)
Definition firstOf (str : gostring) (sq rd : ascii) : Z :=
  let isq := indexByte str sq in
  let ird := indexByte str rd in
  if (-1 <? isq) && (-1 <? ird) then min isq ird
  else if isq =? -1 then ird
  else isq.

Definition last_value (stack : list token) : gostring :=
  match last stack with
  | Some t => value t
  | None => []
  end.

(** [compile]: the recursion is on a strict suffix of [str]; [fuel]
    bounds its depth and [length str] is always enough (see
    [compile_unfold]).  The index [str[cl]] and the four slices
    [str[1:cl]], [str[cl+1:]], [str[:op]] and [str[op:]] carry Go's
    bounds checks. *)
Fixpoint compile_go (fuel : nat) (str : gostring) (stack : list token)
  : res (list token) :=
  match str with
  | [] => Ok stack
  | c :: _ =>
      match fuel with
      | O => Ok stack
      | S fuel' =>
          if (length stack =? 0)%nat
             && negb (countByte str _OP_RD + countByte str _OP_SQ
                      =? countByte str _CL_RD + countByte str _CL_SQ)
          then Err ErrParenCount
          else if byte_eqb c _OP_SQ || byte_eqb c _OP_RD then
            let cl := firstOf str _CL_SQ _CL_RD in
            if cl =? -1 then Err (ErrNoClosing str)
            else
              closing ← index str cl;
              let flags := Z.lor (if byte_eqb c _OP_SQ then 2 else 0)
                                 (if byte_eqb closing _CL_SQ then 1 else 0) in
              body ← slice str 1 cl;
              let ftoken := mkToken (clean body) flags 1 in
              rest ← slice str (cl + 1) (Z.of_nat (length str));
              if (0 <? length rest)%nat
              then compile_go fuel' rest (stack ++ [ftoken])
              else Ok (stack ++ [ftoken])
          else
            let op := firstOf str _OP_SQ _OP_RD in
            if op =? -1 then
              if (-2 <? indexByte str _CL_SQ + indexByte str _CL_RD)
                 && (0 <? length stack)%nat
              then Err (ErrNested (last_value stack))
              else Err (ErrExpectedOpening str)
            else
              before ← slice str 0 op;
              let operator := clean before in
              if negb (length operator =? 1)%nat
              then Err (ErrUnexpectedOperation operator)
              else
                let otoken := mkToken operator 0 0 in
                rest ← slice str op (Z.of_nat (length str));
                if (0 <? length rest)%nat
                then compile_go fuel' rest (stack ++ [otoken])
                else Ok (stack ++ [otoken])
      end
  end.

Definition compile (str : gostring) (stack : list token) : res (list token) :=
  compile_go (length str) str stack.

(** ** Locale *)

(** [Unicode] is a Go map, listed here in one order.  [Translate]
    below applies the pairs in that order at every call; the program
    ranges over the map anew at each call, in an order of its own,
    which [TranslateBy] and the functions from [doesItMatchAt] to
    [FilterAt] take call by call. *)
Record Locale : Type := mkLocale {
  Months : list gostring;
  Unicode : list (gostring * gostring)
}.

(** The locale before any [Setup]. *)
Definition defaultLocale : Locale := mkLocale [] [].

Fixpoint Month_go (months : list gostring) (i : Z) (monthName : gostring) : Z :=
  match months with
  | [] => -1
  | m :: rest => if hasPrefix m monthName then i else Month_go rest (i + 1) monthName
  end.

(** [Locale.Month]. *)
Definition Month (lc : Locale) (monthName : gostring) : Z :=
  Month_go (Months lc) 0 monthName.

(** [Locale.Translate], its range visiting the pairs in the order of
    the list. *)
Definition Translate (lc : Locale) (text : gostring) : gostring :=
  fold_left (fun text kv => ReplaceAll text (fst kv) (snd kv)) (Unicode lc) text.

(** ** Comparators *)

Definition HEADER_A_SENDER : ascii := "a".
Definition HEADER_B_RECEIVER : ascii := "b".
Definition HEADER_C_CATEGORY : ascii := "c".
Definition HEADER_D_DATE : ascii := "d".
Definition HEADER_S_SUM : ascii := "s".
Definition HEADER_X_ANYONE : ascii := "x".
Definition HEADER_0_BALANCE : ascii := "z".

Definition OPERATOR_EQUAL_MATCH : ascii := "=".
Definition OPERATOR_GREATER_THAN : ascii := ">".
Definition OPERATOR_LESS_THAN : ascii := "<".

Record scope : Type := mkScope {
  isLeftInclusive : bool;
  isRightInclusive : bool
}.

Record comparator : Type := mkComparator {
  header : ascii;
  operator : ascii;
  bytesValue : gostring;
  numberValue : Z;
  offsetValue : Z;
  intervalScope : scope
}.

Definition setNumber (c : comparator) (n : Z) : comparator :=
  mkComparator (header c) (operator c) (bytesValue c) n (offsetValue c)
    (intervalScope c).

Definition setOffset (c : comparator) (o : Z) : comparator :=
  mkComparator (header c) (operator c) (bytesValue c) (numberValue c) o
    (intervalScope c).

(** [nonAlphaNumeric.ReplaceAllString s " "] for [[^a-z0-9]]: the
    pattern consumes one rune, so a multi-byte rune (or an invalid byte)
    becomes one space. *)
Fixpoint replaceNonAlnum_go (skip : nat) (s : gostring) : gostring :=
  match s with
  | [] => []
  | x :: s' =>
      match skip with
      | S k => replaceNonAlnum_go k s'
      | O =>
          if inRange 97 122 x || inRange 48 57 x
          then x :: replaceNonAlnum_go 0 s'
          else " "%char :: replaceNonAlnum_go (snd (decodeRune s) - 1) s'
      end
  end.

Definition isASCII (s : gostring) : bool :=
  forallb (fun c => code c <? 128) s.

Definition lowerByte (c : ascii) : ascii :=
  if inRange 65 90 c then chr (code c + 32) else c.

(** ** The final sort

    [less] is the closure handed to [sort.SliceStable]: date descending,
    then amount ascending. *)
Definition less (x y : Rec) : bool :=
  if Date x =? Date y then Amount x <? Amount y else Date y <? Date x.

(** [sort.SliceStable] by its contract: the elements in [less] order,
    elements that [less] does not separate staying in their original
    order.  [insertStable x l] puts [x], which precedes all of [l] in the
    input, in front of the first element that is not strictly less. *)
Fixpoint insertStable (x : Rec) (l : list Rec) : list Rec :=
  match l with
  | [] => [x]
  | y :: l' => if less y x then y :: insertStable x l' else x :: y :: l'
  end.

Definition SliceStable (l : list Rec) : list Rec :=
  foldr insertStable [] l.

(** What [Filter] hands back: the pair [(results, err)], or a panic. *)
Inductive outcome : Type :=
| Returned (results : Collection) (err : option error)
| Panicked (p : panic).

(** [return nil, err] on an error of a callee; a panic unwinds. *)
Definition orFail {A} (r : res A) (k : A -> outcome) : outcome :=
  match r with
  | Ok a => k a
  | Err e => Returned [] (Some e)
  | Panic p => Panicked p
  end.

Definition scopeOf (t : token) : scope :=
  mkScope (negb (Z.land (flags t) 2 =? 0)) (negb (Z.land (flags t) 1 =? 0)).

Section Engine.

(** The locale installed by [Setup]. *)
Variable locale : Locale.

(** [time.Now().Year()] and [time.Now().Month()]. *)
Variable currentYear : Z.
Variable currentMonthIndex : Z.

(** [strings.Map(unicode.ToLower, s)]: the Unicode case tables, which
    [ToLower] consults for a string with a non-ASCII byte. *)
Variable unicodeToLower : gostring -> gostring.

(** The order in which [range _mem] visits the values of the dedup
    map in the difference branch at token index [i]. *)
Variable rangeMem : nat -> gmap gostring Rec -> list Rec.

(** [strings.ToLower] and [bytes.ToLower]. *)
Definition ToLower (s : gostring) : gostring :=
  if isASCII s then map lowerByte s else unicodeToLower s.

Definition doesItMatch (keyword value : gostring) : res bool :=
  let lastIndex := Z.of_nat (length keyword) - 1 in
  let asciiKeyword := Translate locale (ToLower keyword) in
  let asciiLookupValue := Translate locale (ToLower value) in
  first ← index asciiKeyword 0;
  quoted ← (if byte_eqb first dquote
            then (l ← index asciiKeyword lastIndex; Ok (byte_eqb l dquote))
            else Ok false);
  if quoted : bool then
    inner ← slice asciiKeyword 1 lastIndex;
    Ok (bytes_eqb asciiLookupValue inner)
  else if hasPrefix asciiLookupValue asciiKeyword then Ok true
  else
    let az09 := TrimSpace (replaceNonAlnum_go 0 asciiLookupValue) in
    Ok (hasPrefix az09 asciiKeyword).

Definition _TEXT_OR_SEP : ascii := ",".

Fixpoint anyMatch (alternatives : list gostring) (value : gostring)
  : res bool :=
  match alternatives with
  | [] => Ok false
  | v :: rest =>
      m ← doesItMatch v value;
      if m : bool then Ok true else anyMatch rest value
  end.

Definition isMatchingText (c : comparator) (value : gostring) : res bool :=
  anyMatch (Split (bytesValue c) _TEXT_OR_SEP) value.

Definition IsMatchingSender c (r : Rec) := isMatchingText c (Sender r).
Definition IsMatchingReceiver c (r : Rec) := isMatchingText c (Receiver r).
Definition IsMatchingLabel c (r : Rec) := isMatchingText c (Label r).

Definition IsMatchingSenderOrReceiver c (r : Rec) : res bool :=
  m ← isMatchingText c (Sender r);
  if m : bool then Ok true else isMatchingText c (Receiver r).

Definition IsMatchingDate (c : comparator) (r : Rec) : bool :=
  if 0 <? offsetValue c
  then (numberValue c <=? Date r)
       && (Date r <=? add64 (numberValue c) (offsetValue c))
  else Date r =? numberValue c.

Definition IsAfterDate (c : comparator) (r : Rec) : bool :=
  if isLeftInclusive (intervalScope c) then numberValue c <=? Date r
  else add64 (numberValue c) (offsetValue c) <? Date r.

Definition IsBeforeDate (c : comparator) (r : Rec) : bool :=
  if isRightInclusive (intervalScope c)
  then Date r <=? add64 (numberValue c) (offsetValue c)
  else Date r <? numberValue c.

(** The absolute amount as the source computes it: the negation of
    [MinInt64] wraps to [MinInt64]. *)
Definition absAmount (r : Rec) : Z :=
  if Amount r <? 0 then neg64 (Amount r) else Amount r.

Definition IsMatchingAmount (c : comparator) (r : Rec) : bool :=
  let amount := absAmount r in
  if 0 <? offsetValue c
  then (numberValue c <=? amount)
       && (amount <=? add64 (numberValue c) (offsetValue c))
  else amount =? numberValue c.

Definition IsGreaterThanAmount (c : comparator) (r : Rec) : bool :=
  let amount := absAmount r in
  if isLeftInclusive (intervalScope c) then numberValue c <=? amount
  else numberValue c <? amount.

Definition IsLessThanAmount (c : comparator) (r : Rec) : bool :=
  let amount := absAmount r in
  if isRightInclusive (intervalScope c) then amount <=? numberValue c
  else amount <? numberValue c.

Definition HasAscendingAmount (c : comparator) (r : Rec) : bool :=
  numberValue c <? Amount r.

Definition HasDescendingAmount (c : comparator) (r : Rec) : bool :=
  Amount r <? numberValue c.

Definition Compare (c : comparator) (r : Rec) : res bool :=
  let h := header c in
  let o := operator c in
  let bad := Err (ErrHeader h o) in
  if byte_eqb h HEADER_A_SENDER then
    if byte_eqb o OPERATOR_EQUAL_MATCH then IsMatchingSender c r else bad
  else if byte_eqb h HEADER_B_RECEIVER then
    if byte_eqb o OPERATOR_EQUAL_MATCH then IsMatchingReceiver c r else bad
  else if byte_eqb h HEADER_C_CATEGORY then
    if byte_eqb o OPERATOR_EQUAL_MATCH then IsMatchingLabel c r else bad
  else if byte_eqb h HEADER_D_DATE then
    if byte_eqb o OPERATOR_EQUAL_MATCH then Ok (IsMatchingDate c r)
    else if byte_eqb o OPERATOR_GREATER_THAN then Ok (IsAfterDate c r)
    else if byte_eqb o OPERATOR_LESS_THAN then Ok (IsBeforeDate c r)
    else bad
  else if byte_eqb h HEADER_S_SUM then
    if byte_eqb o OPERATOR_EQUAL_MATCH then Ok (IsMatchingAmount c r)
    else if byte_eqb o OPERATOR_GREATER_THAN then Ok (IsGreaterThanAmount c r)
    else if byte_eqb o OPERATOR_LESS_THAN then Ok (IsLessThanAmount c r)
    else bad
  else if byte_eqb h HEADER_X_ANYONE then
    if byte_eqb o OPERATOR_EQUAL_MATCH then IsMatchingSenderOrReceiver c r
    else bad
  else if byte_eqb h HEADER_0_BALANCE then
    if byte_eqb o OPERATOR_GREATER_THAN then Ok (HasAscendingAmount c r)
    else if byte_eqb o OPERATOR_LESS_THAN then Ok (HasDescendingAmount c r)
    else bad
  else Err (ErrUnsupportedHeader h).

(** *** The formula preparer *)

Definition _MIN_YEAR : Z := 1922.
Definition _DELIM : ascii := ";".

(** "If month is in the future, use last year". *)
Definition inferYear (month : Z) : Z :=
  if currentMonthIndex <? month then currentYear - 1 else currentYear.

(** A month-long range from the first day of the month:
    [firstDayOfMonth.Unix()], then
    [firstDayOfMonth.AddDate(0, 1, -1).Unix() - comp.numberValue]. *)
Definition monthRange (comp : comparator) (year month : Z) : comparator :=
  let first := unixDate year month 1 in
  setOffset (setNumber comp first)
    (sub64 (unixDate year (month + 1) 0) first).

(** [case HEADER_D_DATE]. *)
Definition coerceDate (comp : comparator) : res comparator :=
  let v := bytesValue comp in
  match FindSubmatch _DATE_REGEX_DD_MONTH 2 v with
  | Some [dayOfMonth; monthName] =>
      match ParseInt dayOfMonth 8 with
      | None => Err (ErrNotADay dayOfMonth)
      | Some day =>
          if (0 <? day) && (day <? 32) then
            let monthIndex := Month locale monthName + 1 in
            if 0 <? monthIndex
            then Ok (setNumber comp
                       (unixDate (inferYear monthIndex) monthIndex day))
            else Ok comp
          else Ok comp
      end
  | _ =>
  match FindSubmatch _DATE_REGEX_DD_MONTH_YYYY 3 v with
  | Some [dayOfMonth; monthName; fullYear] =>
      match ParseInt fullYear 16 with
      | None => Err (ErrNotAYear fullYear)
      | Some year =>
          match ParseInt dayOfMonth 8 with
          | None => Err (ErrNotAMonth dayOfMonth)
          | Some day =>
              if (0 <? day) && (day <? 32) then
                let monthIndex := Month locale monthName + 1 in
                if 0 <? monthIndex
                then Ok (setNumber comp (unixDate year monthIndex day))
                else Ok comp
              else Ok comp
          end
      end
  | _ =>
  match FindSubmatch _DATE_REGEX_MONTH_YYYY 2 v with
  | Some [monthName; fullYear] =>
      match ParseInt fullYear 16 with
      | None => Err (ErrNotAYear fullYear)
      | Some year =>
          let monthIndex := Month locale monthName + 1 in
          if 0 <? monthIndex then Ok (monthRange comp year monthIndex)
          else Ok comp
      end
  | _ =>
  match FindSubmatch _DATE_REGEX_DD_MM_YYYY 3 v with
  | Some [dayOfMonth; monthOfYear; fullYear] =>
      match ParseInt fullYear 16 with
      | None => Err (ErrNotAYear fullYear)
      | Some year =>
          match ParseInt monthOfYear 8 with
          | None => Err (ErrNotAMonth monthOfYear)
          | Some month =>
              match ParseInt dayOfMonth 8 with
              | None => Err (ErrNotADay dayOfMonth)
              | Some day =>
                  if (1 <=? day) && (day <=? 31)
                     && (1 <=? month) && (month <=? 12)
                  then Ok (setNumber comp (unixDate year month day))
                  else Ok comp
              end
          end
      end
  | _ =>
  match FindSubmatch _DATE_REGEX_YYYY_MM_DD 3 v with
  | Some [fullYear; monthOfYear; dayOfMonth] =>
      match ParseInt fullYear 16 with
      | None => Err (ErrNotAYear fullYear)
      | Some year =>
          match ParseInt monthOfYear 8 with
          | None => Err (ErrNotAMonth monthOfYear)
          | Some month =>
              match ParseInt dayOfMonth 8 with
              | None => Err (ErrNotADay dayOfMonth)
              | Some day =>
                  if (1 <=? day) && (day <=? 31)
                     && (1 <=? month) && (month <=? 12)
                  then Ok (setNumber comp (unixDate year month day))
                  else Ok comp
              end
          end
      end
  | _ =>
      let monthIndex := Month locale v in
      if -1 <? monthIndex then
        let month := monthIndex + 1 in
        Ok (monthRange comp (inferYear month) month)
      else if (length v =? 4)%nat then
        match ParseInt v 16 with
        | Some year =>
            if (_MIN_YEAR <? year) && (year <=? currentYear) then
              let first := unixDate year 1 1 in
              Ok (setOffset (setNumber comp first)
                    (sub64 (unixDate year 12 31) first))
            else Ok comp
        | None => Ok comp
        end
      else Ok comp
  end end end end end.

(** [case HEADER_S_SUM]; [value] is the lower-cased second group,
    before trimming. *)
Definition coerceSum (comp : comparator) (value : gostring)
  : res comparator :=
  let '(sumText, maxText) :=
    if contains (bytesValue comp) (b ",")
    then (ReplaceAll value (b ",") [], [])
    else (bytesValue comp ++ b "00", bytesValue comp ++ b "99") in
  match ParseInt sumText 64 with
  | None => Err (ErrNotAnAmount sumText)
  | Some sum =>
      match maxText with
      | [] => Ok (setNumber comp sum)
      | _ =>
          match ParseInt maxText 64 with
          | None => Err (ErrNotAnAmount maxText)
          | Some max => Ok (setNumber (setOffset comp (sub64 max sum)) sum)
          end
      end
  end.

(** [case HEADER_0_BALANCE]. *)
Definition coerceBalance (comp : comparator) : res comparator :=
  match ParseInt (bytesValue comp) 32 with
  | None => Err (ErrNotANumber (bytesValue comp))
  | Some val => Ok (setNumber comp val)
  end.

(** The comparator of a condition whose two groups are [field] and
    [lowered]: the body of [if len(tokens) == _FORMUAL_PARTS+1]. *)
Definition fillComparator (cs : scope) (tokens1 tokens2 : gostring)
  : res comparator :=
  let field := ReplaceAll tokens1 (b " ") [] in
  let value := ToLower tokens2 in
  h ← index field 0;
  o ← index field 1;
  let comp := mkComparator h o (TrimSpace value) 0 0 cs in
  if byte_eqb h HEADER_D_DATE then coerceDate comp
  else if byte_eqb h HEADER_S_SUM then coerceSum comp value
  else if byte_eqb h HEADER_0_BALANCE then coerceBalance comp
  else Ok comp.

(** One iteration of the loop of [prepare]; a condition the pattern
    does not match leaves the zero comparator. *)
Definition prepareCondition (cs : scope) (condition : gostring)
  : res comparator :=
  match FindSubmatch _FORMULA_REGEX 2 condition with
  | Some [tokens1; tokens2] => fillComparator cs tokens1 tokens2
  | _ => Ok (mkComparator zero zero [] 0 0 cs)
  end.

(** The loop of [prepare]; the first empty condition ends it. *)
Fixpoint prepare_go (cs : scope) (conditions : list gostring)
    (filters : list comparator) : res (list comparator) :=
  match conditions with
  | [] => Ok filters
  | condition :: rest =>
      if (length condition =? 0)%nat then Ok filters
      else
        comp ← prepareCondition cs condition;
        prepare_go cs rest (filters ++ [comp])
  end.

Definition prepare (cs : scope) (cleanQuery : gostring)
  : res (list comparator) :=
  prepare_go cs (Split (TrimSpace cleanQuery) _DELIM) [].

(** *** The evaluator *)

(** The loop of [query] over the records, for the first filter. *)
Fixpoint keep (f : comparator) (records : Collection) : res Collection :=
  match records with
  | [] => Ok []
  | record :: rest =>
      ok ← Compare f record;
      newRecords ← keep f rest;
      Ok (if ok : bool then record :: newRecords else newRecords)
  end.

Fixpoint query (records : Collection) (filters : list comparator)
  : res Collection :=
  match filters with
  | [] => Ok records
  | f :: rest =>
      match records with
      | [] => Ok records
      | _ :: _ => newRecords ← keep f records; query newRecords rest
      end
  end.

(** The dedup map and the result slice, updated together. *)
Definition staged : Type := gmap gostring Rec * Collection.

(** The loop after the first formula: every record is recorded and
    appended. *)
Definition stage (st : staged) (out : Collection) : staged :=
  fold_left (fun st r => (<[RecString r := r]> (fst st), snd st ++ [r]))
    out st.

(** The loop of the [_UNION] case. *)
Definition unite (st : staged) (out : Collection) : staged :=
  fold_left
    (fun st r2 =>
       match fst st !! RecString r2 with
       | Some _ => st
       | None => (<[RecString r2 := r2]> (fst st), snd st ++ [r2])
       end)
    out st.

(** The first loop of the [_DIFF] case. *)
Definition remove (mem : gmap gostring Rec) (out : Collection)
  : gmap gostring Rec :=
  fold_left (fun m r2 => delete (RecString r2) m) out mem.

(** The loop [for i := 1; i < len(stack); i += 2] over the tokens from
    index [i] on; [finish] is applied to the results once the tokens
    are consumed. *)
Fixpoint walk (finish : Collection -> Collection) (c : Collection)
    (i : nat) (rest : list token) (_mem : gmap gostring Rec)
    (results : Collection) : outcome :=
  match rest with
  | [] => Returned (finish results) None
  | op :: rest1 =>
      match rest1 with
      | [] => Panicked IndexOutOfRange
      | ls :: rest2 =>
          if IsFormula op
          then Returned results (Some (ErrMissingOperation (value op)))
          else if negb (IsFormula ls)
          then Returned results (Some (ErrMissingFormula (value op)))
          else
            orFail (prepare (scopeOf ls) (value ls)) (fun filters =>
            orFail (index (value op) 0) (fun o =>
              if byte_eqb o _UNION then
                orFail (query c filters) (fun out =>
                  let st := unite (_mem, results) out in
                  walk finish c (i + 2) rest2 (fst st) (snd st))
              else if byte_eqb o _DIFF then
                orFail (query results filters) (fun out =>
                  let m := remove _mem out in
                  walk finish c (i + 2) rest2 m (rangeMem i m))
              else Returned results (Some (ErrUnsupportedOperator o))))
      end
  end.

(** [Filter] from the compiled stack on. *)
Definition evaluate (finish : Collection -> Collection) (c : Collection)
    (q : gostring) (stack : list token) : outcome :=
  match stack with
  | [] => Returned c None
  | start :: rest =>
      if IsFormula start then
        orFail (prepare (scopeOf start) (value start)) (fun filters =>
        orFail (query c filters) (fun out =>
          let st := stage (∅, []) out in
          walk finish c 1 rest (fst st) (snd st)))
      else Returned [] (Some (ErrIncorrectQuery q))
  end.

Definition FilterWith (finish : Collection -> Collection) (c : Collection)
    (q : gostring) : outcome :=
  orFail (compile (clean q) []) (evaluate finish c q).

(** [Collection.Filter]. *)
Definition Filter (c : Collection) (q : gostring) : outcome :=
  FilterWith SliceStable c q.

(** [Filter] up to its last statement: the result slice as it is
    handed to [sort.SliceStable]. *)
Definition FilterUnsorted (c : Collection) (q : gostring) : outcome :=
  FilterWith (fun results => results) c q.

End Engine.

Global Arguments stage : simpl never.
Global Arguments unite : simpl never.
Global Arguments remove : simpl never.

(** ** The order of the locale's table, call by call

    [locale.Unicode] is a Go map, and every call of [Translate] ranges
    over it anew, in an order of its own.  The engine above applies the
    pairs at every call in the one order of the list [Unicode]: it is
    the program as it runs when every range visits the pairs in that
    order, and it is the program outright where the order makes no
    difference.  Below, the functions between [Filter] and [Translate]
    are written once more with the order of each call taken from
    [rangeUnicode], which is asked with the path of the call, innermost
    first: 0 for the keyword or 1 for the value, the alternative of the
    keyword, the field (0, or 1 for the receiver after the sender), the
    index of the record, the depth of the filter and the index of the
    formula on the stack. *)

(** [Locale.Translate] when its range visits the pairs in [order]. *)
Definition TranslateBy (order : list (gostring * gostring))
    (text : gostring) : gostring :=
  fold_left (fun text kv => ReplaceAll text (fst kv) (snd kv)) order text.

(** A table that translates every text the same in whatever order its
    pairs are visited. *)
Definition orderFree (table : list (gostring * gostring)) : Prop :=
  forall order, order ≡ₚ table ->
  forall text, TranslateBy order text = TranslateBy table text.

(** Every range over the table visits each of its pairs once. *)
Definition rangesTable (locale : Locale)
    (rangeUnicode : list nat -> list (gostring * gostring)) : Prop :=
  forall call, rangeUnicode call ≡ₚ Unicode locale.

Section PerCallEngine.

Variable locale : Locale.
Variable currentYear : Z.
Variable currentMonthIndex : Z.
Variable unicodeToLower : gostring -> gostring.
Variable rangeMem : nat -> gmap gostring Rec -> list Rec.

(** The order in which the call of [Translate] at the end of the given
    path visits the pairs of [locale.Unicode]. *)
Variable rangeUnicode : list nat -> list (gostring * gostring).

Definition doesItMatchAt (call : list nat) (keyword value : gostring)
  : res bool :=
  let lastIndex := Z.of_nat (length keyword) - 1 in
  let asciiKeyword :=
    TranslateBy (rangeUnicode (0%nat :: call))
      (ToLower unicodeToLower keyword) in
  let asciiLookupValue :=
    TranslateBy (rangeUnicode (1%nat :: call))
      (ToLower unicodeToLower value) in
  first ← index asciiKeyword 0;
  quoted ← (if byte_eqb first dquote
            then (l ← index asciiKeyword lastIndex; Ok (byte_eqb l dquote))
            else Ok false);
  if quoted : bool then
    inner ← slice asciiKeyword 1 lastIndex;
    Ok (bytes_eqb asciiLookupValue inner)
  else if hasPrefix asciiLookupValue asciiKeyword then Ok true
  else
    let az09 := TrimSpace (replaceNonAlnum_go 0 asciiLookupValue) in
    Ok (hasPrefix az09 asciiKeyword).

(** The loop of [isMatchingText] from the alternative of index [n]
    on. *)
Fixpoint anyMatchAt (call : list nat) (n : nat)
    (alternatives : list gostring) (value : gostring) : res bool :=
  match alternatives with
  | [] => Ok false
  | v :: rest =>
      m ← doesItMatchAt (n :: call) v value;
      if m : bool then Ok true else anyMatchAt call (S n) rest value
  end.

Definition isMatchingTextAt (call : list nat) (c : comparator)
    (value : gostring) : res bool :=
  anyMatchAt call 0 (Split (bytesValue c) _TEXT_OR_SEP) value.

Definition IsMatchingSenderAt call c (r : Rec) :=
  isMatchingTextAt (0%nat :: call) c (Sender r).
Definition IsMatchingReceiverAt call c (r : Rec) :=
  isMatchingTextAt (0%nat :: call) c (Receiver r).
Definition IsMatchingLabelAt call c (r : Rec) :=
  isMatchingTextAt (0%nat :: call) c (Label r).

Definition IsMatchingSenderOrReceiverAt call c (r : Rec) : res bool :=
  m ← isMatchingTextAt (0%nat :: call) c (Sender r);
  if m : bool then Ok true
  else isMatchingTextAt (1%nat :: call) c (Receiver r).

Definition CompareAt (call : list nat) (c : comparator) (r : Rec)
  : res bool :=
  let h := header c in
  let o := operator c in
  let bad := Err (ErrHeader h o) in
  if byte_eqb h HEADER_A_SENDER then
    if byte_eqb o OPERATOR_EQUAL_MATCH then IsMatchingSenderAt call c r
    else bad
  else if byte_eqb h HEADER_B_RECEIVER then
    if byte_eqb o OPERATOR_EQUAL_MATCH then IsMatchingReceiverAt call c r
    else bad
  else if byte_eqb h HEADER_C_CATEGORY then
    if byte_eqb o OPERATOR_EQUAL_MATCH then IsMatchingLabelAt call c r
    else bad
  else if byte_eqb h HEADER_D_DATE then
    if byte_eqb o OPERATOR_EQUAL_MATCH then Ok (IsMatchingDate c r)
    else if byte_eqb o OPERATOR_GREATER_THAN then Ok (IsAfterDate c r)
    else if byte_eqb o OPERATOR_LESS_THAN then Ok (IsBeforeDate c r)
    else bad
  else if byte_eqb h HEADER_S_SUM then
    if byte_eqb o OPERATOR_EQUAL_MATCH then Ok (IsMatchingAmount c r)
    else if byte_eqb o OPERATOR_GREATER_THAN then Ok (IsGreaterThanAmount c r)
    else if byte_eqb o OPERATOR_LESS_THAN then Ok (IsLessThanAmount c r)
    else bad
  else if byte_eqb h HEADER_X_ANYONE then
    if byte_eqb o OPERATOR_EQUAL_MATCH
    then IsMatchingSenderOrReceiverAt call c r
    else bad
  else if byte_eqb h HEADER_0_BALANCE then
    if byte_eqb o OPERATOR_GREATER_THAN then Ok (HasAscendingAmount c r)
    else if byte_eqb o OPERATOR_LESS_THAN then Ok (HasDescendingAmount c r)
    else bad
  else Err (ErrUnsupportedHeader h).

(** The loop of [query] over the records from the record of index [k]
    on. *)
Fixpoint keepAt (call : list nat) (k : nat) (f : comparator)
    (records : Collection) : res Collection :=
  match records with
  | [] => Ok []
  | record :: rest =>
      ok ← CompareAt (k :: call) f record;
      newRecords ← keepAt call (S k) f rest;
      Ok (if ok : bool then record :: newRecords else newRecords)
  end.

(** [query] at the depth [j] of its recursion on [filters[1:]]. *)
Fixpoint queryAt (call : list nat) (j : nat) (records : Collection)
    (filters : list comparator) : res Collection :=
  match filters with
  | [] => Ok records
  | f :: rest =>
      match records with
      | [] => Ok records
      | _ :: _ =>
          newRecords ← keepAt (j :: call) 0 f records;
          queryAt call (S j) newRecords rest
      end
  end.

(** The loop over the tokens; the formula after the operator of index
    [i] has index [i + 1]. *)
Fixpoint walkAt (finish : Collection -> Collection) (c : Collection)
    (i : nat) (rest : list token) (_mem : gmap gostring Rec)
    (results : Collection) : outcome :=
  match rest with
  | [] => Returned (finish results) None
  | op :: rest1 =>
      match rest1 with
      | [] => Panicked IndexOutOfRange
      | ls :: rest2 =>
          if IsFormula op
          then Returned results (Some (ErrMissingOperation (value op)))
          else if negb (IsFormula ls)
          then Returned results (Some (ErrMissingFormula (value op)))
          else
            orFail (prepare locale currentYear currentMonthIndex
                      unicodeToLower (scopeOf ls) (value ls))
              (fun filters =>
            orFail (index (value op) 0) (fun o =>
              if byte_eqb o _UNION then
                orFail (queryAt [(i + 1)%nat] 0 c filters) (fun out =>
                  let st := unite (_mem, results) out in
                  walkAt finish c (i + 2) rest2 (fst st) (snd st))
              else if byte_eqb o _DIFF then
                orFail (queryAt [(i + 1)%nat] 0 results filters) (fun out =>
                  let m := remove _mem out in
                  walkAt finish c (i + 2) rest2 m (rangeMem i m))
              else Returned results (Some (ErrUnsupportedOperator o))))
      end
  end.

Definition evaluateAt (finish : Collection -> Collection) (c : Collection)
    (q : gostring) (stack : list token) : outcome :=
  match stack with
  | [] => Returned c None
  | start :: rest =>
      if IsFormula start then
        orFail (prepare locale currentYear currentMonthIndex unicodeToLower
                  (scopeOf start) (value start))
          (fun filters =>
        orFail (queryAt [0%nat] 0 c filters) (fun out =>
          let st := stage (∅, []) out in
          walkAt finish c 1 rest (fst st) (snd st)))
      else Returned [] (Some (ErrIncorrectQuery q))
  end.

Definition FilterWithAt (finish : Collection -> Collection)
    (c : Collection) (q : gostring) : outcome :=
  orFail (compile (clean q) []) (evaluateAt finish c q).

(** [Collection.Filter], every call of [Translate] in an order of its
    own. *)
Definition FilterAt (c : Collection) (q : gostring) : outcome :=
  FilterWithAt SliceStable c q.

(** [Filter] up to its last statement. *)
Definition FilterUnsortedAt (c : Collection) (q : gostring) : outcome :=
  FilterWithAt (fun results => results) c q.

End PerCallEngine.

(** ** Result order *)

(** [ordered x y]: [x] may stand before [y] in a result: later date
    first, and on equal dates the smaller amount first. *)
Definition ordered (x y : Rec) : Prop :=
  Date y < Date x \/ (Date x = Date y /\ Amount x <= Amount y).

(** Records that the comparison does not tell apart. *)
Definition sameRank (d a : Z) (r : Rec) : Prop := Date r = d /\ Amount r = a.

Global Instance sameRank_dec d a r : Decision (sameRank d a r).
Proof. unfold sameRank. apply _. Defined.

(** Applying [finish] to a successful outcome. *)
Definition finished (finish : Collection -> Collection) (o : outcome)
  : outcome :=
  match o with
  | Returned pre None => Returned (finish pre) None
  | _ => o
  end.

(** ** Formula bodies *)

Definition isBracket (c : ascii) : bool :=
  byte_eqb c _OP_SQ || byte_eqb c _OP_RD || byte_eqb c _CL_SQ
  || byte_eqb c _CL_RD.

(** A text the compiler can take as the body of one formula: it holds
    no bracket of either style. *)
Definition noBrackets (s : gostring) : bool :=
  forallb (fun c => negb (isBracket c)) s.

(** The first record of every canonical key, in order. *)
Fixpoint dedupByKey (l : Collection) : Collection :=
  match l with
  | [] => []
  | r :: l' =>
      r :: filter (fun r' => RecString r' <> RecString r) (dedupByKey l')
  end.

(** The query [[F] + [F]] and the query [[F]]. *)
Definition unionTwice (F : gostring) : gostring :=
  b "[" ++ F ++ b "] + [" ++ F ++ b "]".

Definition single (F : gostring) : gostring := b "[" ++ F ++ b "]".

(** The tokens of a formula in square brackets and of the union. *)
Definition squareToken (body : gostring) : token :=
  mkToken (clean body) 3 1.

Definition plusToken : token := mkToken (b "+") 0 0.

(** A value the formula pattern captures as it stands: it is not
    empty, does not open with a [\s] byte and holds no newline. *)
Definition plainValue (v : gostring) : bool :=
  match v with
  | [] => false
  | x :: _ => negb (isReSpace x) && forallb (fun c => negb (code c =? 10)) v
  end.

(** ** The sub-items of a compound label *)

(** A sub-item, cleaned, holds an amount that parses to [fst al] and,
    after the first space, the label [snd al]. *)
Definition parsedItem (each : gostring) (al : Z * gostring) : Prop :=
  let pairs := SplitN2 (clean each) " " in
  mustParseAmount pairs 0 = Ok (fst al) /\ index pairs 1 = Ok (snd al).

(** The record of a sub-item: sender [s], receiver [r], date [d], the
    label of the sub-item and its amount times [k] in [int64]. *)
Definition subItemRecord (s r : gostring) (d k : Z) (al : Z * gostring)
  : Rec :=
  mkRec (clean s) (clean r) (clean (snd al)) d (mul64 (fst al) k).

(** ** Sums of amounts *)

(** The exact sum of a list of amounts. *)
Definition sumZ (l : list Z) : Z := fold_right Z.add 0 l.

(** The amounts a list of records carries. *)
Definition amounts (rs : Collection) : list Z := map Amount rs.

(** The range check [ParseInt] ends with. *)
Definition inBits (neg : bool) (bitSize u : Z) : option Z :=
  let cutoff := 2 ^ (bitSize - 1) in
  if neg then (if u <=? cutoff then Some (- u) else None)
  else (if u <? cutoff then Some u else None).

(** ** Signed amounts *)

(** The value of a condition opens with a minus sign. *)
Definition minusSigned (v : gostring) : bool :=
  match v with
  | c :: _ => byte_eqb c "-"
  | [] => false
  end.

(** ** Four-digit years

    The strings of four decimal digits, and what the preparer needs to
    know of one: none of the five date patterns matches it, trimming and
    lower-casing leave it alone, and it parses as a year from 0 to 9999. *)

Definition digits : list ascii := list_ascii_of_string "0123456789".

Definition allDigits4 : list gostring :=
  d1 ← digits; d2 ← digits; d3 ← digits; d4 ← digits; [[d1; d2; d3; d4]].

Definition isNone {A} (o : option A) : bool :=
  match o with None => true | Some _ => false end.

Definition bareYearOk (v : gostring) : bool :=
  isNone (FindSubmatch _DATE_REGEX_DD_MONTH 2 v)
  && isNone (FindSubmatch _DATE_REGEX_DD_MONTH_YYYY 3 v)
  && isNone (FindSubmatch _DATE_REGEX_MONTH_YYYY 2 v)
  && isNone (FindSubmatch _DATE_REGEX_DD_MM_YYYY 3 v)
  && isNone (FindSubmatch _DATE_REGEX_YYYY_MM_DD 3 v)
  && bytes_eqb (TrimSpace v) v
  && isASCII v
  && bytes_eqb (map lowerByte v) v
  && match ParseInt v 16 with
     | Some y => (0 <=? y) && (y <=? 9999)
     | None => false
     end.

(** ** Sample data

    Records and rows after the corpus of [libcsv_test.go], a locale as
    the tests install it, and one choice for each parameter of the
    engine. *)

Definition calendar : list gostring :=
  map b ["ianuarie"; "februarie"; "martie"; "aprilie"; "mai"; "iunie";
         "iulie"; "august"; "septembrie"; "octombrie"; "noiembrie";
         "decembrie"].

Definition testLocale : Locale := mkLocale calendar [(b "î", b "i")].

Definition rSucuri : Rec :=
  mkRec (b "Alexandru") (b "(magazin)") (b "Sucuri") (unixDate 2019 12 4) (-1500).

Definition rAlimente : Rec :=
  mkRec (b "Catrina") (b "(supermarket)") (b "Alimente") (unixDate 2019 12 6)
    (-5688).

(** The query whose formula is [a=] followed by one double quote, and
    a query for a quoted label with a two-byte letter. *)
Definition loneQuoteQuery : gostring := b "[a=" ++ [dquote] ++ b "]".

Definition quotedLabelQuery : gostring :=
  b "[c=" ++ [dquote] ++ b "împrumut" ++ [dquote] ++ b "]".

(** A record of half a unit. *)
Definition rCafea : Rec :=
  mkRec (b "Alexandru") (b "(cafenea)") (b "Cafea") (unixDate 2019 11 22) (-50).

(** Rows as the CSV reader delivers them. *)
Definition rowCasa : list gostring :=
  map b ["Alexandru"; "(magazin)"; "11.58 Casă și curățenie + 16.15 Alimente";
         "2019-12-05"; "-27.73"].

(** The records [rowCasa] expands to. *)
Definition casaRecords : Collection :=
  [mkRec (b "Alexandru") (b "(magazin)") (b "Casă și curățenie")
     (unixDate 2019 12 5) (-1158);
   mkRec (b "Alexandru") (b "(magazin)") (b "Alimente")
     (unixDate 2019 12 5) (-1615)].

(** A row whose three sub-amounts add up to 2^64. *)
Definition rowOverflow : list gostring :=
  map b ["a"; "b";
         "9223372036854775807 x + 9223372036854775807 y + 2 z";
         "2019-12-05"; "0"].

(** A row whose two sub-amounts add up to its total and whose fourth
    cell is no date. *)
Definition rowBadDate : list gostring :=
  map b ["a"; "b"; "1 x+2 y"; "2019-13-45"; "3"].

(** A record dated 1970-01-01 00:00:00 UTC. *)
Definition rEpoch : Rec :=
  mkRec (b "Ordonator") (b "Alexandru") (b "Transfer") 0 100000.

(** An iteration order for the dedup map. *)
Definition rangeValues (i : nat) (m : gmap gostring Rec) : list Rec :=
  map snd (map_to_list m).

(** A case table that changes nothing: right for text whose non-ASCII
    letters are already lower case. *)
Definition keepCase (s : gostring) : gostring := s.

(** ** Vocabulary of the further properties

    Predicates, shapes and sample queries the properties of the last
    part are stated with. *)

(** *** Rows *)

(** What [New] needs of a row to go on: five cells, a date in the
    fourth and an amount in the fifth. *)
Definition readable (row : list gostring) : Prop :=
  (5 <= length row)%nat
  /\ (exists d, mustParseDate row 3 = Ok d)
  /\ (exists a, mustParseAmount row 4 = Ok a).

(** The record was made from the row: sender and receiver are the first
    two cells cleaned, the date is the fourth cell parsed. *)
Definition madeFrom (row : list gostring) (r : Rec) : Prop :=
  (exists s, row !! 0%nat = Some s /\ Sender r = clean s)
  /\ (exists s, row !! 1%nat = Some s /\ Receiver r = clean s)
  /\ mustParseDate row 3 = Ok (Date r).

(** No double quote in the three text fields. *)
Definition quoteFree (r : Rec) : Prop :=
  (dquote ∉ Sender r) /\ (dquote ∉ Receiver r) /\ (dquote ∉ Label r).

(** *** Stacks and bracket counts *)

(** A formula token: class 1, with the two bracket flags. *)
Definition isFormulaToken (t : token) : bool :=
  (class t =? 1) && (0 <=? flags t) && (flags t <=? 3).

(** An operator token: class 0, no flags, one byte. *)
Definition isOperatorToken (t : token) : bool :=
  (class t =? 0) && (flags t =? 0) && (length (value t) =? 1)%nat.

(** Every token is a formula or an operator, and an operator is
    followed by a formula. *)
Fixpoint shaped (stack : list token) : bool :=
  match stack with
  | [] => true
  | t :: rest =>
      (isFormulaToken t
       || (isOperatorToken t
           && match rest with
              | f :: _ => isFormulaToken f
              | [] => false
              end))
      && shaped rest
  end.

(** The text opens a formula. *)
Definition opensFormula (str : gostring) : bool :=
  match str with
  | c :: _ => byte_eqb c _OP_SQ || byte_eqb c _OP_RD
  | [] => false
  end.

(** The two bracket counts [compile] compares. *)
Definition openCount (str : gostring) : Z :=
  countByte str _OP_RD + countByte str _OP_SQ.

Definition closeCount (str : gostring) : Z :=
  countByte str _CL_RD + countByte str _CL_SQ.

(** *** Matches and the outcomes of the preparer *)

(** [runs r pos s cs pos' s' cs']: from position [pos], with [s] left
    to read and the captures [cs], the pattern [r] can take a prefix of
    [s], arriving at position [pos'] with [s'] left and the captures
    [cs']. *)
Inductive runs : re -> nat -> gostring -> caps -> nat -> gostring -> caps
                 -> Prop :=
| runs_eps pos s cs : runs Eps pos s cs pos s cs
| runs_chr p x pos s cs :
    p x = true -> runs (Chr p) pos (x :: s) cs (S pos) s cs
| runs_seq r1 r2 pos s cs pos1 s1 cs1 pos2 s2 cs2 :
    runs r1 pos s cs pos1 s1 cs1 ->
    runs r2 pos1 s1 cs1 pos2 s2 cs2 ->
    runs (Seq r1 r2) pos s cs pos2 s2 cs2
| runs_alt_l r1 r2 pos s cs pos' s' cs' :
    runs r1 pos s cs pos' s' cs' -> runs (Alt r1 r2) pos s cs pos' s' cs'
| runs_alt_r r1 r2 pos s cs pos' s' cs' :
    runs r2 pos s cs pos' s' cs' -> runs (Alt r1 r2) pos s cs pos' s' cs'
| runs_star_nil r pos s cs : runs (Star r) pos s cs pos s cs
| runs_star_cons r pos s cs pos1 s1 cs1 pos2 s2 cs2 :
    runs r pos s cs pos1 s1 cs1 ->
    runs (Star r) pos1 s1 cs1 pos2 s2 cs2 ->
    runs (Star r) pos s cs pos2 s2 cs2
| runs_group i r pos s cs pos' s' cs' :
    runs r pos s cs pos' s' cs' ->
    runs (Group i r) pos s cs pos' s' ((i, (pos, pos')) :: cs')
| runs_bol s cs : runs Bol 0 s cs 0 s cs
| runs_eol pos cs : runs Eol pos [] cs pos [] cs.

(** The separators of a numeric date. *)
Definition isDateSep (c : ascii) : bool := anyOf "/.-" c.

(** The errors the preparer can return: an amount or a balance that
    does not parse. *)
Definition preparerError (e : error) : Prop :=
  (exists s, e = ErrNotAnAmount s) \/ (exists s, e = ErrNotANumber s).

(** The preparer returns or reports one of its two errors. *)
Definition prepared {A} (r : res A) : Prop :=
  (exists a, r = Ok a) \/ (exists e, r = Err e /\ preparerError e).

(** The fields a coercion leaves alone. *)
Definition sameCondition (c c' : comparator) : Prop :=
  header c' = header c /\ operator c' = operator c
  /\ bytesValue c' = bytesValue c /\ intervalScope c' = intervalScope c.

(** *** Verdicts *)

(** The comparison returns a verdict: neither an error nor a panic. *)
Definition decides (locale : Locale) (unicodeToLower : gostring -> gostring)
    (f : comparator) (r : Rec) : bool :=
  match Compare locale unicodeToLower f r with
  | Ok _ => true
  | _ => false
  end.

(** The comparison returns [true]. *)
Definition accepts (locale : Locale) (unicodeToLower : gostring -> gostring)
    (f : comparator) (r : Rec) : bool :=
  match Compare locale unicodeToLower f r with
  | Ok true => true
  | _ => false
  end.

(** The record passes every filter of the list. *)
Definition acceptsAll (locale : Locale) (unicodeToLower : gostring -> gostring)
    (fs : list comparator) (r : Rec) : bool :=
  forallb (fun f => accepts locale unicodeToLower f r) fs.

(** *** Queries of two formulas *)

(** A byte that can stand between two formulas as their operator:
    ASCII, neither white space nor a bracket. *)
Definition isOperatorByte (o : ascii) : bool :=
  (code o <? 128) && negb (isSpaceRune (code o)) && negb (isBracket o).

(** The query [[F] o [G]]. *)
Definition binary (F : gostring) (o : ascii) (G : gostring) : gostring :=
  b "[" ++ F ++ b "] " ++ [o] ++ b " [" ++ G ++ b "]".

(** The body of the token the compiler makes of [[F]]. *)
Definition bodyOf (F : gostring) : gostring := clean (collapseSpace F).

(** The token of an operator. *)
Definition opToken (o : ascii) : token := mkToken [o] 0 0.

(** The canonical key tells the records of [c] apart. *)
Definition keysApart (c : Collection) : Prop :=
  forall r1 r2, r1 ∈ c -> r2 ∈ c -> RecString r1 = RecString r2 -> r1 = r2.

(** [range _mem] visits the values of the map, whatever the order. *)
Definition visitsValues (rangeMem : nat -> gmap gostring Rec -> list Rec)
  : Prop :=
  forall i m r, r ∈ rangeMem i m <-> exists k, m !! k = Some r.

(** The dedup map after the staging loop over [out]. *)
Definition memOf (out : Collection) : gmap gostring Rec :=
  fold_left (fun m r => <[RecString r := r]> m) out ∅.

(** *** Verdicts of the date operators *)

(** Exactly one of three verdicts holds. *)
Definition exactlyOne (x y z : bool) : bool :=
  (x && negb y && negb z) || (negb x && y && negb z)
  || (negb x && negb y && z).

(** *** Visible bytes *)

(** An ASCII byte that is not white space. *)
Definition isVisible (c : ascii) : bool :=
  (code c <? 128) && negb (isSpaceRune (code c)).

(** *** Kinds of errors *)

(** The errors of a comparison: an operator the header does not
    support, or a header that is none of the seven. *)
Definition compareError (e : error) : Prop :=
  (exists h o, e = ErrHeader h o) \/ (exists h, e = ErrUnsupportedHeader h).

(** The errors of the walk over the stack, returned with the records
    gathered so far. *)
Definition walkError (e : error) : Prop :=
  (exists v, e = ErrMissingOperation v) \/ (exists v, e = ErrMissingFormula v)
  \/ (exists o, e = ErrUnsupportedOperator o).

(** *** Signs *)

(** None of the comparison signs, nor the delimiter. *)
Definition noSign (c : ascii) : bool := negb (anyOf "=><;" c).

(** *** Dates *)

(** No decimal digit. *)
Definition noDigit (v : gostring) : bool :=
  forallb (fun c => negb (isDigit c)) v.

(** The year a month without a year is read in: the current year, or
    the one before when the month is yet to come. *)
Definition yearOfMonth (currentYear currentMonthIndex month : Z) : Z :=
  if currentMonthIndex <? month then currentYear - 1 else currentYear.

(** The value of a date written as [YYYY-MM-DD]. *)
Definition isoDate (y1 y2 y3 y4 m1 m2 d1 d2 : ascii) : gostring :=
  [y1; y2; y3; y4; "-"%char; m1; m2; "-"%char; d1; d2].

(** The day and the month are within the ranges the preparer checks. *)
Definition dayAndMonth (day month : Z) : bool :=
  (1 <=? day) && (day <=? 31) && (1 <=? month) && (month <=? 12).

(** *** Tidy text *)

(** An ASCII white-space byte as [strings.TrimSpace] has it: a tab, a
    line feed, a vertical tab, a form feed, a carriage return or a
    space.  The class [\s] of the pattern of [clean], [isReSpace], is
    these bytes but the vertical tab. *)
Definition isAsciiSpace (c : ascii) : bool :=
  (code c <? 128) && isSpaceRune (code c).

(** Every byte of the class [\s] is a space that stands before a byte
    that is not of the class [\s]. *)
Fixpoint spaced (s : gostring) : bool :=
  match s with
  | [] => true
  | x :: s' =>
      (if isReSpace x
       then byte_eqb x " "
            && match s' with
               | y :: _ => negb (isReSpace y)
               | [] => false
               end
       else true)
      && spaced s'
  end.

(** The text does not open with an ASCII white-space byte. *)
Definition opensTidy (s : gostring) : bool :=
  match s with
  | x :: _ => negb (isAsciiSpace x)
  | [] => true
  end.

(** The text does not end with an ASCII white-space byte. *)
Definition endsTidy (s : gostring) : bool :=
  match last s with
  | Some y => negb (isAsciiSpace y)
  | None => true
  end.

(** *** Brackets *)

(** The opening and the closing bracket of an interval end that is
    inclusive (square) or exclusive (round). *)
Definition opener (inclusive : bool) : ascii :=
  if inclusive then _OP_SQ else _OP_RD.

Definition closer (inclusive : bool) : ascii :=
  if inclusive then _CL_SQ else _CL_RD.

(** The query of one formula [F] between brackets of either style. *)
Definition bracketed (l r : bool) (F : gostring) : gostring :=
  opener l :: F ++ [closer r].

(** The token of a formula between brackets of either style. *)
Definition formulaToken (l r : bool) (F : gostring) : token :=
  mkToken (bodyOf F) (Z.lor (if l then 2 else 0) (if r then 1 else 0)) 1.

(** ** More sample data *)

(** A row of two cells. *)
Definition rowShort : list gostring := map b ["Alexandru"; "(magazin)"].

(** The compound label of [rowCasa]. *)
Definition labelCasa : gostring :=
  b "11.58 Casă și curățenie + 16.15 Alimente".

(** The second record of [casaRecords]. *)
Definition rCasaAlimente : Rec :=
  mkRec (b "Alexandru") (b "(magazin)") (b "Alimente") (unixDate 2019 12 5)
    (-1615).

(** A collection of three records. *)
Definition threeRecords : Collection := [rSucuri; rAlimente; rCafea].

(** A comparator for the sender [alex]. *)
Definition senderAlex : comparator :=
  mkComparator "a" "=" (b "alex") 0 0 (mkScope true true).

(** A table whose two pairs undo each other, a locale with it and a
    record sent by [a]. *)
Definition swapTable : list (gostring * gostring) :=
  [(b "a", b "b"); (b "b", b "a")].

Definition swapLocale : Locale := mkLocale [] swapTable.

Definition rSentByA : Rec := mkRec (b "a") (b "x") (b "y") 0 1.

(** Orders of [swapTable], call by call: the order of the list, but
    for the values compared under the formula of index [i], which are
    translated in the reverse order. *)
Definition swapOrders (i : nat) (call : list nat)
  : list (gostring * gostring) :=
  match call with
  | [w; _; _; _; _; i'] =>
      if (w =? 1)%nat && (i' =? i)%nat then rev swapTable else swapTable
  | _ => swapTable
  end.

(** A quoted keyword. *)
Definition quotedSucuri : gostring := dquote :: b "sucuri" ++ [dquote].

(** * Properties *)

(** ** The stable sort *)

Lemma less_spec x y :
  less x y = true <->
  Date y < Date x \/ (Date x = Date y /\ Amount x < Amount y).
Proof.
  unfold less. destruct (Z.eqb_spec (Date x) (Date y)) as [e|n].
  - rewrite Z.ltb_lt. lia.
  - rewrite Z.ltb_lt. lia.
Qed.

Lemma not_less_ordered x y : less y x = false <-> ordered x y.
Proof.
  unfold ordered. rewrite <- not_true_iff_false, less_spec. lia.
Qed.

Lemma less_ordered x y : less x y = true -> ordered x y.
Proof. rewrite less_spec. unfold ordered. lia. Qed.

Lemma ordered_trans x y z : ordered x y -> ordered y z -> ordered x z.
Proof. unfold ordered. lia. Qed.

Lemma insertStable_perm x l : insertStable x l ≡ₚ x :: l.
Proof.
  induction l as [|y l IH]; simpl; [done|].
  destruct (less y x); [|done].
  rewrite IH. apply Permutation_swap.
Qed.

Lemma SliceStable_perm l : SliceStable l ≡ₚ l.
Proof.
  induction l as [|x l IH]; simpl; [done|].
  rewrite insertStable_perm. by rewrite IH.
Qed.

Lemma insertStable_sorted x l :
  StronglySorted ordered l -> StronglySorted ordered (insertStable x l).
Proof.
  induction l as [|y l IH]; simpl; intros Hs.
  - repeat constructor.
  - apply StronglySorted_inv in Hs as [Hl Hy].
    destruct (less y x) eqn:E.
    + constructor; [by apply IH|].
      rewrite insertStable_perm. constructor; [by apply less_ordered|done].
    + apply not_less_ordered in E.
      constructor; [by constructor|].
      constructor; [done|].
      eapply Forall_impl; [exact Hy|].
      intros z Hz. by eapply ordered_trans.
Qed.

Lemma SliceStable_sorted l : StronglySorted ordered (SliceStable l).
Proof.
  induction l as [|x l IH]; simpl; [constructor|by apply insertStable_sorted].
Qed.

Lemma insertStable_stable d a x l :
  filter (sameRank d a) (insertStable x l) = filter (sameRank d a) (x :: l).
Proof.
  induction l as [|y l IH]; simpl; [done|].
  destruct (less y x) eqn:E; [|done].
  apply less_spec in E.
  rewrite (filter_cons _ y), IH, !filter_cons.
  unfold sameRank.
  repeat case_decide; try done; lia.
Qed.

Lemma SliceStable_stable d a l :
  filter (sameRank d a) (SliceStable l) = filter (sameRank d a) l.
Proof.
  induction l as [|x l IH]; simpl; [done|].
  rewrite insertStable_stable, !filter_cons, IH. done.
Qed.

(** A sorted slice is left as it is. *)
Lemma SliceStable_id l : StronglySorted ordered l -> SliceStable l = l.
Proof.
  induction l as [|x l IH]; simpl; intros Hs; [done|].
  apply StronglySorted_inv in Hs as [Hl Hx].
  rewrite IH by done.
  destruct l as [|y l]; simpl; [done|].
  apply Forall_cons in Hx as [Hxy _].
  apply not_less_ordered in Hxy. by rewrite Hxy.
Qed.

(** ** The compiler only grows the stack *)

Lemma compile_go_grows fuel : forall str stack st,
  compile_go fuel str stack = Ok st ->
  (length stack <= length st)%nat /\
  (str <> [] -> fuel <> O -> (length stack < length st)%nat).
Proof.
  induction fuel as [|fuel IH]; intros str stack st H.
  - destruct str; simpl in H; inversion H; subst; split; [lia|done|lia|done].
  - destruct str as [|c str]; simpl in H.
    { inversion H; subst. split; [lia|done]. }
    assert (Hgoal : (length stack < length st)%nat); [|split; [lia|done]].
    destruct (_ && _) in H; [done|].
    destruct (byte_eqb c _OP_SQ || byte_eqb c _OP_RD).
    + destruct (firstOf _ _ _ =? -1); [done|].
      destruct (index _ _) as [closing| |]; simpl in H; [|done|done].
      destruct (slice _ 1 _) as [body| |]; simpl in H; [|done|done].
      destruct (slice _ _ _) as [rest| |]; simpl in H; [|done|done].
      destruct (0 <? length _)%nat.
      * apply IH in H as [H _]. rewrite length_app in H. simpl in H. lia.
      * inversion H; subst. rewrite length_app. simpl. lia.
    + destruct (firstOf _ _ _ =? -1).
      { destruct (_ && _) in H; done. }
      destruct (slice _ 0 _) as [before| |]; simpl in H; [|done|done].
      destruct (negb _); [done|].
      destruct (slice _ _ _) as [rest| |]; simpl in H; [|done|done].
      destruct (0 <? length _)%nat.
      * apply IH in H as [H _]. rewrite length_app in H. simpl in H. lia.
      * inversion H; subst. rewrite length_app. simpl. lia.
Qed.

Lemma compile_nonempty str st :
  str <> [] -> compile str [] = Ok st -> st <> [].
Proof.
  intros Hne H. unfold compile in H.
  apply compile_go_grows in H as [_ H].
  destruct st; [|done].
  destruct str; [done|]. simpl in H. specialize (H Hne). lia.
Qed.

(** ** Numerals and 64-bit arithmetic *)

Lemma byte_eqb_eq x y : byte_eqb x y = true <-> x = y.
Proof. apply Ascii.eqb_eq. Qed.

Lemma byte_eqb_neq x y : byte_eqb x y = false <-> x <> y.
Proof. apply Ascii.eqb_neq. Qed.

Lemma wrap64_small z : - 2 ^ 63 <= z < 2 ^ 63 -> wrap64 z = z.
Proof.
  intros Hz. unfold wrap64.
  rewrite Z.mod_small; lia.
Qed.

Lemma isDigit_range c : isDigit c = true -> 0 <= code c - 48 <= 9.
Proof.
  unfold isDigit, inRange. rewrite andb_true_iff, !Z.leb_le. lia.
Qed.

Lemma parseDigits_app s : forall acc t,
  parseDigits acc (s ++ t)
  = match parseDigits acc s with
    | Some a => parseDigits a t
    | None => None
    end.
Proof.
  induction s as [|c s IH]; intros acc t; simpl; [done|].
  destruct (isDigit c); [apply IH|done].
Qed.

Lemma parseDigits_nonneg s : forall acc u,
  0 <= acc -> parseDigits acc s = Some u -> 0 <= u.
Proof.
  induction s as [|c s IH]; intros acc u Hacc H; simpl in H.
  - inversion H; subst. done.
  - destruct (isDigit c) eqn:Hc; [|done].
    apply isDigit_range in Hc. eapply IH; [|exact H]. lia.
Qed.

Lemma parseDigits_00 acc : parseDigits acc (b "00") = Some (acc * 100).
Proof. simpl. f_equal. change (code "0") with 48. lia. Qed.

Lemma parseDigits_99 acc : parseDigits acc (b "99") = Some (acc * 100 + 99).
Proof. simpl. f_equal. change (code "9") with 57. lia. Qed.

(** Digits appended to a numeral extend its magnitude and keep its
    sign. *)
Lemma ParseInt_suffix v bits N t :
  ParseInt v bits = Some N ->
  ParseInt (v ++ t) bits
  = match parseDigits (Z.abs N) t with
    | Some u => inBits (minusSigned v) bits u
    | None => None
    end
  /\ (if minusSigned v then N <= 0 else 0 <= N).
Proof.
  destruct v as [|c rest]; [done|].
  unfold ParseInt. cbn [app minusSigned].
  destruct (byte_eqb c "+") eqn:Ep.
  { apply byte_eqb_eq in Ep. subst c. cbn [byte_eqb Ascii.eqb Bool.eqb].
    destruct rest as [|d rest]; [done|].
    cbn [app]. intros H.
    destruct (parseDigits 0 (d :: rest)) as [u|] eqn:Eu; [|done].
    pose proof (parseDigits_nonneg _ _ _ (Z.le_refl 0) Eu) as Hu.
    destruct (u <? 2 ^ (bits - 1)); [|done]. inversion H; subst N.
    change (d :: rest ++ t) with ((d :: rest) ++ t).
    rewrite parseDigits_app, Eu, Z.abs_eq by done. split; [|done].
    by destruct (parseDigits u t). }
  destruct (byte_eqb c "-") eqn:Em.
  { destruct rest as [|d rest]; [done|].
    cbn [app]. intros H.
    destruct (parseDigits 0 (d :: rest)) as [u|] eqn:Eu; [|done].
    pose proof (parseDigits_nonneg _ _ _ (Z.le_refl 0) Eu) as Hu.
    destruct (u <=? 2 ^ (bits - 1)); [|done]. inversion H; subst N.
    change (d :: rest ++ t) with ((d :: rest) ++ t).
    rewrite parseDigits_app, Eu, Z.abs_neq, Z.opp_involutive by lia.
    split; [|lia]. by destruct (parseDigits u t). }
  intros H.
  destruct (parseDigits 0 (c :: rest)) as [u|] eqn:Eu; [|done].
  pose proof (parseDigits_nonneg _ _ _ (Z.le_refl 0) Eu) as Hu.
  destruct (u <? 2 ^ (bits - 1)); [|done]. inversion H; subst N.
  change (c :: rest ++ t) with ((c :: rest) ++ t).
  rewrite parseDigits_app, Eu, Z.abs_eq by done. split; [|done].
  by destruct (parseDigits u t).
Qed.

(** ** Trimming runs to the end

    Every step of the two trimming loops removes at least one byte, so
    the fuel, the length of the text, is never used up: what is left
    has no white space at the trimmed end. *)

Lemma decodeRune_width s : s <> [] -> (1 <= snd (decodeRune s) <= 4)%nat.
Proof.
  destruct s as [|b0 rest]; [done|]. intros _. unfold decodeRune.
  repeat match goal with
         | |- context [if ?c then _ else _] => destruct c
         | |- context [match ?l with [] => _ | _ :: _ => _ end] => destruct l
         end; cbn [snd]; lia.
Qed.

Lemma decodeLastRune_width s :
  s <> [] -> (1 <= snd (decodeLastRune s) <= 4)%nat.
Proof.
  intros Hs. unfold decodeLastRune.
  destruct (rev s) as [|l r] eqn:E.
  { apply (f_equal (@rev ascii)) in E. rewrite rev_involutive in E. done. }
  destruct (code l <? 128); [cbn [snd]; lia|].
  repeat match goal with
         | |- context [if ?c then _ else _] => destruct c
         | |- context [let (_, _) := ?d in _] => destruct d
         end; cbn [snd]; lia.
Qed.

Lemma trimLeftSpace_go_done fuel : forall s,
  (length s <= fuel)%nat ->
  trimLeftSpace_go fuel s = []
  \/ isSpaceRune (fst (decodeRune (trimLeftSpace_go fuel s))) = false.
Proof.
  induction fuel as [|fuel IH]; intros s Hs.
  { destruct s; [by left|simpl in Hs; lia]. }
  destruct s as [|x s]; [by left|].
  cbn [trimLeftSpace_go].
  destruct (decodeRune (x :: s)) as [r w] eqn:E.
  destruct (isSpaceRune r) eqn:Er.
  - apply IH. pose proof (decodeRune_width (x :: s)) as Hw.
    rewrite E in Hw. cbn [snd] in Hw. rewrite length_drop.
    cbn [length] in *. specialize (Hw ltac:(done)). lia.
  - right. by rewrite E.
Qed.

Lemma trimRightSpace_go_done fuel : forall s,
  (length s <= fuel)%nat ->
  trimRightSpace_go fuel s = []
  \/ isSpaceRune (fst (decodeLastRune (trimRightSpace_go fuel s))) = false.
Proof.
  induction fuel as [|fuel IH]; intros s Hs.
  { destruct s; [by left|simpl in Hs; lia]. }
  destruct s as [|x s]; [by left|].
  cbn [trimRightSpace_go].
  destruct (decodeLastRune (x :: s)) as [r w] eqn:E.
  destruct (isSpaceRune r) eqn:Er.
  - apply IH. pose proof (decodeLastRune_width (x :: s)) as Hw.
    rewrite E in Hw. cbn [snd] in Hw. rewrite length_take.
    cbn [length] in *. specialize (Hw ltac:(done)). lia.
  - right. by rewrite E.
Qed.

(** [TrimSpace] leaves no white-space rune at the end it trimmed last,
    and trimming on the right drops bytes from the right only. *)
Lemma TrimSpace_right_done s :
  TrimSpace s = []
  \/ isSpaceRune (fst (decodeLastRune (TrimSpace s))) = false.
Proof. unfold TrimSpace, trimRightSpace. by apply trimRightSpace_go_done. Qed.

Lemma trimLeftSpace_done s :
  trimLeftSpace s = []
  \/ isSpaceRune (fst (decodeRune (trimLeftSpace s))) = false.
Proof. unfold trimLeftSpace. by apply trimLeftSpace_go_done. Qed.

(** ** Scanning for brackets *)

Lemma indexByte_bound s c : indexByte s c = -1 \/ 0 <= indexByte s c.
Proof.
  induction s as [|x s IH]; simpl; [lia|].
  destruct (byte_eqb x c); [lia|].
  destruct (Z.ltb_spec (indexByte s c) 0); lia.
Qed.

Lemma indexByte_absent s c :
  forallb (fun x => negb (byte_eqb x c)) s = true -> indexByte s c = -1.
Proof.
  induction s as [|x s IH]; simpl; [done|].
  rewrite andb_true_iff, negb_true_iff. intros [Hx Hs].
  rewrite Hx, (IH Hs). reflexivity.
Qed.

(** A prefix without the byte shifts the index. *)
Lemma indexByte_skip p s c :
  indexByte p c = -1 ->
  indexByte (p ++ s) c
  = if indexByte s c <? 0 then -1 else indexByte s c + Z.of_nat (length p).
Proof.
  induction p as [|x p IH]; simpl; intros Hp.
  - destruct (indexByte_bound s c) as [->|H]; [reflexivity|].
    destruct (Z.ltb_spec (indexByte s c) 0); lia.
  - destruct (byte_eqb x c); [done|].
    destruct (Z.ltb_spec (indexByte p c) 0) as [Hlt|Hge]; [|lia].
    destruct (indexByte_bound p c) as [Hp'|Hp']; [|lia].
    rewrite (IH Hp').
    destruct (indexByte_bound s c) as [Hs|Hs].
    + rewrite Hs. reflexivity.
    + destruct (Z.ltb_spec (indexByte s c) 0); [lia|].
      destruct (Z.ltb_spec (indexByte s c + Z.of_nat (length p)) 0); lia.
Qed.

Lemma indexByte_here p s c :
  indexByte p c = -1 -> indexByte (p ++ c :: s) c = Z.of_nat (length p).
Proof.
  intros Hp. rewrite (indexByte_skip p (c :: s) c Hp). simpl.
  unfold byte_eqb. rewrite Ascii.eqb_refl. simpl. lia.
Qed.

Lemma countByte_app s t c : countByte (s ++ t) c = countByte s c + countByte t c.
Proof. induction s as [|x s IH]; simpl; [done|]. rewrite IH. lia. Qed.

Lemma noBrackets_absent s c :
  noBrackets s = true -> isBracket c = true ->
  forallb (fun x => negb (byte_eqb x c)) s = true.
Proof.
  intros Hs Hc. unfold noBrackets in Hs.
  rewrite forallb_forall in *. intros x Hx. specialize (Hs x Hx).
  rewrite negb_true_iff in *.
  destruct (byte_eqb x c) eqn:E; [|done].
  apply byte_eqb_eq in E. subst x. congruence.
Qed.

Lemma noBrackets_index s c :
  noBrackets s = true -> isBracket c = true -> indexByte s c = -1.
Proof. intros Hs Hc. by apply indexByte_absent, noBrackets_absent. Qed.

Lemma noBrackets_count s c :
  noBrackets s = true -> isBracket c = true -> countByte s c = 0.
Proof.
  intros Hs Hc. pose proof (noBrackets_absent s c Hs Hc) as H.
  induction s as [|x s IH]; simpl in *; [done|].
  rewrite andb_true_iff, negb_true_iff in H. destruct H as [Hx Hrest].
  rewrite Hx, IH; [done| |done].
  unfold noBrackets in Hs. simpl in Hs. rewrite andb_true_iff in Hs. tauto.
Qed.

(** ** Cleaning a bracketed text *)

Lemma collapseSpace_cons x s :
  collapseSpace (x :: s)
  = if isReSpace x then
      match s with
      | y :: _ =>
          if isReSpace y then collapseSpace s else " "%char :: collapseSpace s
      | [] => [" "%char]
      end
    else x :: collapseSpace s.
Proof. reflexivity. Qed.

Lemma collapseSpace_app s c t :
  isReSpace c = false ->
  collapseSpace (s ++ c :: t) = collapseSpace s ++ c :: collapseSpace t.
Proof.
  intros Hc. induction s as [|x s IH].
  - rewrite app_nil_l, collapseSpace_cons, Hc. reflexivity.
  - change ((x :: s) ++ c :: t) with (x :: (s ++ c :: t)).
    rewrite (collapseSpace_cons x (s ++ c :: t)), (collapseSpace_cons x s), IH.
    destruct (isReSpace x); [|reflexivity].
    destruct s as [|y s].
    + rewrite app_nil_l, Hc. reflexivity.
    + change ((y :: s) ++ c :: t) with (y :: (s ++ c :: t)).
      cbv beta iota. destruct (isReSpace y); reflexivity.
Qed.

Lemma noBrackets_collapse s :
  noBrackets s = true -> noBrackets (collapseSpace s) = true.
Proof.
  unfold noBrackets. induction s as [|x s IH]; [done|].
  cbn [forallb]. rewrite andb_true_iff. intros [Hx Hs].
  rewrite collapseSpace_cons. destruct (isReSpace x).
  - destruct s as [|y s]; [reflexivity|].
    destruct (isReSpace y); [by apply IH|].
    cbn [forallb]. rewrite (IH Hs). reflexivity.
  - cbn [forallb]. by rewrite Hx, (IH Hs).
Qed.

(** A text in square brackets has nothing to trim. *)
Lemma TrimSpace_square s :
  TrimSpace ("["%char :: s ++ ["]"%char]) = "["%char :: s ++ ["]"%char].
Proof.
  unfold TrimSpace.
  assert (Hl : trimLeftSpace ("["%char :: s ++ ["]"%char])
               = "["%char :: s ++ ["]"%char]) by reflexivity.
  rewrite Hl. unfold trimRightSpace.
  change ("["%char :: s ++ ["]"%char]) with (("["%char :: s) ++ ["]"%char]).
  generalize ("["%char :: s). intros p.
  rewrite length_app. simpl length. rewrite Nat.add_1_r.
  cbn [trimRightSpace_go].
  assert (Hd : decodeLastRune (p ++ ["]"%char]) = (code "]", 1%nat)).
  { unfold decodeLastRune. rewrite rev_app_distr. reflexivity. }
  rewrite Hd. destruct (p ++ ["]"%char]) eqn:E; [by destruct p|].
  reflexivity.
Qed.

Lemma clean_single F :
  clean (single F) = "["%char :: collapseSpace F ++ ["]"%char].
Proof.
  unfold clean, single. change (b "[" ++ F ++ b "]") with ("["%char :: F ++ ["]"%char]).
  rewrite TrimSpace_square.
  rewrite collapseSpace_cons. change (isReSpace "[") with false. cbv iota.
  rewrite collapseSpace_app by reflexivity. reflexivity.
Qed.

Lemma clean_unionTwice F :
  clean (unionTwice F)
  = "["%char :: collapseSpace F ++ "]"%char
      :: b " + [" ++ collapseSpace F ++ ["]"%char].
Proof.
  unfold clean, unionTwice.
  change (b "[" ++ F ++ b "] + [" ++ F ++ b "]")
    with ("["%char :: F ++ b "] + [" ++ F ++ ["]"%char]).
  rewrite (app_assoc F), (app_assoc (F ++ _)), TrimSpace_square.
  rewrite <- !app_assoc.
  rewrite collapseSpace_cons. change (isReSpace "[") with false. cbv iota.
  change (b "] + [" ++ F ++ ["]"%char])
    with ("]"%char :: b " + [" ++ F ++ ["]"%char]).
  rewrite collapseSpace_app by reflexivity. do 2 f_equal.
  change (b " + [" ++ F ++ ["]"%char])
    with (" "%char :: "+"%char :: " "%char :: "["%char :: F ++ ["]"%char]).
  rewrite !collapseSpace_cons.
  change (isReSpace " ") with true. change (isReSpace "+") with false.
  change (isReSpace "[") with false. cbv iota.
  rewrite collapseSpace_app by reflexivity. reflexivity.
Qed.

(** ** One step of the compiler *)

Lemma indexByte_cons_pos c s x :
  byte_eqb c x = false ->
  indexByte (c :: s) x = -1 \/ 1 <= indexByte (c :: s) x.
Proof.
  intros Hc. cbn [indexByte]. rewrite Hc.
  destruct (indexByte_bound s x) as [->|H]; [left; reflexivity|].
  destruct (Z.ltb_spec (indexByte s x) 0); lia.
Qed.

(** After a byte that opens no formula the next opener is at least one
    byte away: the operator branch recurses on a strict suffix. *)
Lemma firstOf_pos c s sq rd :
  byte_eqb c sq = false -> byte_eqb c rd = false ->
  firstOf (c :: s) sq rd = -1 \/ 1 <= firstOf (c :: s) sq rd.
Proof.
  intros Hsq Hrd. unfold firstOf, min.
  destruct (indexByte_cons_pos c s sq Hsq) as [Ha|Ha];
    destruct (indexByte_cons_pos c s rd Hrd) as [Hb|Hb].
  - rewrite Ha, Hb. left. reflexivity.
  - rewrite Ha. change (-1 <? -1) with false. cbn [andb].
    change (-1 =? -1) with true. cbv iota. by right.
  - rewrite Hb. change (-1 <? -1) with false. rewrite andb_false_r.
    destruct (Z.eqb_spec (indexByte (c :: s) sq) (-1)); [lia|by right].
  - destruct (Z.ltb_spec (-1) (indexByte (c :: s) sq)); [|lia].
    destruct (Z.ltb_spec (-1) (indexByte (c :: s) rd)); [|lia].
    cbn [andb].
    destruct (Z.ltb_spec (indexByte (c :: s) sq) (indexByte (c :: s) rd));
      by right.
Qed.

(** *** Indices stay within the text *)

(** [s[lo:]] and [s[:hi]] within bounds. *)
Lemma slice_from s lo :
  0 <= lo <= Z.of_nat (length s) ->
  slice s lo (Z.of_nat (length s)) = Ok (drop (Z.to_nat lo) s).
Proof.
  intros H. unfold slice.
  replace ((0 <=? lo) && (lo <=? Z.of_nat (length s))
           && (Z.of_nat (length s) <=? Z.of_nat (length s))) with true
    by (symmetry; rewrite !andb_true_iff, !Z.leb_le; lia).
  f_equal. apply take_ge. rewrite length_drop. lia.
Qed.

Lemma slice_to s hi :
  0 <= hi <= Z.of_nat (length s) ->
  slice s 0 hi = Ok (take (Z.to_nat hi) s).
Proof.
  intros H. unfold slice.
  replace ((0 <=? 0) && (0 <=? hi) && (hi <=? Z.of_nat (length s))) with true
    by (symmetry; rewrite !andb_true_iff, !Z.leb_le; lia).
  by rewrite Z.sub_0_r.
Qed.

Lemma indexByte_lt s c : indexByte s c < Z.of_nat (length s) \/ s = [].
Proof.
  induction s as [|x s IH]; [by right|]. left. cbn [indexByte length].
  destruct (byte_eqb x c); [lia|].
  destruct (Z.ltb_spec (indexByte s c) 0); [lia|].
  destruct IH as [IH| ->]; [lia|]. cbn in *. lia.
Qed.

Lemma indexByte_lookup s c :
  0 <= indexByte s c -> s !! Z.to_nat (indexByte s c) = Some c.
Proof.
  induction s as [|x s IH]; cbn [indexByte]; [lia|].
  destruct (byte_eqb x c) eqn:E.
  - apply byte_eqb_eq in E. by subst.
  - destruct (Z.ltb_spec (indexByte s c) 0); [lia|]. intros _.
    replace (Z.to_nat (indexByte s c + 1)) with (S (Z.to_nat (indexByte s c)))
      by lia.
    cbn. apply IH. lia.
Qed.

Lemma firstOf_cases str sq rd :
  firstOf str sq rd = indexByte str sq \/ firstOf str sq rd = indexByte str rd.
Proof.
  unfold firstOf, min.
  destruct (_ && _).
  - destruct (_ <? _); auto.
  - destruct (_ =? _); auto.
Qed.

Lemma firstOf_absent str sq rd :
  firstOf str sq rd = -1 \/ 0 <= firstOf str sq rd.
Proof.
  destruct (firstOf_cases str sq rd) as [-> | ->]; apply indexByte_bound.
Qed.

Lemma firstOf_lt str sq rd :
  str <> [] -> firstOf str sq rd < Z.of_nat (length str).
Proof.
  intros Hne.
  destruct (firstOf_cases str sq rd) as [-> | ->];
    (destruct (indexByte_lt str sq); destruct (indexByte_lt str rd); done).
Qed.

Lemma firstOf_lookup str sq rd :
  0 <= firstOf str sq rd ->
  str !! Z.to_nat (firstOf str sq rd) = Some sq
  \/ str !! Z.to_nat (firstOf str sq rd) = Some rd.
Proof.
  destruct (firstOf_cases str sq rd) as [-> | ->]; intros H;
    [left|right]; by apply indexByte_lookup.
Qed.

(** One step of the compiler.  The closing bracket is found after
    the opening one and the next opening bracket within the text, so
    that the slices [str[cl+1:]], [str[:op]] and [str[op:]] are within
    bounds and are the suffix and the prefix below. *)
Lemma compile_go_S fuel c str stack :
  compile_go (S fuel) (c :: str) stack
  = let str := c :: str in
    if (length stack =? 0)%nat
       && negb (countByte str _OP_RD + countByte str _OP_SQ
                =? countByte str _CL_RD + countByte str _CL_SQ)
    then Err ErrParenCount
    else if byte_eqb c _OP_SQ || byte_eqb c _OP_RD then
      let cl := firstOf str _CL_SQ _CL_RD in
      if cl =? -1 then Err (ErrNoClosing str)
      else
        closing ← index str cl;
        let flags := Z.lor (if byte_eqb c _OP_SQ then 2 else 0)
                           (if byte_eqb closing _CL_SQ then 1 else 0) in
        body ← slice str 1 cl;
        let ftoken := mkToken (clean body) flags 1 in
        let rest := drop (Z.to_nat (cl + 1)) str in
        if (0 <? length rest)%nat
        then compile_go fuel rest (stack ++ [ftoken])
        else Ok (stack ++ [ftoken])
    else
      let op := firstOf str _OP_SQ _OP_RD in
      if op =? -1 then
        if (-2 <? indexByte str _CL_SQ + indexByte str _CL_RD)
           && (0 <? length stack)%nat
        then Err (ErrNested (last_value stack))
        else Err (ErrExpectedOpening str)
      else
        let operator := clean (take (Z.to_nat op) str) in
        if negb (length operator =? 1)%nat
        then Err (ErrUnexpectedOperation operator)
        else
          let otoken := mkToken operator 0 0 in
          let rest := drop (Z.to_nat op) str in
          if (0 <? length rest)%nat
          then compile_go fuel rest (stack ++ [otoken])
          else Ok (stack ++ [otoken]).
Proof.
  cbn [compile_go]. cbv zeta.
  destruct (_ && _); [done|].
  assert (Hne : c :: str <> []) by done.
  destruct (byte_eqb c _OP_SQ || byte_eqb c _OP_RD) eqn:Eb.
  - destruct (firstOf (c :: str) _CL_SQ _CL_RD =? -1); [done|].
    destruct (index (c :: str) (firstOf (c :: str) _CL_SQ _CL_RD))
      as [closing| |] eqn:Ei; [|done|done].
    cbn [mbind res_bind].
    destruct (slice (c :: str) 1 (firstOf (c :: str) _CL_SQ _CL_RD))
      as [body| |]; [|done|done].
    cbn [mbind res_bind].
    pose proof (firstOf_lt (c :: str) _CL_SQ _CL_RD Hne) as Hlt.
    assert (Hcl : 0 <= firstOf (c :: str) _CL_SQ _CL_RD).
    { unfold index in Ei.
      destruct (Z.ltb_spec (firstOf (c :: str) _CL_SQ _CL_RD) 0); [done|lia]. }
    rewrite slice_from by lia. reflexivity.
  - apply orb_false_iff in Eb as [Esq Erd].
    pose proof (firstOf_lt (c :: str) _OP_SQ _OP_RD Hne) as Hlt.
    destruct (firstOf_pos c str _OP_SQ _OP_RD Esq Erd) as [Hop|Hop].
    + rewrite Hop. reflexivity.
    + destruct (Z.eqb_spec (firstOf (c :: str) _OP_SQ _OP_RD) (-1)); [lia|].
      rewrite slice_to by lia. cbn [mbind res_bind].
      destruct (negb _); [done|].
      rewrite slice_from by lia. reflexivity.
Qed.

Lemma compile_go_nil fuel stack : compile_go fuel [] stack = Ok stack.
Proof. by destruct fuel. Qed.

(** The depth of the recursion never reaches the fuel: any two amounts
    of fuel that cover the length of the text give the same result. *)
Lemma compile_go_irrel f1 : forall f2 str stack,
  (length str <= f1)%nat -> (length str <= f2)%nat ->
  compile_go f1 str stack = compile_go f2 str stack.
Proof.
  induction f1 as [|f1 IH]; intros f2 str stack H1 H2.
  { destruct str; [|simpl in H1; lia]. by rewrite !compile_go_nil. }
  destruct str as [|c str]; [by rewrite !compile_go_nil|].
  destruct f2 as [|f2]; [simpl in H2; lia|].
  cbn [length] in H1, H2.
  rewrite !compile_go_S. cbv zeta.
  destruct (_ && _); [done|].
  destruct (byte_eqb c _OP_SQ || byte_eqb c _OP_RD) eqn:Eb.
  - destruct (firstOf (c :: str) _CL_SQ _CL_RD =? -1); [done|].
    destruct (index (c :: str) (firstOf (c :: str) _CL_SQ _CL_RD))
      as [closing| |] eqn:Ei; [|done|done].
    cbn [mbind res_bind].
    destruct (slice (c :: str) 1 (firstOf (c :: str) _CL_SQ _CL_RD))
      as [body| |]; [|done|done].
    cbn [mbind res_bind].
    assert (Hcl : 0 <= firstOf (c :: str) _CL_SQ _CL_RD).
    { unfold index in Ei.
      destruct (Z.ltb_spec (firstOf (c :: str) _CL_SQ _CL_RD) 0); [done|lia]. }
    destruct (0 <? length _)%nat; [|done].
    apply IH; rewrite length_drop; cbn [length]; lia.
  - apply orb_false_iff in Eb as [Esq Erd].
    destruct (firstOf_pos c str _OP_SQ _OP_RD Esq Erd) as [Hop|Hop].
    + rewrite Hop. reflexivity.
    + destruct (Z.eqb_spec (firstOf (c :: str) _OP_SQ _OP_RD) (-1)); [lia|].
      destruct (negb _); [done|].
      destruct (0 <? length _)%nat; [|done].
      apply IH; rewrite length_drop; cbn [length]; lia.
Qed.

(** [compile] as the source writes it: the recursive calls are on
    [str[cl+1:]] and on [str[op:]]. *)
Theorem compile_unfold c str0 stack :
  compile (c :: str0) stack
  = let str := c :: str0 in
    if (length stack =? 0)%nat
       && negb (countByte str _OP_RD + countByte str _OP_SQ
                =? countByte str _CL_RD + countByte str _CL_SQ)
    then Err ErrParenCount
    else if byte_eqb c _OP_SQ || byte_eqb c _OP_RD then
      let cl := firstOf str _CL_SQ _CL_RD in
      if cl =? -1 then Err (ErrNoClosing str)
      else
        closing ← index str cl;
        let flags := Z.lor (if byte_eqb c _OP_SQ then 2 else 0)
                           (if byte_eqb closing _CL_SQ then 1 else 0) in
        body ← slice str 1 cl;
        let ftoken := mkToken (clean body) flags 1 in
        let rest := drop (Z.to_nat (cl + 1)) str in
        if (0 <? length rest)%nat
        then compile rest (stack ++ [ftoken])
        else Ok (stack ++ [ftoken])
    else
      let op := firstOf str _OP_SQ _OP_RD in
      if op =? -1 then
        if (-2 <? indexByte str _CL_SQ + indexByte str _CL_RD)
           && (0 <? length stack)%nat
        then Err (ErrNested (last_value stack))
        else Err (ErrExpectedOpening str)
      else
        let operator := clean (take (Z.to_nat op) str) in
        if negb (length operator =? 1)%nat
        then Err (ErrUnexpectedOperation operator)
        else
          let otoken := mkToken operator 0 0 in
          let rest := drop (Z.to_nat op) str in
          if (0 <? length rest)%nat
          then compile rest (stack ++ [otoken])
          else Ok (stack ++ [otoken]).
Proof.
  unfold compile at 1. cbn [length]. rewrite compile_go_S. cbv zeta.
  destruct (_ && _); [done|].
  destruct (byte_eqb c _OP_SQ || byte_eqb c _OP_RD) eqn:Eb.
  - destruct (firstOf (c :: str0) _CL_SQ _CL_RD =? -1); [done|].
    destruct (index (c :: str0) (firstOf (c :: str0) _CL_SQ _CL_RD))
      as [closing| |] eqn:Ei; [|done|done].
    cbn [mbind res_bind].
    destruct (slice (c :: str0) 1 (firstOf (c :: str0) _CL_SQ _CL_RD))
      as [body| |]; [|done|done].
    cbn [mbind res_bind].
    assert (Hcl : 0 <= firstOf (c :: str0) _CL_SQ _CL_RD).
    { unfold index in Ei.
      destruct (Z.ltb_spec (firstOf (c :: str0) _CL_SQ _CL_RD) 0); [done|lia]. }
    destruct (0 <? length _)%nat; [|done].
    unfold compile. apply compile_go_irrel; [|done].
    rewrite length_drop. cbn [length]. lia.
  - apply orb_false_iff in Eb as [Esq Erd].
    destruct (firstOf_pos c str0 _OP_SQ _OP_RD Esq Erd) as [Hop|Hop].
    + rewrite Hop. reflexivity.
    + destruct (Z.eqb_spec (firstOf (c :: str0) _OP_SQ _OP_RD) (-1)); [lia|].
      destruct (negb _); [done|].
      destruct (0 <? length _)%nat; [|done].
      unfold compile. apply compile_go_irrel; [|done].
      rewrite length_drop. cbn [length]. lia.
Qed.

(** A formula in square brackets, with no bracket in its body and no
    round closer after it, becomes one token. *)
Lemma compile_go_square fuel G rest stack :
  noBrackets G = true ->
  indexByte rest _CL_RD = -1 ->
  (let str := "["%char :: G ++ "]"%char :: rest in
   (length stack =? 0)%nat
   && negb (countByte str _OP_RD + countByte str _OP_SQ
            =? countByte str _CL_RD + countByte str _CL_SQ)) = false ->
  compile_go (S fuel) ("["%char :: G ++ "]"%char :: rest) stack
  = if (0 <? length rest)%nat
    then compile_go fuel rest (stack ++ [squareToken G])
    else Ok (stack ++ [squareToken G]).
Proof.
  intros HG Hrest Hbal. rewrite compile_go_S. cbv zeta in *. rewrite Hbal.
  change (byte_eqb "[" _OP_SQ) with true. cbn [orb].
  set (str := "["%char :: G ++ "]"%char :: rest).
  assert (Hp : indexByte ("["%char :: G) _CL_SQ = -1).
  { cbn [indexByte]. change (byte_eqb "[" _CL_SQ) with false. cbv iota.
    rewrite (noBrackets_index G _CL_SQ HG eq_refl). reflexivity. }
  assert (Hp' : indexByte ("["%char :: G) _CL_RD = -1).
  { cbn [indexByte]. change (byte_eqb "[" _CL_RD) with false. cbv iota.
    rewrite (noBrackets_index G _CL_RD HG eq_refl). reflexivity. }
  assert (Hsq : indexByte str _CL_SQ = Z.of_nat (S (length G))).
  { unfold str. change ("["%char :: G ++ "]"%char :: rest)
      with (("["%char :: G) ++ _CL_SQ :: rest).
    by rewrite indexByte_here. }
  assert (Hrd : indexByte str _CL_RD = -1).
  { unfold str. change ("["%char :: G ++ "]"%char :: rest)
      with (("["%char :: G) ++ "]"%char :: rest).
    rewrite indexByte_skip by done. cbn [indexByte].
    change (byte_eqb "]" _CL_RD) with false. cbv iota. rewrite Hrest.
    reflexivity. }
  assert (Hcl : firstOf str _CL_SQ _CL_RD = Z.of_nat (S (length G))).
  { unfold firstOf. rewrite Hsq, Hrd. change (-1 <? -1) with false.
    rewrite andb_false_r.
    destruct (Z.eqb_spec (Z.of_nat (S (length G))) (-1)); [lia|done]. }
  rewrite Hcl.
  destruct (Z.eqb_spec (Z.of_nat (S (length G))) (-1)); [lia|].
  assert (Hidx : index str (Z.of_nat (S (length G))) = Ok "]"%char).
  { unfold index. destruct (Z.ltb_spec (Z.of_nat (S (length G))) 0); [lia|].
    rewrite Nat2Z.id. unfold str.
    change ("["%char :: G ++ "]"%char :: rest)
      with (("["%char :: G) ++ "]"%char :: rest).
    change (S (length G)) with (length ("["%char :: G)).
    by rewrite list_lookup_middle. }
  assert (Hslice : slice str 1 (Z.of_nat (S (length G))) = Ok G).
  { unfold slice.
    assert (Hc : (0 <=? 1) && (1 <=? Z.of_nat (S (length G)))
                 && (Z.of_nat (S (length G)) <=? Z.of_nat (length str)) = true).
    { rewrite !andb_true_iff, !Z.leb_le. unfold str. simpl length.
      rewrite length_app. simpl length. lia. }
    rewrite Hc. f_equal.
    replace (Z.to_nat (Z.of_nat (S (length G)) - 1)) with (length G) by lia.
    change (Z.to_nat 1) with 1%nat. unfold str. cbn [drop].
    rewrite drop_0. by rewrite take_app_length. }
  assert (Hdrop : drop (Z.to_nat (Z.of_nat (S (length G)) + 1)) str = rest).
  { replace (Z.to_nat (Z.of_nat (S (length G)) + 1)) with (S (S (length G)))
      by lia.
    unfold str. cbn [drop].
    change ("]"%char :: rest) with (["]"%char] ++ rest).
    rewrite app_assoc.
    replace (S (length G)) with (length (G ++ ["]"%char]))
      by (rewrite length_app; simpl; lia).
    by rewrite drop_app_length. }
  rewrite Hidx. cbn [mbind res_bind]. rewrite Hslice. cbn [mbind res_bind].
  rewrite Hdrop. reflexivity.
Qed.

(** The operator [+] between two formulas. *)
Lemma compile_go_plus fuel rest stack :
  stack <> [] ->
  compile_go (S fuel) (b " + [" ++ rest) stack
  = compile_go fuel ("["%char :: rest) (stack ++ [plusToken]).
Proof.
  intros Hst.
  change (b " + [" ++ rest)
    with (" "%char :: "+"%char :: " "%char :: "["%char :: rest).
  rewrite compile_go_S. cbv zeta.
  assert (Hlen : (length stack =? 0)%nat = false).
  { destruct stack; [done|reflexivity]. }
  rewrite Hlen. cbn [andb].
  change (byte_eqb " " _OP_SQ || byte_eqb " " _OP_RD) with false. cbv iota.
  set (str := " "%char :: "+"%char :: " "%char :: "["%char :: rest).
  assert (Hop : firstOf str _OP_SQ _OP_RD = 3).
  { unfold firstOf.
    assert (Hsq : indexByte str _OP_SQ = 3) by reflexivity.
    assert (Hrd : indexByte str _OP_RD = -1 \/ 4 <= indexByte str _OP_RD).
    { unfold str.
      change (" "%char :: "+"%char :: " "%char :: "["%char :: rest)
        with (b " + [" ++ rest).
      rewrite indexByte_skip by reflexivity.
      destruct (indexByte_bound rest _OP_RD) as [->|H]; [left; reflexivity|].
      destruct (Z.ltb_spec (indexByte rest _OP_RD) 0); [lia|].
      right. simpl length. lia. }
    rewrite Hsq. destruct Hrd as [->|Hrd]; [reflexivity|].
    destruct (Z.ltb_spec (-1) (indexByte str _OP_RD)); [|lia].
    cbn [andb Z.ltb Z.compare]. unfold min.
    destruct (Z.ltb_spec 3 (indexByte str _OP_RD)); [done|lia]. }
  rewrite Hop. reflexivity.
Qed.

Lemma compile_single F :
  noBrackets F = true ->
  compile (clean (single F)) [] = Ok [squareToken (collapseSpace F)].
Proof.
  intros HF. rewrite clean_single. unfold compile. cbn [length].
  pose proof (noBrackets_collapse F HF) as HG.
  rewrite compile_go_square; [reflexivity|done|reflexivity|].
  cbv zeta. cbn [length Nat.eqb andb countByte].
  rewrite !countByte_app. cbn [countByte].
  rewrite (noBrackets_count _ _OP_RD HG eq_refl),
    (noBrackets_count _ _OP_SQ HG eq_refl),
    (noBrackets_count _ _CL_RD HG eq_refl),
    (noBrackets_count _ _CL_SQ HG eq_refl). reflexivity.
Qed.

Lemma compile_unionTwice F :
  noBrackets F = true ->
  compile (clean (unionTwice F)) []
  = Ok [squareToken (collapseSpace F); plusToken;
        squareToken (collapseSpace F)].
Proof.
  intros HF. rewrite clean_unionTwice. unfold compile.
  pose proof (noBrackets_collapse F HF) as HG.
  set (G := collapseSpace F) in *.
  assert (Hlen : length ("["%char :: G ++ "]"%char :: b " + [" ++ G ++ ["]"%char])
                 = S (S (S (length G + length G + 4)))).
  { cbn [length]. rewrite length_app. cbn [length app b list_ascii_of_string].
    rewrite length_app. cbn [length]. lia. }
  rewrite Hlen.
  rewrite compile_go_square; [|done| |].
  - change (0 <? length (b " + [" ++ G ++ ["]"%char]))%nat with true.
    cbv iota. rewrite compile_go_plus by done.
    change ("["%char :: G ++ ["]"%char]) with ("["%char :: G ++ "]"%char :: []).
    rewrite compile_go_square; [reflexivity|done|reflexivity|reflexivity].
  - change (b " + [" ++ G ++ ["]"%char]) with (b " + [" ++ (G ++ ["]"%char])).
    rewrite indexByte_skip by reflexivity.
    rewrite indexByte_skip by (by apply noBrackets_index).
    reflexivity.
  - cbv zeta. cbn [length Nat.eqb andb countByte app b list_ascii_of_string].
    rewrite !countByte_app. cbn [countByte app].
    rewrite !countByte_app. cbn [countByte].
    rewrite (noBrackets_count _ _OP_RD HG eq_refl),
      (noBrackets_count _ _OP_SQ HG eq_refl),
      (noBrackets_count _ _CL_RD HG eq_refl),
      (noBrackets_count _ _CL_SQ HG eq_refl). reflexivity.
Qed.

(** ** Repetition of a byte class

    Every repetition in the patterns of the source is over a byte
    class.  The two equations show the greedy loop as it runs: one more
    byte first, the continuation as the fallback; its fuel is one more
    than the bytes left and is never used up. *)

Lemma rmatch_star_nil p pos cs k :
  rmatch (Star (Chr p)) pos [] cs k = k pos [] cs.
Proof. reflexivity. Qed.

Lemma rmatch_star_cons p pos x s cs k :
  rmatch (Star (Chr p)) pos (x :: s) cs k
  = if p x then
      match rmatch (Star (Chr p)) (S pos) s cs k with
      | Some c => Some c
      | None => k pos (x :: s) cs
      end
    else k pos (x :: s) cs.
Proof.
  cbn [rmatch length]. destruct (p x); [|reflexivity].
  assert (Hlt : (pos <? S pos)%nat = true) by (apply Nat.ltb_lt; lia).
  rewrite Hlt. reflexivity.
Qed.

Lemma rmatch_seq r1 r2 pos s cs k :
  rmatch (Seq r1 r2) pos s cs k
  = rmatch r1 pos s cs (fun pos' s' cs' => rmatch r2 pos' s' cs' k).
Proof. reflexivity. Qed.

Lemma rmatch_group i r pos s cs k :
  rmatch (Group i r) pos s cs k
  = rmatch r pos s cs (fun pos' s' cs' => k pos' s' ((i, (pos, pos')) :: cs')).
Proof. reflexivity. Qed.

Lemma rmatch_chr p pos x s cs k :
  rmatch (Chr p) pos (x :: s) cs k = if p x then k (S pos) s cs else None.
Proof. reflexivity. Qed.

(** A run of bytes of the class up to the end of the text is taken
    whole when the continuation accepts the end. *)
Lemma rmatch_star_all p s : forall pos cs k c,
  forallb p s = true ->
  k (pos + length s)%nat [] cs = Some c ->
  rmatch (Star (Chr p)) pos s cs k = Some c.
Proof.
  induction s as [|x s IH]; intros pos cs k c Hs Hk.
  - rewrite rmatch_star_nil. by rewrite Nat.add_0_r in Hk.
  - cbn [forallb] in Hs. apply andb_true_iff in Hs as [Hx Hs].
    rewrite rmatch_star_cons, Hx.
    rewrite (IH (S pos) cs k c Hs); [reflexivity|].
    cbn [length] in Hk. by rewrite Nat.add_succ_r in Hk.
Qed.

(** A byte outside the class ends the run at once. *)
Lemma rmatch_star_stop p pos x s cs k :
  p x = false -> rmatch (Star (Chr p)) pos (x :: s) cs k = k pos (x :: s) cs.
Proof. intros Hx. by rewrite rmatch_star_cons, Hx. Qed.

Lemma anyOf_not_space cls c :
  forallb (fun x => negb (isReSpace x)) (b cls) = true ->
  anyOf cls c = true -> isReSpace c = false.
Proof.
  unfold anyOf. generalize (b cls). intros l Hl Hc.
  apply existsb_exists in Hc as (x & Hx & Hcx).
  apply byte_eqb_eq in Hcx. subst x.
  rewrite forallb_forall in Hl. specialize (Hl c Hx).
  by apply negb_true_iff in Hl.
Qed.

(** The formula pattern on a condition written without blanks: header,
    operator, value. *)
Lemma formula_regex_plain h o v :
  anyOf "xzabcds" h = true ->
  anyOf "=><" o = true ->
  plainValue v = true ->
  FindSubmatch _FORMULA_REGEX 2 (h :: o :: v) = Some [[h; o]; v].
Proof.
  intros Hh Ho Hv.
  pose proof (anyOf_not_space "xzabcds" h eq_refl Hh) as Hhs.
  pose proof (anyOf_not_space "=><" o eq_refl Ho) as Hos.
  destruct v as [|x v]; [done|]. cbn [plainValue] in Hv.
  apply andb_true_iff in Hv as [Hxs Hdot].
  apply negb_true_iff in Hxs.
  cbn [forallb] in Hdot. apply andb_true_iff in Hdot as [Hx Hdot].
  unfold FindSubmatch, search.
  assert (Hm : rmatch _FORMULA_REGEX 0 (h :: o :: x :: v) []
                 (fun _ _ cs => Some cs)
               = Some [(2, (2, 3 + length v)); (1, (0, 2))]%nat).
  { unfold _FORMULA_REGEX. cbn [seqs]. unfold reS, Plus, reDot.
    rewrite rmatch_seq, rmatch_star_stop by exact Hhs. cbv beta.
    rewrite rmatch_seq, rmatch_group, rmatch_seq, rmatch_chr, Hh.
    rewrite rmatch_seq, rmatch_star_stop by exact Hos. cbv beta.
    rewrite rmatch_chr, Ho.
    rewrite rmatch_seq, rmatch_star_stop by exact Hxs. cbv beta.
    rewrite rmatch_seq, rmatch_group, rmatch_seq, rmatch_chr, Hx.
    apply rmatch_star_all; [exact Hdot|].
    rewrite rmatch_star_nil. reflexivity. }
  rewrite Hm. unfold groupText. cbn [map seq capture Nat.eqb].
  cbn [Nat.sub drop take]. do 3 f_equal.
  replace (3 + length v - 2)%nat with (S (length v)) by lia.
  cbn [take]. by rewrite take_ge.
Qed.

Lemma Split_absent s sep :
  forallb (fun x => negb (byte_eqb x sep)) s = true -> Split s sep = [s].
Proof.
  induction s as [|x s IH]; [done|].
  cbn [forallb Split]. rewrite andb_true_iff, negb_true_iff.
  intros [Hx Hs]. by rewrite Hx, (IH Hs).
Qed.

(** ** The dedup map *)

Lemma filter_all {A} (P : A -> Prop) `{!forall x, Decision (P x)} (l : list A) :
  Forall P l -> filter P l = l.
Proof.
  induction 1 as [|x l Hx Hl IH]; [done|].
  rewrite filter_cons_True by done. by rewrite IH.
Qed.

(** Dropping records by a test on their key commutes with dedup. *)
Lemma dedupByKey_filter (P : Rec -> Prop) `{!forall r, Decision (P r)}
    (l : Collection) :
  (forall r r', RecString r = RecString r' -> P r -> P r') ->
  dedupByKey (filter P l) = filter P (dedupByKey l).
Proof.
  intros Hkey. induction l as [|a l IH]; [done|].
  cbn [dedupByKey]. rewrite !filter_cons.
  destruct (decide (P a)) as [Hq|Hq].
  - cbn [dedupByKey]. f_equal. rewrite IH, !list_filter_filter.
    apply list_filter_iff. intros x. tauto.
  - rewrite IH, list_filter_filter. apply list_filter_iff.
    intros x. split; [|tauto].
    intros Hx. split; [done|]. intros e. apply Hq. by apply (Hkey x a).
Qed.

Lemma dedupByKey_NoDup l : NoDup (map RecString l) -> dedupByKey l = l.
Proof.
  induction l as [|r l IH]; [done|].
  cbn [map dedupByKey]. intros Hnd. apply NoDup_cons in Hnd as [Hr Hl].
  rewrite (IH Hl). f_equal. apply filter_all.
  apply Forall_forall. intros x Hx e. apply Hr.
  rewrite <- e. apply list_elem_of_In, in_map, list_elem_of_In, Hx.
Qed.

(** The map the staging loop leaves knows every staged record. *)
Lemma stage_known out : forall (m : gmap gostring Rec) r,
  r ∈ out \/ is_Some (m !! RecString r) ->
  is_Some (fold_left (fun m r => <[RecString r := r]> m) out m !! RecString r).
Proof.
  induction out as [|x out IH]; intros m r H; simpl.
  - destruct H as [H|H]; [by apply elem_of_nil in H|done].
  - apply IH. destruct H as [H|H].
    + apply elem_of_cons in H as [->|H]; [|by left].
      right. rewrite lookup_insert_eq. eauto.
    + right. destruct (decide (RecString x = RecString r)) as [e|n].
      * rewrite e, lookup_insert_eq. eauto.
      * by rewrite lookup_insert_ne.
Qed.

(** The union loop: records whose key the map knows are passed over. *)
Lemma unite_known out : forall (m : gmap gostring Rec) rs,
  (forall r, r ∈ out -> is_Some (m !! RecString r)) ->
  unite (m, rs) out = (m, rs).
Proof.
  unfold unite. induction out as [|x out IH]; intros m rs H; [done|].
  cbn [fold_left fst snd].
  destruct (H x) as [v Hv]; [apply list_elem_of_here|]. rewrite Hv.
  apply IH. intros r Hr. apply H. by apply list_elem_of_further.
Qed.

(** The union loop in full: it appends, in order, the first record of
    each key that the map did not know. *)
Lemma unite_spec out : forall (m : gmap gostring Rec) rs,
  snd (unite (m, rs) out)
  = rs ++ dedupByKey (filter (fun r => m !! RecString r = None) out).
Proof.
  unfold unite. induction out as [|x out IH]; intros m rs.
  - cbn. by rewrite app_nil_r.
  - cbn [fold_left fst snd].
    destruct (m !! RecString x) as [v|] eqn:E.
    + rewrite IH. f_equal. rewrite filter_cons_False; [done|].
      rewrite E. done.
    + rewrite IH, filter_cons_True by done.
      cbn [dedupByKey]. rewrite <- app_assoc. cbn [app]. do 2 f_equal.
      transitivity
        (dedupByKey
           (filter (fun r => RecString r <> RecString x)
              (filter (fun r => m !! RecString r = None) out))).
      * f_equal. rewrite list_filter_filter. apply list_filter_iff.
        intros r. rewrite lookup_insert_None. split.
        -- intros [Hm Hne]. split; [|done]. intros e. by apply Hne.
        -- intros [Hne Hm]. split; [done|]. intros e. by apply Hne.
      * apply dedupByKey_filter. intros r r' e Hr. by rewrite <- e.
Qed.

(** ** Ingestion of a compound row *)

Lemma wrap64_range z : isInt64 (wrap64 z).
Proof.
  unfold isInt64, wrap64, MinInt64, MaxInt64.
  pose proof (Z.mod_pos_bound (z + 2 ^ 63) (2 ^ 64) eq_refl). lia.
Qed.

Lemma wrap64_id z : isInt64 z -> wrap64 z = z.
Proof.
  unfold isInt64, wrap64, MinInt64, MaxInt64. intros Hz.
  rewrite Z.mod_small; lia.
Qed.

Lemma wrap64_add_l x y : wrap64 (wrap64 x + y) = wrap64 (x + y).
Proof.
  unfold wrap64. f_equal.
  replace ((x + 2 ^ 63) mod 2 ^ 64 - 2 ^ 63 + y + 2 ^ 63)
    with ((x + 2 ^ 63) mod 2 ^ 64 + y) by lia.
  rewrite Zplus_mod_idemp_l. f_equal. lia.
Qed.

(** The accumulator of the loop is the exact sum, wrapped once. *)
Lemma fold_add64 l : forall acc,
  fold_left add64 l (wrap64 acc) = wrap64 (acc + sumZ l).
Proof.
  induction l as [|x l IH]; intros acc; simpl.
  - f_equal. lia.
  - unfold add64 at 2. rewrite wrap64_add_l, IH. f_equal. lia.
Qed.

Lemma sub64_zero x y : isInt64 x -> isInt64 y -> (sub64 x y = 0 <-> x = y).
Proof.
  unfold isInt64, sub64, wrap64, MinInt64, MaxInt64.
  change (2 ^ 63) with 9223372036854775808.
  change (2 ^ 64) with 18446744073709551616.
  intros Hx Hy. split; intros H.
  - Z.div_mod_to_equations. lia.
  - subst y. replace (x - x) with 0 by lia. reflexivity.
Qed.

Lemma ParseInt_int64 s v : ParseInt s 64 = Some v -> isInt64 v.
Proof.
  unfold ParseInt, isInt64, MinInt64, MaxInt64.
  change (2 ^ (64 - 1)) with 9223372036854775808.
  change (2 ^ 63) with 9223372036854775808.
  destruct s as [|c rest]; [done|].
  destruct (byte_eqb c "+"); [|destruct (byte_eqb c "-")].
  - destruct rest as [|d rest]; [done|].
    destruct (parseDigits 0 (d :: rest)) as [u|] eqn:Eu; [|done].
    apply parseDigits_nonneg in Eu; [|done].
    destruct (Z.ltb_spec u 9223372036854775808); [|done].
    intros [= <-]. lia.
  - destruct rest as [|d rest]; [done|].
    destruct (parseDigits 0 (d :: rest)) as [u|] eqn:Eu; [|done].
    apply parseDigits_nonneg in Eu; [|done].
    destruct (Z.leb_spec u 9223372036854775808); [|done].
    intros [= <-]. lia.
  - destruct (parseDigits 0 (c :: rest)) as [u|] eqn:Eu; [|done].
    apply parseDigits_nonneg in Eu; [|done].
    destruct (Z.ltb_spec u 9223372036854775808); [|done].
    intros [= <-]. lia.
Qed.

Lemma mustParseAmount_int64 row i v :
  mustParseAmount row i = Ok v -> isInt64 v.
Proof.
  unfold mustParseAmount. destruct (index row i) as [cell| |]; simpl; try done.
  destruct (ParseInt _ 64) eqn:E; [|done].
  intros [= <-]. by eapply ParseInt_int64.
Qed.

Lemma subRecord_amount row k each r :
  subRecord row k each = Ok r ->
  exists a,
    mustParseAmount (SplitN2 (clean each) " ") 0 = Ok a
    /\ Amount r = mul64 a k.
Proof.
  unfold subRecord.
  destruct (mustParseAmount _ 0) as [a| |]; simpl; try done.
  destruct (index row 0) as [s| |]; simpl; try done.
  destruct (index row 1) as [rc| |]; simpl; try done.
  destruct (index _ 1) as [l| |]; simpl; try done.
  destruct (mustParseDate row 3) as [d| |]; simpl; try done.
  intros [= <-]. eauto.
Qed.

(** The loop over the sub-items, when each of them yields a record. *)
Lemma subRecords_all row k items : forall rs acc out,
  Forall2 (fun each r => subRecord row k each = Ok r) items rs ->
  subRecords row k items acc out
  = Ok (fold_left add64 (amounts rs) acc, out ++ rs).
Proof.
  induction items as [|each items IH]; intros rs acc out H.
  - inversion H; subst. simpl. by rewrite app_nil_r.
  - inversion H as [|? r ? rs' Hr Hrest]; subst. simpl.
    rewrite Hr. simpl. rewrite (IH rs') by done.
    simpl. by rewrite <- app_assoc.
Qed.

(** A row whose label holds the separator, whose total parses to
    [sum] and whose sub-items each yield a record: there is one record
    per sub-item, its amount the parsed sub-amount times [k] in
    [int64]; ingestion returns these records when their sum, wrapped to
    [int64], equals the total and otherwise panics with the
    difference; when the exact sum fits in [int64], that is when the
    exact sum equals the total. *)
Lemma compound_row_sums row label sum out :
  index row 2 = Ok label ->
  contains label [OPT_SEPARATOR] = true ->
  mustParseAmount row 4 = Ok sum ->
  let k := if sum <? 0 then -1 else 1 in
  Forall2 (fun each r => subRecord row k each = Ok r)
    (Split label OPT_SEPARATOR) out ->
  let total := sumZ (amounts out) in
  Forall2 (fun each r =>
             exists a,
               mustParseAmount (SplitN2 (clean each) " ") 0 = Ok a
               /\ Amount r = mul64 a k)
    (Split label OPT_SEPARATOR) out
  /\ ingestRow row
     = (if wrap64 total =? sum then Ok out
        else Panic (Thrown (DoesntAddUp (sub64 sum (wrap64 total))) row))
  /\ (isInt64 total ->
      (total = sum -> ingestRow row = Ok out)
      /\ (total <> sum ->
          ingestRow row = Panic (Thrown (DoesntAddUp (sub64 sum total)) row))).
Proof.
  intros Hlabel Hsep Hsum k Hall total.
  assert (Hrow : ingestRow row
                 = (if wrap64 total =? sum then Ok out
                    else Panic (Thrown (DoesntAddUp (sub64 sum (wrap64 total)))
                                  row))).
  { unfold ingestRow. rewrite Hlabel. cbn [mbind res_bind]. rewrite Hsep, Hsum.
    cbn [mbind res_bind]. fold k.
    rewrite (subRecords_all row k _ out 0 []) by exact Hall.
    cbn [mbind res_bind app].
    pose proof (fold_add64 (amounts out) 0) as Hacc.
    change (wrap64 0) with 0 in Hacc. rewrite Z.add_0_l in Hacc.
    fold total in Hacc. rewrite Hacc.
    pose proof (mustParseAmount_int64 _ _ _ Hsum) as Hs.
    pose proof (wrap64_range total) as Ht.
    pose proof (sub64_zero sum (wrap64 total) Hs Ht) as Hz.
    destruct (Z.eqb_spec (wrap64 total) sum) as [e|n].
    - assert (Hd : sub64 sum (wrap64 total) = 0) by (by apply Hz).
      rewrite Hd. reflexivity.
    - destruct (Z.eqb_spec (sub64 sum (wrap64 total)) 0) as [e0|n0];
        [|reflexivity].
      exfalso. apply n. symmetry. by apply Hz. }
  split; [|split; [exact Hrow|]].
  - clear Hrow total. induction Hall as [|each r items rs Hr _ IH];
      constructor; [by eapply subRecord_amount|exact IH].
  - intros Ht. rewrite Hrow, (wrap64_id total Ht).
    split; intros H.
    + by rewrite (proj2 (Z.eqb_eq _ _) H).
    + by rewrite (proj2 (Z.eqb_neq _ _) H).
Qed.

Lemma Split_nonempty s sep : Split s sep <> [].
Proof.
  destruct s as [|x s]; [done|]. cbn [Split].
  destruct (byte_eqb x sep); [done|]. by destruct (Split s sep).
Qed.

(** The pieces on either side of a separator. *)
Lemma Split_app_sep A sep R :
  Split (A ++ sep :: R) sep = Split A sep ++ Split R sep.
Proof.
  induction A as [|x A IH]; cbn [app Split].
  - unfold byte_eqb. by rewrite Ascii.eqb_refl.
  - destruct (byte_eqb x sep); [by rewrite IH|].
    rewrite IH. destruct (Split A sep) as [|h t] eqn:E; [|done].
    by apply Split_nonempty in E.
Qed.

(** A sub-item whose amount parses and that has a label after it
    yields its record when the date of the row parses, and fails as
    the date fails. *)
Lemma subRecord_parsed row k each s r al :
  index row 0 = Ok s -> index row 1 = Ok r ->
  parsedItem each al ->
  subRecord row k each
  = (d ← mustParseDate row 3; Ok (subItemRecord s r d k al)).
Proof.
  intros Hs Hr [Ha Hl]. unfold subRecord. rewrite Ha. cbn [mbind res_bind].
  rewrite Hs, Hr. cbn [mbind res_bind]. rewrite Hl. reflexivity.
Qed.

(** C2, as the code has it.  For a row whose label holds the
    separator, whose total parses to [sum] and whose sub-items, cleaned,
    each hold an amount that parses and a label after it.  When the
    date of the row parses, there is one record per sub-item, its
    amount the parsed sub-amount times [k] in [int64]; ingestion
    returns these records when their sum, wrapped to [int64], equals
    the total and otherwise panics with the difference; when the exact
    sum fits in [int64], that is when the exact sum equals the total.
    When the date of the row does not parse, ingestion panics on the
    date, whatever the amounts. *)
Theorem compound_row_adds_up row s r label sum items :
  index row 0 = Ok s -> index row 1 = Ok r -> index row 2 = Ok label ->
  contains label [OPT_SEPARATOR] = true ->
  mustParseAmount row 4 = Ok sum ->
  Forall2 parsedItem (Split label OPT_SEPARATOR) items ->
  let k := if sum <? 0 then -1 else 1 in
  (forall d,
     mustParseDate row 3 = Ok d ->
     let out := map (subItemRecord s r d k) items in
     let total := sumZ (amounts out) in
     amounts out = map (fun al => mul64 (fst al) k) items
     /\ ingestRow row
        = (if wrap64 total =? sum then Ok out
           else Panic (Thrown (DoesntAddUp (sub64 sum (wrap64 total))) row))
     /\ (isInt64 total ->
         (total = sum -> ingestRow row = Ok out)
         /\ (total <> sum ->
             ingestRow row
             = Panic (Thrown (DoesntAddUp (sub64 sum total)) row))))
  /\ (forall p, mustParseDate row 3 = Panic p -> ingestRow row = Panic p).
Proof.
  intros Hs Hr Hlabel Hsep Hsum Hitems k. split.
  - intros d Hd out total.
    assert (Hall : Forall2 (fun each r => subRecord row k each = Ok r)
                     (Split label OPT_SEPARATOR) out).
    { subst out. clear -Hs Hr Hd Hitems.
      induction Hitems as [|each al l1 l2 Hp _ IH]; cbn [map];
        constructor; [|exact IH].
      rewrite (subRecord_parsed row k each s r al Hs Hr Hp), Hd.
      reflexivity. }
    destruct (compound_row_sums row label sum out Hlabel Hsep Hsum Hall)
      as (_ & Hrow & Hexact).
    split; [|split; [exact Hrow|exact Hexact]].
    subst out. unfold amounts. rewrite map_map. reflexivity.
  - intros p Hp. unfold ingestRow. rewrite Hlabel. cbn [mbind res_bind].
    rewrite Hsep, Hsum. cbn [mbind res_bind]. fold k.
    pose proof (Split_nonempty label OPT_SEPARATOR) as Hne.
    destruct Hitems as [|each al l1 l2 Hi _]; [done|].
    cbn [subRecords].
    rewrite (subRecord_parsed row k each s r al Hs Hr Hi), Hp.
    reflexivity.
Qed.

(** [New] on a single row is the ingestion of that row. *)
Lemma New_one row : New [row] = ingestRow row.
Proof.
  unfold New. cbn [New_go]. destruct (ingestRow row); reflexivity.
Qed.

Section EngineFacts.

Variable locale : Locale.
Variable currentYear : Z.
Variable currentMonthIndex : Z.
Variable unicodeToLower : gostring -> gostring.
Variable rangeMem : nat -> gmap gostring Rec -> list Rec.

Local Abbreviation walkE := (walk locale currentYear currentMonthIndex
                          unicodeToLower rangeMem).
Local Abbreviation evaluateE := (evaluate locale currentYear currentMonthIndex
                              unicodeToLower rangeMem).
Local Abbreviation FilterWithE := (FilterWith locale currentYear
                                currentMonthIndex unicodeToLower rangeMem).
Local Abbreviation FilterE := (Filter locale currentYear currentMonthIndex
                            unicodeToLower rangeMem).
Local Abbreviation FilterUnsortedE := (FilterUnsorted locale currentYear
                                    currentMonthIndex unicodeToLower rangeMem).
Local Abbreviation prepareE := (prepare locale currentYear currentMonthIndex
                             unicodeToLower).
Local Abbreviation queryE := (query locale unicodeToLower).

Lemma orFail_finished {A} finish (r : res A) k :
  finished finish (orFail r k) = orFail r (fun a => finished finish (k a)).
Proof. by destruct r. Qed.

Lemma orFail_ext {A} (r : res A) k1 k2 :
  (forall a, k1 a = k2 a) -> orFail r k1 = orFail r k2.
Proof. intros H. destruct r; simpl; auto. Qed.

(** The sort is the only thing [finish] contributes: the walkE with
    [finish] is the walkE without it, finished. *)
Lemma walk_finished finish c n : forall rest i mem results,
  (length rest <= n)%nat ->
  walkE finish c i rest mem results
  = finished finish (walkE (fun rs => rs) c i rest mem results).
Proof.
  induction n as [|n IH]; intros rest i mem results Hn.
  { destruct rest; [done|simpl in Hn; lia]. }
  destruct rest as [|op [|ls rest]]; [done|done|].
  simpl in Hn. simpl.
  destruct (IsFormula op); [done|].
  destruct (negb (IsFormula ls)); [done|].
  rewrite !orFail_finished. apply orFail_ext; intros filters.
  rewrite !orFail_finished. apply orFail_ext; intros o.
  destruct (byte_eqb o _UNION).
  { rewrite !orFail_finished. apply orFail_ext; intros out.
    apply IH. lia. }
  destruct (byte_eqb o _DIFF); [|done].
  rewrite !orFail_finished. apply orFail_ext; intros out.
  apply IH. lia.
Qed.

Lemma evaluate_finished finish c q stack :
  stack <> [] ->
  evaluateE finish c q stack
  = finished finish (evaluateE (fun rs => rs) c q stack).
Proof.
  intros Hne. destruct stack as [|start rest]; [done|]. simpl.
  destruct (IsFormula start); [|done].
  rewrite !orFail_finished. apply orFail_ext; intros filters.
  rewrite !orFail_finished. apply orFail_ext; intros out.
  by apply (walk_finished finish c (length rest)).
Qed.

(** A non-empty queryE goes through the final sort. *)
Lemma Filter_finished c q :
  clean q <> [] ->
  FilterE c q = finished SliceStable (FilterUnsortedE c q).
Proof.
  intros Hne. unfold FilterE, FilterUnsortedE, FilterWith.
  destruct (compile (clean q) []) as [stack| |] eqn:E; simpl; [|done|done].
  apply evaluate_finished. by eapply compile_nonempty.
Qed.

Lemma stage_app mem results out :
  stage (mem, results) out
  = (fold_left (fun m r => <[RecString r := r]> m) out mem, results ++ out).
Proof.
  unfold stage. revert mem results.
  induction out as [|r out IH]; intros mem results; simpl.
  - by rewrite app_nil_r.
  - rewrite IH. by rewrite <- app_assoc.
Qed.

Lemma compile_empty : compile [] [] = Ok [].
Proof. reflexivity. Qed.

Lemma compile_brackets :
  compile (clean (b "[]")) [] = Ok [mkToken [] 3 1].
Proof. vm_compute. reflexivity. Qed.

Lemma compile_adjacent :
  compile (clean (b "[][]")) [] = Ok [mkToken [] 3 1; mkToken [] 3 1].
Proof. vm_compute. reflexivity. Qed.

(** An empty formula body has no condition. *)
Lemma prepare_empty cs : prepareE cs [] = Ok [].
Proof. reflexivity. Qed.

Lemma query_no_filter records : queryE records [] = Ok records.
Proof. reflexivity. Qed.

(** C7: for every collection, [Filter] with a query that is empty once
    cleaned returns the collection itself, same records in the same
    order, and no error. *)
Theorem Filter_empty_query c q :
  clean q = [] -> FilterE c q = Returned c None.
Proof.
  intros Hq. unfold Filter, FilterWith. rewrite Hq, compile_empty. done.
Qed.

(** C6, as the code has it: the query "[]" returns no error and the
    records of the collection put through the final stable sort, a
    permutation of the collection in date-descending, amount-ascending
    order. *)
Theorem Filter_empty_formula c :
  FilterE c (b "[]") = Returned (SliceStable c) None
  /\ SliceStable c ≡ₚ c
  /\ StronglySorted ordered (SliceStable c).
Proof.
  split; [|split; [apply SliceStable_perm|apply SliceStable_sorted]].
  unfold Filter, FilterWith. rewrite compile_brackets. simpl.
  rewrite stage_app. done.
Qed.

(** The walk over tokens out of position: a formula where an operator
    is expected and an operator where a formula is expected are
    reported as errors, provided the pair is there to be read. *)
Lemma walk_missing_operation finish c i op ls rest mem results :
  IsFormula op = true ->
  walkE finish c i (op :: ls :: rest) mem results
  = Returned results (Some (ErrMissingOperation (value op))).
Proof. intros Hop. cbn [walk]. by rewrite Hop. Qed.

Lemma walk_missing_formula finish c i op ls rest mem results :
  IsFormula op = false ->
  IsFormula ls = false ->
  walkE finish c i (op :: ls :: rest) mem results
  = Returned results (Some (ErrMissingFormula (value op))).
Proof. intros Hop Hls. cbn [walk]. by rewrite Hop, Hls. Qed.

(** A last token without a partner: [stack[i+1]] is out of range. *)
Lemma walk_lone_token finish c i t mem results :
  walkE finish c i [t] mem results = Panicked IndexOutOfRange.
Proof. reflexivity. Qed.

Lemma evaluate_operator_first finish c q start rest :
  IsFormula start = false ->
  evaluateE finish c q (start :: rest)
  = Returned [] (Some (ErrIncorrectQuery q)).
Proof. intros Hs. unfold evaluate. by rewrite Hs. Qed.

Lemma compile_three_adjacent :
  compile (clean (b "[][][]")) []
  = Ok [mkToken [] 3 1; mkToken [] 3 1; mkToken [] 3 1].
Proof. vm_compute. reflexivity. Qed.

(** With a third formula the misplaced one is reported. *)
Lemma Filter_three_adjacent_formulas c :
  FilterE c (b "[][][]") = Returned c (Some (ErrMissingOperation [])).
Proof.
  unfold Filter, FilterWith. rewrite compile_three_adjacent.
  cbn [orFail]. unfold evaluate. cbn [IsFormula class Z.eqb Pos.eqb].
  rewrite prepare_empty. cbn [orFail]. rewrite query_no_filter.
  cbn [orFail]. rewrite stage_app. cbn [fst snd app].
  by rewrite walk_missing_operation.
Qed.

(** C5, at the failing input: two adjacent formulas compile to a stack
    of two tokens, and the walk reads [stack[2]]: the outcome is a
    panic, not an error value. *)
Theorem Filter_adjacent_formulas_panic c :
  FilterE c (b "[][]") = Panicked IndexOutOfRange.
Proof.
  unfold Filter, FilterWith. rewrite compile_adjacent. done.
Qed.

(** C1, as the code has it: when the cleaned query is not empty and
    [Filter] returns without error, the result is the slice built by
    the walk put through the stable sort: it is in date-descending
    order with ties in amount-ascending order, has the same records,
    and records of equal date and amount keep their relative order. *)
Theorem Filter_sorted c q rs :
  clean q <> [] ->
  FilterE c q = Returned rs None ->
  exists pre,
    FilterUnsortedE c q = Returned pre None
    /\ rs = SliceStable pre
    /\ StronglySorted ordered rs
    /\ rs ≡ₚ pre
    /\ forall d a, filter (sameRank d a) rs = filter (sameRank d a) pre.
Proof.
  intros Hq H. rewrite Filter_finished in H by done.
  destruct (FilterUnsortedE c q) as [pre [e|]|p]; simpl in H; try done.
  inversion H; subst. exists pre.
  split; [done|]. split; [done|].
  split; [apply SliceStable_sorted|].
  split; [apply SliceStable_perm|].
  intros d a. apply SliceStable_stable.
Qed.

(** ** From a formula body to its comparators *)

Local Abbreviation prepareConditionE :=
  (prepareCondition locale currentYear currentMonthIndex unicodeToLower).

(** A condition written as header, operator and a plain value is
    handed to the coercion with these as its two groups. *)
Lemma prepareCondition_plain cs h o v :
  anyOf "xzabcds" h = true ->
  anyOf "=><" o = true ->
  plainValue v = true ->
  prepareConditionE cs (h :: o :: v)
  = fillComparator locale currentYear currentMonthIndex unicodeToLower
      cs [h; o] v.
Proof.
  intros Hh Ho Hv. unfold prepareCondition.
  by rewrite (formula_regex_plain h o v Hh Ho Hv).
Qed.

(** A trimmed body without a delimiter is one condition. *)
Lemma prepare_one cs body :
  body <> [] ->
  TrimSpace body = body ->
  forallb (fun x => negb (byte_eqb x _DELIM)) body = true ->
  prepareE cs body = (comp ← prepareConditionE cs body; Ok [comp]).
Proof.
  intros Hne Htrim Hdelim. unfold prepare.
  rewrite Htrim, (Split_absent body _DELIM Hdelim).
  cbn [prepare_go]. destruct body; [done|]. cbn [length Nat.eqb].
  by destruct (prepareConditionE cs _).
Qed.

(** ** The text matcher and its bounds *)

Local Abbreviation doesItMatchE := (doesItMatch locale unicodeToLower).
Local Abbreviation CompareE := (Compare locale unicodeToLower).

(** A keyword whose folded form is not empty and does not open with a
    double quote is matched without any out-of-bounds access. *)
Lemma doesItMatch_unquoted keyword value c rest :
  Translate locale (ToLower unicodeToLower keyword) = c :: rest ->
  c <> dquote ->
  exists m, doesItMatchE keyword value = Ok m.
Proof.
  intros Hk Hc. unfold doesItMatch. rewrite Hk. simpl.
  apply byte_eqb_neq in Hc. rewrite Hc. simpl.
  destruct (hasPrefix _ _); eauto.
Qed.

(** An empty keyword whose folded form is empty: byte 0 is read. *)
Lemma doesItMatch_empty value :
  Translate locale [] = [] ->
  doesItMatchE [] value = Panic IndexOutOfRange.
Proof.
  intros Hk. unfold doesItMatch.
  change (ToLower unicodeToLower []) with (@nil ascii).
  rewrite Hk. reflexivity.
Qed.

(** ** Date conditions *)

Local Abbreviation fillComparatorE :=
  (fillComparator locale currentYear currentMonthIndex unicodeToLower).

(** The comparator a date condition is left with when no pattern
    applies, and what it accepts. *)
Lemma Compare_date_equal v n o cs r :
  CompareE (mkComparator "d" "=" v n o cs) r
  = Ok (if 0 <? o then (n <=? Date r) && (Date r <=? add64 n o)
        else Date r =? n).
Proof. reflexivity. Qed.

(** A date condition whose value is matched by none of the five date
    patterns, is not the prefix of a month name of the locale and is
    not a four-byte year in range is left with [numberValue] 0 and
    [offsetValue] 0. *)
Lemma fillComparator_unrecognised cs tokens2 :
  let v := TrimSpace (ToLower unicodeToLower tokens2) in
  FindSubmatch _DATE_REGEX_DD_MONTH 2 v = None ->
  FindSubmatch _DATE_REGEX_DD_MONTH_YYYY 3 v = None ->
  FindSubmatch _DATE_REGEX_MONTH_YYYY 2 v = None ->
  FindSubmatch _DATE_REGEX_DD_MM_YYYY 3 v = None ->
  FindSubmatch _DATE_REGEX_YYYY_MM_DD 3 v = None ->
  Month locale v = -1 ->
  (forall year, length v = 4%nat -> ParseInt v 16 = Some year ->
                ~ (_MIN_YEAR < year <= currentYear)) ->
  fillComparatorE cs (b "d=") tokens2 = Ok (mkComparator "d" "=" v 0 0 cs).
Proof.
  intros v H1 H2 H3 H4 H5 Hm Hy.
  unfold fillComparator. simpl index. cbn [mbind res_bind]. simpl byte_eqb. cbv iota.
  fold v. unfold coerceDate. cbn [bytesValue].
  rewrite H1, H2, H3, H4, H5, Hm. simpl (-1 <? -1). cbv iota.
  destruct (length v =? 4)%nat eqn:El; [|done].
  apply Nat.eqb_eq in El.
  destruct (ParseInt v 16) as [year|] eqn:Ep; [|done].
  specialize (Hy year El eq_refl).
  destruct (_MIN_YEAR <? year) eqn:E1; [|done].
  destruct (year <=? currentYear) eqn:E2; [|done].
  apply Z.ltb_lt in E1. apply Z.leb_le in E2. lia.
Qed.

(** The loop of [prepare] over conditions none of which is empty, then
    over more conditions. *)
Lemma prepare_go_app cs l1 l2 : forall filters,
  Forall (fun condition => condition <> []) l1 ->
  prepare_go locale currentYear currentMonthIndex unicodeToLower cs
    (l1 ++ l2) filters
  = (fs ← prepare_go locale currentYear currentMonthIndex unicodeToLower cs
            l1 filters;
     prepare_go locale currentYear currentMonthIndex unicodeToLower cs l2 fs).
Proof.
  induction l1 as [|condition l1 IH]; intros filters Hne; [done|].
  apply Forall_cons in Hne as [Hc Hne]. cbn [app prepare_go].
  destruct condition as [|x condition]; [done|]. cbn [length Nat.eqb].
  destruct (prepareConditionE cs (x :: condition)); cbn [mbind res_bind];
    [by apply IH|done|done].
Qed.


Lemma bytes_eqb_eq s t : bytes_eqb s t = true <-> s = t.
Proof.
  revert t. induction s as [|x s IH]; intros [|y t]; simpl;
    [done|done|done|].
  rewrite andb_true_iff, byte_eqb_eq, IH. split.
  - intros [-> ->]. reflexivity.
  - intros [= -> ->]. done.
Qed.

Lemma isNone_true {A} (o : option A) : isNone o = true -> o = None.
Proof. by destruct o. Qed.

Lemma isDigit_digits c : isDigit c = true -> c ∈ digits.
Proof.
  destruct c as [[] [] [] [] [] [] [] []]; vm_compute; intros Hc;
    try discriminate Hc;
    repeat first [apply list_elem_of_here|apply list_elem_of_further].
Qed.

Lemma allDigits4_complete v :
  length v = 4%nat -> forallb isDigit v = true -> v ∈ allDigits4.
Proof.
  destruct v as [|d1 [|d2 [|d3 [|d4 [|]]]]]; try done. intros _ H.
  simpl in H. rewrite !andb_true_iff in H.
  destruct H as (H1 & H2 & H3 & H4 & _).
  apply isDigit_digits in H1, H2, H3, H4.
  unfold allDigits4.
  apply list_elem_of_bind. exists d1. split; [|done].
  apply list_elem_of_bind. exists d2. split; [|done].
  apply list_elem_of_bind. exists d3. split; [|done].
  apply list_elem_of_bind. exists d4. split; [|done].
  apply list_elem_of_here.
Qed.

Lemma allDigits4_ok : forallb bareYearOk allDigits4 = true.
Proof. vm_compute. reflexivity. Qed.

Lemma bareYear_ok v :
  length v = 4%nat -> forallb isDigit v = true -> bareYearOk v = true.
Proof.
  intros Hl Hd. pose proof allDigits4_ok as H.
  rewrite forallb_forall in H. apply H.
  apply list_elem_of_In. by apply allDigits4_complete.
Qed.

Lemma unixDate_january y d :
  unixDate y 1 d = 86400 * (daysSinceEpoch y + (d - 1)).
Proof.
  change (unixDate y 1 d)
    with (86400 * (daysSinceEpoch (y + 0) + 0
                   + (if isLeap (y + 0) && false then 1 else 0) + (d - 1))).
  replace (y + 0) with y by lia. rewrite andb_false_r. cbv iota. lia.
Qed.

Lemma unixDate_december y d :
  unixDate y 12 d
  = 86400 * (daysSinceEpoch y + 334 + (if isLeap y then 1 else 0) + (d - 1)).
Proof.
  change (unixDate y 12 d)
    with (86400 * (daysSinceEpoch (y + 0) + 334
                   + (if isLeap (y + 0) && true then 1 else 0) + (d - 1))).
  replace (y + 0) with y by lia. rewrite andb_true_r. reflexivity.
Qed.

(** A year's range: from January 1st to December 31st, both at 00:00. *)
Lemma unixDate_year_span y :
  unixDate y 12 31 - unixDate y 1 1
  = 86400 * (364 + (if isLeap y then 1 else 0)).
Proof.
  rewrite unixDate_january, unixDate_december. destruct (isLeap y); lia.
Qed.

Lemma unixDate_year_start_bounds y :
  0 <= y <= 9999 -> - 2 ^ 40 <= unixDate y 1 1 <= 2 ^ 40.
Proof.
  intros Hy. rewrite unixDate_january.
  unfold daysSinceEpoch. cbv zeta.
  change (2 ^ 40) with 1099511627776.
  Z.div_mod_to_equations. lia.
Qed.

(** C8, as the code has it: a date condition whose value is four
    decimal digits, not the prefix of a month name of the locale.  With
    the year in (1922, current year] the comparator accepts exactly the
    records from January 1st 00:00 UTC through December 31st 00:00 UTC
    of that year; with the year outside, no error is raised and the
    comparator accepts exactly the records at Unix time 0. *)
Theorem date_bare_year cs v year :
  length v = 4%nat ->
  forallb isDigit v = true ->
  ParseInt v 16 = Some year ->
  Month locale v = -1 ->
  exists comp,
    fillComparatorE cs (b "d=") v = Ok comp
    /\ forall r,
         CompareE comp r
         = Ok (if (_MIN_YEAR <? year) && (year <=? currentYear)
               then (unixDate year 1 1 <=? Date r)
                    && (Date r <=? unixDate year 12 31)
               else Date r =? 0).
Proof.
  intros Hl Hd Hp Hm.
  pose proof (bareYear_ok v Hl Hd) as Hok. unfold bareYearOk in Hok.
  rewrite !andb_true_iff in Hok.
  destruct Hok as ((((((((H1 & H2) & H3) & H4) & H5) & Ht) & Ha) & Hlow) & Hy).
  apply isNone_true in H1, H2, H3, H4, H5.
  apply bytes_eqb_eq in Ht, Hlow.
  rewrite Hp in Hy. rewrite andb_true_iff, !Z.leb_le in Hy.
  assert (Hv : TrimSpace (ToLower unicodeToLower v) = v).
  { unfold ToLower. rewrite Ha, Hlow. done. }
  unfold fillComparator. simpl index. cbn [mbind res_bind].
  simpl byte_eqb. cbv iota. rewrite Hv.
  unfold coerceDate. cbn [bytesValue].
  rewrite H1, H2, H3, H4, H5, Hm. simpl (-1 <? -1). cbv iota.
  apply Nat.eqb_eq in Hl. rewrite Hl, Hp.
  destruct ((_MIN_YEAR <? year) && (year <=? currentYear)).
  - eexists. split; [reflexivity|]. intros r.
    unfold setOffset, setNumber. cbn [header operator bytesValue numberValue
                                      offsetValue intervalScope].
    rewrite Compare_date_equal.
    pose proof (unixDate_year_span year) as Hs.
    pose proof (unixDate_year_start_bounds year Hy) as Hb.
    assert (Hspan : 0 < unixDate year 12 31 - unixDate year 1 1 <= 2 ^ 40).
    { rewrite Hs. change (2 ^ 40) with 1099511627776.
      destruct (isLeap year); lia. }
    unfold sub64, add64.
    change (2 ^ 40) with 1099511627776 in *.
    rewrite (wrap64_small (unixDate year 12 31 - unixDate year 1 1))
      by (change (2 ^ 63) with 9223372036854775808; lia).
    rewrite wrap64_small
      by (change (2 ^ 63) with 9223372036854775808; lia).
    replace (unixDate year 1 1 + (unixDate year 12 31 - unixDate year 1 1))
      with (unixDate year 12 31) by lia.
    destruct (0 <? unixDate year 12 31 - unixDate year 1 1) eqn:E; [done|].
    apply Z.ltb_ge in E. lia.
  - eexists. split; [reflexivity|]. intros r. apply Compare_date_equal.
Qed.

(** ** Amount conditions *)

Lemma Compare_sum_equal v n o cs r :
  CompareE (mkComparator "s" "=" v n o cs) r
  = Ok (let amount := absAmount r in
        if 0 <? o then (n <=? amount) && (amount <=? add64 n o)
        else amount =? n).
Proof. reflexivity. Qed.

Lemma absAmount_spec r :
  isInt64 (Amount r) ->
  (Amount r = MinInt64 /\ absAmount r = MinInt64)
  \/ (Amount r <> MinInt64 /\ absAmount r = Z.abs (Amount r)
      /\ 0 <= absAmount r <= MaxInt64).
Proof.
  unfold isInt64, absAmount, neg64, MinInt64, MaxInt64.
  change (2 ^ 63) with 9223372036854775808. intros Hr.
  destruct (Z.eq_dec (Amount r) (-9223372036854775808)) as [e|n].
  - left. rewrite e. split; [done|]. reflexivity.
  - right. split; [done|].
    destruct (Z.ltb_spec (Amount r) 0).
    + rewrite wrap64_small
        by (change (2 ^ 63) with 9223372036854775808; lia). lia.
    + lia.
Qed.

Lemma fillComparator_sum cs tokens2 :
  fillComparatorE cs (b "s=") tokens2
  = coerceSum
      (mkComparator "s" "=" (TrimSpace (ToLower unicodeToLower tokens2)) 0 0 cs)
      (ToLower unicodeToLower tokens2).
Proof. reflexivity. Qed.

Local Ltac int64_consts :=
  unfold isInt64, MinInt64, MaxInt64, inBits in *;
  change (2 ^ (64 - 1)) with 9223372036854775808 in *;
  change (2 ^ 63) with 9223372036854775808 in *.

Local Ltac decide_tests :=
  repeat match goal with
         | |- context [?x <=? ?y] => destruct (Z.leb_spec x y)
         | |- context [?x <? ?y] => destruct (Z.ltb_spec x y)
         | |- context [?x =? ?y] => destruct (Z.eqb_spec x y)
         end;
  simpl; try reflexivity; try lia.

(** C4, as the code has it.  For a condition on [s] with [=] that the
    preparer accepts: when the value has no comma and reads as the
    integer [N], not written as a minus-signed zero, the comparator
    accepts exactly the records whose absolute amount lies in
    [[N*100, N*100+99]]; when the value opens with a minus sign it
    accepts exactly the absolute amounts equal to [N*100]; when the
    value has a comma it accepts exactly the records whose absolute
    amount, as the source computes it, equals the integer read after
    the commas are stripped. *)
Theorem amount_condition cs tokens2 comp :
  fillComparatorE cs (b "s=") tokens2 = Ok comp ->
  let value := ToLower unicodeToLower tokens2 in
  let v := TrimSpace value in
  (contains v (b ",") = false ->
   forall N, ParseInt v 64 = Some N ->
   (minusSigned v = false \/ N <> 0) ->
   forall r, isInt64 (Amount r) ->
     CompareE comp r
     = Ok ((N * 100 <=? Z.abs (Amount r))
           && (Z.abs (Amount r) <=? N * 100 + 99)))
  /\ (contains v (b ",") = false ->
      forall N, ParseInt v 64 = Some N ->
      minusSigned v = true ->
      forall r, CompareE comp r = Ok (absAmount r =? N * 100))
  /\ (contains v (b ",") = true ->
      forall M, ParseInt (ReplaceAll value (b ",") []) 64 = Some M ->
      forall r, CompareE comp r = Ok (absAmount r =? M)).
Proof.
  intros H value v. rewrite fillComparator_sum in H.
  fold value in H. fold v in H. clearbody v. clearbody value.
  unfold coerceSum in H. cbn [bytesValue] in H.
  assert (Hnocomma : contains v (b ",") = false ->
            forall N, ParseInt v 64 = Some N ->
            exists off,
              comp = mkComparator "s" "=" v (N * 100) off cs
              /\ - 2 ^ 63 <= N * 100 < 2 ^ 63
              /\ (if minusSigned v then off = -99 /\ N <= 0
                  else off = 99 /\ 0 <= N /\ N * 100 + 99 < 2 ^ 63)).
  { intros Hc N Hp. rewrite Hc in H.
    destruct (ParseInt_suffix v 64 N (b "00") Hp) as [E00 Hsign].
    destruct (ParseInt_suffix v 64 N (b "99") Hp) as [E99 _].
    rewrite parseDigits_00 in E00. rewrite parseDigits_99 in E99.
    rewrite E00 in H.
    assert (Hne : exists c rest, v ++ b "99" = c :: rest).
    { destruct v; [done|]. simpl. eauto. }
    destruct Hne as (c & rest & Hne). rewrite E99, Hne in H.
    int64_consts. unfold setNumber, setOffset, sub64 in H.
    cbn [header operator bytesValue numberValue offsetValue intervalScope] in H.
    destruct (minusSigned v).
    - destruct (Z.leb_spec (Z.abs N * 100) 9223372036854775808); [|done].
      destruct (Z.leb_spec (Z.abs N * 100 + 99) 9223372036854775808);
        [|done].
      inversion H; subst comp. exists (-99).
      replace (- (Z.abs N * 100 + 99) - - (Z.abs N * 100)) with (-99) by lia.
      replace (- (Z.abs N * 100)) with (N * 100) by lia.
      split; [reflexivity|]. lia.
    - destruct (Z.ltb_spec (Z.abs N * 100) 9223372036854775808); [|done].
      destruct (Z.ltb_spec (Z.abs N * 100 + 99) 9223372036854775808);
        [|done].
      inversion H; subst comp. exists 99.
      replace (Z.abs N * 100 + 99 - Z.abs N * 100) with 99 by lia.
      replace (Z.abs N * 100) with (N * 100) by lia.
      split; [reflexivity|]. lia. }
  split; [|split].
  - intros Hc N Hp Hzero r Hr.
    destruct (Hnocomma Hc N Hp) as (off & -> & Hn & Hoff).
    rewrite Compare_sum_equal. cbv zeta. f_equal.
    destruct (absAmount_spec r Hr) as [[Ha Hb]|(Ha & Hb & Hc')];
      rewrite Hb; int64_consts; unfold add64.
    + rewrite Ha.
      change (Z.abs (-9223372036854775808)) with 9223372036854775808.
      destruct (minusSigned v).
      * destruct Hoff as [-> HN]. simpl (0 <? -99). cbv iota.
        destruct Hzero as [|Hz]; [done|]. decide_tests.
      * destruct Hoff as (-> & HN & Hmax). simpl (0 <? 99). cbv iota.
        rewrite wrap64_small
          by (change (2 ^ 63) with 9223372036854775808; lia).
        decide_tests.
    + rewrite Hb in Hc'.
      destruct (minusSigned v).
      * destruct Hoff as [-> HN]. simpl (0 <? -99). cbv iota.
        destruct Hzero as [|Hz]; [done|]. decide_tests.
      * destruct Hoff as (-> & HN & Hmax). simpl (0 <? 99). cbv iota.
        rewrite wrap64_small
          by (change (2 ^ 63) with 9223372036854775808; lia).
        decide_tests.
  - intros Hc N Hp Hm r.
    destruct (Hnocomma Hc N Hp) as (off & -> & Hn & Hoff).
    rewrite Hm in Hoff. destruct Hoff as [-> _].
    rewrite Compare_sum_equal. reflexivity.
  - intros Hc M Hp r. rewrite Hc, Hp in H. inversion H; subst comp.
    apply Compare_sum_equal.
Qed.

(** ** Union of a formula with itself *)

(** The [_UNION] case of the walk: the formula is evaluated against
    [c], the collection [Filter] was called on. *)
Lemma walk_union finish c i ls rest mem results filters out :
  IsFormula ls = true ->
  prepareE (scopeOf ls) (value ls) = Ok filters ->
  queryE c filters = Ok out ->
  walkE finish c i (plusToken :: ls :: rest) mem results
  = walkE finish c (i + 2) rest (fst (unite (mem, results) out))
      (snd (unite (mem, results) out)).
Proof.
  intros Hf Hp Hq. cbn [walk]. change (IsFormula plusToken) with false.
  cbv iota. rewrite Hf. cbn [negb]. rewrite Hp. cbn [orFail].
  change (index (value plusToken) 0) with (@Ok ascii "+"%char).
  cbn [orFail]. change (byte_eqb "+" _UNION) with true. cbv iota.
  rewrite Hq. reflexivity.
Qed.

Lemma evaluate_union_twice finish c q q' body :
  evaluateE finish c q [squareToken body; plusToken; squareToken body]
  = evaluateE finish c q' [squareToken body].
Proof.
  unfold evaluate. change (IsFormula (squareToken body)) with true. cbv iota.
  destruct (prepareE (scopeOf (squareToken body)) (value (squareToken body)))
    as [filters| |] eqn:Ep; [|done|done].
  cbn [orFail].
  destruct (queryE c filters) as [out| |] eqn:Eq; [|done|done].
  cbn [orFail]. rewrite stage_app. cbn [fst snd app].
  rewrite (walk_union finish c 1 (squareToken body) [] _ _ filters out
             eq_refl Ep Eq).
  rewrite unite_known; [reflexivity|].
  intros r Hr. apply stage_known. by left.
Qed.

(** The union of a formula with itself when every call of [Translate]
    ranges in the order of the list.  For a formula body without
    brackets, the query [[F] + [F]] has the outcome of the query [[F]],
    before the sort and after it: the records [[F]] selects, repeated
    ones included, since the first formula is staged without dedup;
    this is the dedup by canonical key of that result when its keys are
    pairwise distinct.  The [+] branch evaluates its formula against
    the collection [Filter] was called on and appends, in order, the
    first record of each key that is absent from the dedup map. *)
Lemma union_twice_in_order c F :
  noBrackets F = true ->
  FilterUnsortedE c (unionTwice F) = FilterUnsortedE c (single F)
  /\ FilterE c (unionTwice F) = FilterE c (single F)
  /\ (forall pre,
        FilterUnsortedE c (single F) = Returned pre None ->
        NoDup (map RecString pre) ->
        FilterUnsortedE c (unionTwice F) = Returned (dedupByKey pre) None)
  /\ (forall finish i ls rest mem results filters out,
        IsFormula ls = true ->
        prepareE (scopeOf ls) (value ls) = Ok filters ->
        queryE c filters = Ok out ->
        walkE finish c i (plusToken :: ls :: rest) mem results
        = walkE finish c (i + 2) rest (fst (unite (mem, results) out))
            (results
             ++ dedupByKey
                  (filter (fun r => mem !! RecString r = None) out))).
Proof.
  intros HF.
  assert (Hsame : forall finish,
            FilterWithE finish c (unionTwice F)
            = FilterWithE finish c (single F)).
  { intros finish. unfold FilterWith.
    rewrite (compile_unionTwice F HF), (compile_single F HF).
    cbn [orFail]. apply evaluate_union_twice. }
  split; [apply Hsame|]. split; [apply Hsame|]. split.
  - intros pre Hpre Hnd. unfold FilterUnsorted in *.
    rewrite Hsame, Hpre. by rewrite dedupByKey_NoDup.
  - intros finish i ls rest mem results filters out Hf Hp Hq.
    rewrite (walk_union finish c i ls rest mem results filters out Hf Hp Hq).
    by rewrite unite_spec.
Qed.

End EngineFacts.

(** ** Every call of [Translate] in an order of its own *)

Lemma Translate_by lc text : Translate lc text = TranslateBy (Unicode lc) text.
Proof. reflexivity. Qed.

(** A table of no pair or of one pair has one order only. *)
Lemma orderFree_nil : orderFree [].
Proof. intros order H. apply Permutation_nil_r in H. by subst. Qed.

Lemma orderFree_single kv : orderFree [kv].
Proof. intros order H. apply Permutation_singleton_r in H. by subst. Qed.

(** Pairs whose replacements commute can be visited in any order. *)
Lemma orderFree_commute table :
  (forall kv1 kv2 text,
     kv1 ∈ table -> kv2 ∈ table ->
     ReplaceAll (ReplaceAll text (fst kv1) (snd kv1)) (fst kv2) (snd kv2)
     = ReplaceAll (ReplaceAll text (fst kv2) (snd kv2)) (fst kv1) (snd kv1)) ->
  orderFree table.
Proof.
  intros Hc order Hp. symmetry in Hp. unfold TranslateBy.
  induction Hp as [|kv l1 l2 Hp IH|kv1 kv2 l|l1 l2 l3 H12 IH12 H23 IH23];
    intros text.
  - reflexivity.
  - cbn [fold_left]. apply IH. intros a c0 s Ha Hc0.
    apply Hc; by apply list_elem_of_further.
  - cbn [fold_left]. f_equal. apply Hc.
    + apply list_elem_of_further, list_elem_of_here.
    + apply list_elem_of_here.
  - rewrite IH23.
    + apply IH12, Hc.
    + intros a c0 s Ha Hc0. apply Hc; by rewrite H12.
Qed.

Section PerCallFacts.

Variable locale : Locale.
Variable currentYear : Z.
Variable currentMonthIndex : Z.
Variable unicodeToLower : gostring -> gostring.
Variable rangeMem : nat -> gmap gostring Rec -> list Rec.
Variable rangeUnicode : list nat -> list (gostring * gostring).

Local Abbreviation FilterWithAtE :=
  (FilterWithAt locale currentYear currentMonthIndex unicodeToLower rangeMem
     rangeUnicode).
Local Abbreviation FilterAtE :=
  (FilterAt locale currentYear currentMonthIndex unicodeToLower rangeMem
     rangeUnicode).
Local Abbreviation FilterUnsortedAtE :=
  (FilterUnsortedAt locale currentYear currentMonthIndex unicodeToLower
     rangeMem rangeUnicode).
Local Abbreviation walkAtE :=
  (walkAt locale currentYear currentMonthIndex unicodeToLower rangeMem
     rangeUnicode).
Local Abbreviation evaluateAtE :=
  (evaluateAt locale currentYear currentMonthIndex unicodeToLower rangeMem
     rangeUnicode).
Local Abbreviation queryAtE := (queryAt unicodeToLower rangeUnicode).
Local Abbreviation keepAtE := (keepAt unicodeToLower rangeUnicode).
Local Abbreviation CompareAtE := (CompareAt unicodeToLower rangeUnicode).

(** Over a table that any order translates the same, every call
    translates as the list order does. *)
Lemma TranslateBy_order_free call text :
  orderFree (Unicode locale) -> rangesTable locale rangeUnicode ->
  TranslateBy (rangeUnicode call) text = Translate locale text.
Proof. intros Hfree Hrange. apply Hfree, Hrange. Qed.

Section SameTranslation.

Hypothesis same : forall call text,
  TranslateBy (rangeUnicode call) text = Translate locale text.

Lemma doesItMatchAt_same call keyword value :
  doesItMatchAt unicodeToLower rangeUnicode call keyword value
  = doesItMatch locale unicodeToLower keyword value.
Proof. unfold doesItMatchAt, doesItMatch. by rewrite !same. Qed.

Lemma anyMatchAt_same call alternatives value : forall n,
  anyMatchAt unicodeToLower rangeUnicode call n alternatives value
  = anyMatch locale unicodeToLower alternatives value.
Proof.
  induction alternatives as [|v rest IH]; intros n; [done|].
  cbn [anyMatchAt anyMatch]. rewrite doesItMatchAt_same.
  destruct (doesItMatch locale unicodeToLower v value) as [[|]| |];
    cbn [mbind res_bind]; [done|apply IH|done|done].
Qed.

Lemma isMatchingTextAt_same call c value :
  isMatchingTextAt unicodeToLower rangeUnicode call c value
  = isMatchingText locale unicodeToLower c value.
Proof. apply anyMatchAt_same. Qed.

Lemma CompareAt_same call c r :
  CompareAtE call c r = Compare locale unicodeToLower c r.
Proof.
  unfold CompareAt, Compare, IsMatchingSenderAt, IsMatchingReceiverAt,
    IsMatchingLabelAt, IsMatchingSenderOrReceiverAt, IsMatchingSender,
    IsMatchingReceiver, IsMatchingLabel, IsMatchingSenderOrReceiver.
  by rewrite !isMatchingTextAt_same.
Qed.

Lemma keepAt_same call f records : forall k,
  keepAtE call k f records = keep locale unicodeToLower f records.
Proof.
  induction records as [|record rest IH]; intros k; [done|].
  cbn [keepAt keep]. by rewrite CompareAt_same, IH.
Qed.

Lemma queryAt_same call filters : forall j records,
  queryAtE call j records filters = query locale unicodeToLower records filters.
Proof.
  induction filters as [|f rest IH]; intros j records; [done|].
  cbn [queryAt query]. destruct records as [|record records]; [done|].
  rewrite keepAt_same.
  destruct (keep locale unicodeToLower f (record :: records));
    cbn [mbind res_bind]; [apply IH|done|done].
Qed.

Lemma walkAt_same finish c rest : forall i mem results,
  walkAtE finish c i rest mem results
  = walk locale currentYear currentMonthIndex unicodeToLower rangeMem
      finish c i rest mem results.
Proof.
  induction rest as [rest IH] using (induction_ltof1 _ (@length token)).
  unfold ltof in IH. intros i mem results.
  destruct rest as [|op [|ls rest2]]; [done|done|].
  cbn [walkAt walk].
  destruct (IsFormula op); [done|].
  destruct (negb (IsFormula ls)); [done|].
  destruct (prepare _ _ _ _ _ _) as [filters| |]; cbn [orFail]; [|done|done].
  destruct (index (value op) 0) as [o| |]; cbn [orFail]; [|done|done].
  rewrite !queryAt_same.
  destruct (byte_eqb o _UNION).
  - destruct (query _ _ c filters); cbn [orFail]; [|done|done].
    apply IH. cbn [length]. lia.
  - destruct (byte_eqb o _DIFF); [|done].
    destruct (query _ _ results filters); cbn [orFail]; [|done|done].
    apply IH. cbn [length]. lia.
Qed.

Lemma evaluateAt_same finish c q stack :
  evaluateAtE finish c q stack
  = evaluate locale currentYear currentMonthIndex unicodeToLower rangeMem
      finish c q stack.
Proof.
  destruct stack as [|start rest]; [done|]. cbn [evaluateAt evaluate].
  destruct (IsFormula start); [|done].
  destruct (prepare _ _ _ _ _ _) as [filters| |]; cbn [orFail]; [|done|done].
  rewrite queryAt_same.
  destruct (query _ _ c filters); cbn [orFail]; [|done|done].
  apply walkAt_same.
Qed.

Lemma FilterWithAt_same finish c q :
  FilterWithAtE finish c q
  = FilterWith locale currentYear currentMonthIndex unicodeToLower rangeMem
      finish c q.
Proof.
  unfold FilterWithAt, FilterWith.
  destruct (compile (clean q) []); cbn [orFail]; [|done|done].
  apply evaluateAt_same.
Qed.

End SameTranslation.

End PerCallFacts.

(** The engine that translates in the order of the list is the
    program when every range visits the pairs in that order. *)
Lemma FilterWithAt_in_order locale currentYear currentMonthIndex
    unicodeToLower rangeMem finish c q :
  FilterWithAt locale currentYear currentMonthIndex unicodeToLower rangeMem
    (fun _ => Unicode locale) finish c q
  = FilterWith locale currentYear currentMonthIndex unicodeToLower rangeMem
      finish c q.
Proof. by apply FilterWithAt_same. Qed.

Section UnionTwice.

Variable locale : Locale.
Variable currentYear : Z.
Variable currentMonthIndex : Z.
Variable unicodeToLower : gostring -> gostring.
Variable rangeMem : nat -> gmap gostring Rec -> list Rec.
Variable rangeUnicode : list nat -> list (gostring * gostring).

(** C3, as the code has it.  The table of the locale translates every
    text the same in whatever order its pairs are visited, and every
    call of [Translate] ranges over it in an order of its own.  For a
    formula body without brackets, the query [[F] + [F]] then has the
    outcome of the query [[F]], before the sort and after it: the
    records [[F]] selects, repeated ones included, since the first
    formula is staged without dedup; this is the dedup by canonical key
    of that result when its keys are pairwise distinct.  The [+] branch
    evaluates its formula against the collection [Filter] was called on
    and appends, in order, the first record of each key that is absent
    from the dedup map. *)
Theorem union_twice_same c F :
  orderFree (Unicode locale) ->
  rangesTable locale rangeUnicode ->
  noBrackets F = true ->
  FilterUnsortedAt locale currentYear currentMonthIndex unicodeToLower
    rangeMem rangeUnicode c (unionTwice F)
  = FilterUnsortedAt locale currentYear currentMonthIndex unicodeToLower
      rangeMem rangeUnicode c (single F)
  /\ FilterAt locale currentYear currentMonthIndex unicodeToLower rangeMem
       rangeUnicode c (unionTwice F)
     = FilterAt locale currentYear currentMonthIndex unicodeToLower rangeMem
         rangeUnicode c (single F)
  /\ (forall pre,
        FilterUnsortedAt locale currentYear currentMonthIndex unicodeToLower
          rangeMem rangeUnicode c (single F)
        = Returned pre None ->
        NoDup (map RecString pre) ->
        FilterUnsortedAt locale currentYear currentMonthIndex unicodeToLower
          rangeMem rangeUnicode c (unionTwice F)
        = Returned (dedupByKey pre) None)
  /\ (forall finish i ls rest mem results filters out,
        IsFormula ls = true ->
        prepare locale currentYear currentMonthIndex unicodeToLower
          (scopeOf ls) (value ls) = Ok filters ->
        queryAt unicodeToLower rangeUnicode [(i + 1)%nat] 0 c filters
        = Ok out ->
        walkAt locale currentYear currentMonthIndex unicodeToLower rangeMem
          rangeUnicode finish c i (plusToken :: ls :: rest) mem results
        = walkAt locale currentYear currentMonthIndex unicodeToLower
            rangeMem rangeUnicode finish c (i + 2) rest
            (fst (unite (mem, results) out))
            (results
             ++ dedupByKey
                  (filter (fun r => mem !! RecString r = None) out))).
Proof.
  intros Hfree Hrange HF.
  assert (same : forall call text,
            TranslateBy (rangeUnicode call) text = Translate locale text).
  { intros call text. by apply TranslateBy_order_free. }
  destruct (union_twice_in_order locale currentYear currentMonthIndex
              unicodeToLower rangeMem c F HF) as (H1 & H2 & H3 & H4).
  unfold FilterUnsortedAt, FilterAt.
  rewrite !(FilterWithAt_same _ _ _ _ _ _ same).
  split; [exact H1|]. split; [exact H2|]. split; [exact H3|].
  intros finish i ls rest mem results filters out Hf Hp Hq.
  rewrite (queryAt_same _ _ _ same) in Hq.
  rewrite !(walkAt_same _ _ _ _ _ _ same).
  exact (H4 finish i ls rest mem results filters out Hf Hp Hq).
Qed.

End UnionTwice.

(** ** Instances at concrete inputs *)

Lemma Filter_empty_query_witness :
  clean (b "  ") = []
  /\ Filter testLocale 2022 10 keepCase rangeValues [rSucuri; rAlimente] (b "  ")
     = Returned [rSucuri; rAlimente] None.
Proof.
  split; [reflexivity|].
  apply (Filter_empty_query testLocale 2022 10 keepCase rangeValues).
  reflexivity.
Defined.

(** C6 as stated fails: "[]" on a collection that is not in result
    order returns it reordered. *)
Lemma Filter_empty_formula_reorders :
  Filter defaultLocale 2022 10 keepCase rangeValues [rSucuri; rAlimente] (b "[]")
  = Returned [rAlimente; rSucuri] None
  /\ Filter defaultLocale 2022 10 keepCase rangeValues [rSucuri; rAlimente] (b "[]")
     <> Returned [rSucuri; rAlimente] None.
Proof. split; [vm_compute; reflexivity|vm_compute; discriminate]. Qed.

(** C1 as stated fails: the empty query is accepted and its result is
    the input, whatever its order. *)
Lemma Filter_empty_query_unsorted :
  Filter defaultLocale 2022 10 keepCase rangeValues [rSucuri; rAlimente] []
  = Returned [rSucuri; rAlimente] None
  /\ ~ StronglySorted ordered [rSucuri; rAlimente].
Proof.
  split; [reflexivity|].
  intros Hs. apply StronglySorted_inv in Hs as [_ Hs].
  apply Forall_cons in Hs as [Ho _].
  unfold ordered in Ho. vm_compute in Ho.
  destruct Ho as [Ho|[Ho _]]; discriminate.
Qed.

Lemma Filter_sorted_witness :
  clean (b "[a=alex] + [a=catrina]") <> []
  /\ exists pre,
       FilterUnsorted testLocale 2022 10 keepCase rangeValues
         [rSucuri; rAlimente] (b "[a=alex] + [a=catrina]") = Returned pre None
       /\ [rAlimente; rSucuri] = SliceStable pre
       /\ StronglySorted ordered [rAlimente; rSucuri]
       /\ [rAlimente; rSucuri] ≡ₚ pre
       /\ forall d a, filter (sameRank d a) [rAlimente; rSucuri]
                      = filter (sameRank d a) pre.
Proof.
  split; [vm_compute; discriminate|].
  apply (Filter_sorted testLocale 2022 10 keepCase rangeValues).
  - vm_compute; discriminate.
  - vm_compute; reflexivity.
Defined.

(** The keyword made of one double quote is not empty; it passes both
    quote tests on byte 0 and the matcher slices [asciiKeyword[1:0]]. *)
Lemma doesItMatch_lone_quote U value :
  doesItMatch defaultLocale U [dquote] value = Panic SliceBoundsOutOfRange.
Proof. reflexivity. Qed.

Lemma compile_lone_quote :
  compile (clean loneQuoteQuery) [] = Ok [mkToken (b "a=" ++ [dquote]) 3 1].
Proof. vm_compute. reflexivity. Qed.

Lemma prepare_lone_quote Y M U :
  prepare defaultLocale Y M U (mkScope true true) (b "a=" ++ [dquote])
  = Ok [mkComparator "a" "=" [dquote] 0 0 (mkScope true true)].
Proof. vm_compute. reflexivity. Qed.

(** C9, at a failing input: under the default locale the query whose
    formula body is [a=] followed by one double quote has one non-empty
    alternative, and evaluating it on any non-empty collection panics on
    a slice out of bounds. *)
Theorem Filter_lone_quote_panics Y M U R r c :
  Filter defaultLocale Y M U R (r :: c) loneQuoteQuery
  = Panicked SliceBoundsOutOfRange.
Proof.
  unfold Filter, FilterWith. rewrite compile_lone_quote.
  unfold orFail at 1. unfold evaluate. simpl IsFormula. cbv iota.
  change (scopeOf _) with (mkScope true true). simpl value.
  rewrite prepare_lone_quote. reflexivity.
Qed.

(** With the locale of the tests, which folds a two-byte letter to one
    byte, a properly quoted keyword is read past its folded end. *)
Lemma Filter_quoted_folded_panics :
  Filter testLocale 2022 10 keepCase rangeValues [rSucuri] quotedLabelQuery
  = Panicked IndexOutOfRange.
Proof. vm_compute. reflexivity. Qed.

(** The second half of C9: an empty alternative is reached for a record
    the first alternative does not match, and byte 0 of the empty
    keyword is read. *)
Lemma Filter_empty_alternative_panics :
  Filter defaultLocale 2022 10 keepCase rangeValues [rAlimente] (b "[a=alex,]")
  = Panicked IndexOutOfRange.
Proof. vm_compute. reflexivity. Qed.



(** C8 as stated fails: the year 1900 is outside (1922, 2022], yet the
    condition selects the record dated 1970-01-01. *)
Lemma year_out_of_range_selects_epoch :
  ~ (_MIN_YEAR < 1900 <= 2022)
  /\ Filter defaultLocale 2022 10 keepCase rangeValues [rSucuri; rEpoch]
       (b "[d=1900]")
     = Returned [rEpoch] None.
Proof. split; [unfold _MIN_YEAR; lia|vm_compute; reflexivity]. Qed.

Lemma date_bare_year_witness :
  exists comp,
    fillComparator testLocale 2022 10 keepCase (mkScope true true) (b "d=") (b "2019")
    = Ok comp
    /\ forall r,
         Compare testLocale keepCase comp r
         = Ok (if (_MIN_YEAR <? 2019) && (2019 <=? 2022)
               then (unixDate 2019 1 1 <=? Date r)
                    && (Date r <=? unixDate 2019 12 31)
               else Date r =? 0).
Proof.
  apply (date_bare_year testLocale 2022 10 keepCase (mkScope true true)
           (b "2019") 2019); vm_compute; reflexivity.
Defined.

(** C4 as stated fails: the value [-0] has no comma and reads as the
    integer 0, yet the comparator accepts amount 0 only; a record of
    absolute amount 50, inside [[0*100, 0*100+99]], is turned down. *)
Lemma minus_zero_amount_exact :
  exists comp,
    fillComparator defaultLocale 2022 10 keepCase (mkScope true true)
      (b "s=") (b "-0") = Ok comp
    /\ contains (b "-0") (b ",") = false
    /\ ParseInt (b "-0") 64 = Some 0
    /\ Compare defaultLocale keepCase comp rCafea = Ok false
    /\ 0 * 100 <= Z.abs (Amount rCafea) <= 0 * 100 + 99
    /\ Filter defaultLocale 2022 10 keepCase rangeValues [rCafea] (b "[s=-0]")
       = Returned [] None.
Proof.
  eexists. split; [vm_compute; reflexivity|].
  repeat split; try (vm_compute; reflexivity); vm_compute; discriminate.
Qed.

Lemma amount_condition_witness :
  fillComparator testLocale 2022 10 keepCase (mkScope true true) (b "s=") (b "1000")
  = Ok (mkComparator "s" "=" (b "1000") 100000 99 (mkScope true true))
  /\ (forall r, isInt64 (Amount r) ->
        Compare testLocale keepCase
          (mkComparator "s" "=" (b "1000") 100000 99 (mkScope true true)) r
        = Ok ((1000 * 100 <=? Z.abs (Amount r))
              && (Z.abs (Amount r) <=? 1000 * 100 + 99)))
  /\ (forall r,
        Compare testLocale keepCase
          (mkComparator "s" "=" (b "40,22") 4022 0 (mkScope false false)) r
        = Ok (absAmount r =? 4022)).
Proof.
  split; [reflexivity|]. split.
  - intros r Hr.
    destruct (amount_condition testLocale 2022 10 keepCase (mkScope true true)
                (b "1000") _ eq_refl) as [H1 _].
    apply H1; [reflexivity|reflexivity|left; reflexivity|exact Hr].
  - intros r.
    destruct (amount_condition testLocale 2022 10 keepCase (mkScope false false)
                (b "40,22") _ eq_refl) as (_ & _ & H3).
    apply H3; reflexivity.
Defined.

(** C2 as stated fails: three sub-amounts whose exact sum is 2^64 wrap
    to the row total 0, and the row is ingested although the emitted
    sub-amounts do not add up to the total. *)
Lemma compound_row_overflow_accepted :
  exists out,
    ingestRow rowOverflow = Ok out
    /\ mustParseAmount rowOverflow 4 = Ok 0
    /\ amounts out = [9223372036854775807; 9223372036854775807; 2]
    /\ sumZ (amounts out) <> 0.
Proof.
  eexists. split; [vm_compute; reflexivity|].
  split; [vm_compute; reflexivity|].
  split; [vm_compute; reflexivity|]. vm_compute. discriminate.
Qed.

Lemma compound_row_adds_up_witness :
  ingestRow rowCasa = Ok casaRecords
  /\ amounts casaRecords = [-1158; -1615]
  /\ sumZ (amounts casaRecords) = -2773.
Proof.
  destruct (compound_row_adds_up rowCasa (b "Alexandru") (b "(magazin)")
              (b "11.58 Casă și curățenie + 16.15 Alimente") (-2773)
              [(1158, b "Casă și curățenie"); (1615, b "Alimente")])
    as [Hdate _].
  - reflexivity.
  - reflexivity.
  - reflexivity.
  - reflexivity.
  - vm_compute. reflexivity.
  - repeat constructor.
  - destruct (Hdate (unixDate 2019 12 5)) as (_ & _ & Hexact).
    { vm_compute. reflexivity. }
    split; [|split; reflexivity].
    apply Hexact; [split; apply Z.leb_le; vm_compute; reflexivity|reflexivity].
Defined.

(** A row whose sub-amounts add up to its total is refused all the
    same when its date does not parse. *)
Lemma compound_row_bad_date :
  mustParseAmount rowBadDate 4 = Ok 3
  /\ Forall2 parsedItem (Split (b "1 x+2 y") OPT_SEPARATOR)
       [(1, b "x"); (2, b "y")]
  /\ ingestRow rowBadDate
     = Panic (Thrown (BadDate (b "2019-13-45")) rowBadDate).
Proof.
  split; [vm_compute; reflexivity|]. split; [|vm_compute; reflexivity].
  repeat constructor.
Qed.

(** C3 as stated fails: on a collection that holds the same record
    twice, [[] + []] yields both copies, as [[]] does, and not the dedup
    of that result. *)
Lemma union_twice_keeps_duplicates :
  FilterUnsorted defaultLocale 2022 10 keepCase rangeValues
    [rSucuri; rSucuri] (unionTwice [])
  = Returned [rSucuri; rSucuri] None
  /\ FilterUnsorted defaultLocale 2022 10 keepCase rangeValues
       [rSucuri; rSucuri] (single [])
     = Returned [rSucuri; rSucuri] None
  /\ dedupByKey [rSucuri; rSucuri] = [rSucuri]
  /\ Filter defaultLocale 2022 10 keepCase rangeValues
       [rSucuri; rSucuri] (b "[] + []")
     = Returned [rSucuri; rSucuri] None.
Proof. repeat split; vm_compute; reflexivity. Qed.

Lemma union_twice_same_witness :
  FilterAt testLocale 2022 10 keepCase rangeValues
    (fun _ => Unicode testLocale) [rSucuri; rAlimente]
    (unionTwice (b "a=alex"))
  = FilterAt testLocale 2022 10 keepCase rangeValues
      (fun _ => Unicode testLocale) [rSucuri; rAlimente]
      (single (b "a=alex")).
Proof.
  exact (proj1 (proj2 (union_twice_same testLocale 2022 10 keepCase
                         rangeValues (fun _ => Unicode testLocale)
                         [rSucuri; rAlimente] (b "a=alex")
                         (orderFree_single _)
                         (fun _ => reflexivity _) eq_refl))).
Defined.

(** Where the order matters the union of a formula with itself can
    select more than the formula: with two pairs that undo each other,
    the sender [a] does not match the keyword [b] while its value is
    translated in the reverse order, and matches it in the second
    evaluation. *)
Lemma union_twice_order_dependent :
  rangesTable swapLocale (swapOrders 0)
  /\ FilterAt swapLocale 2022 10 keepCase rangeValues (swapOrders 0)
       [rSentByA] (single (b "a=b"))
     = Returned [] None
  /\ FilterAt swapLocale 2022 10 keepCase rangeValues (swapOrders 0)
       [rSentByA] (unionTwice (b "a=b"))
     = Returned [rSentByA] None.
Proof.
  split; [|split; vm_compute; reflexivity].
  intros call. unfold swapOrders.
  destruct call as [|w [|? [|? [|? [|? [|i' [|? ?]]]]]]]; try reflexivity.
  destruct ((w =? 1)%nat && (i' =? 0)%nat); [|reflexivity].
  apply Permutation_swap.
Qed.

(** The comma branch parses the value before trimming it (line 738
    reads [value], not [comp.bytesValue]): a blank before the delimiter
    is an error there, and is trimmed away when there is no comma. *)
Lemma comma_amount_trailing_blank_rejected :
  Filter defaultLocale 2022 10 keepCase rangeValues [rSucuri]
    (b "[s=15,00 ; z<0]")
  = Returned [] (Some (ErrNotAnAmount (b "1500 ")))
  /\ Filter defaultLocale 2022 10 keepCase rangeValues [rSucuri]
       (b "[s=15 ; z<0]")
     = Returned [rSucuri] None.
Proof. split; vm_compute; reflexivity. Qed.

(** * Further properties *)

(** ** Rows and the records they give *)

(** *** [New] row by row *)

Lemma New_go_acc rows : forall acc,
  New_go rows acc = (c ← New rows; Ok (acc ++ c)).
Proof.
  unfold New. induction rows as [|row rest IH]; intros acc; cbn [New_go].
  - cbn. by rewrite app_nil_r.
  - destruct (ingestRow row) as [rs| |]; cbn [mbind res_bind]; [|done|done].
    rewrite (IH (acc ++ rs)), (IH ([] ++ rs)).
    destruct (New_go rest []) as [c| |]; cbn [mbind res_bind]; [|done|done].
    by rewrite app_assoc.
Qed.

Lemma New_cons row rest :
  New (row :: rest) = (rs ← ingestRow row; c ← New rest; Ok (rs ++ c)).
Proof.
  unfold New at 1. cbn [New_go].
  destruct (ingestRow row) as [rs| |]; cbn [mbind res_bind]; [|done|done].
  by rewrite New_go_acc.
Qed.

(** X1: Reading is row by row: the collection of two batches of rows is the
    collection of the first followed by the collection of the second,
    and a panic in either is the panic of the whole. *)
Theorem New_app rows1 rows2 :
  New (rows1 ++ rows2) = (c1 ← New rows1; c2 ← New rows2; Ok (c1 ++ c2)).
Proof.
  induction rows1 as [|row rest IH].
  - change (New []) with (@Ok Collection []). cbn [mbind res_bind app].
    by destruct (New rows2).
  - cbn [app]. rewrite !New_cons.
    destruct (ingestRow row) as [rs| |]; cbn [mbind res_bind]; [|done|done].
    rewrite IH.
    destruct (New rest) as [c1| |]; cbn [mbind res_bind]; [|done|done].
    destruct (New rows2) as [c2| |]; cbn [mbind res_bind]; [|done|done].
    by rewrite app_assoc.
Qed.

(** *** How many records a row gives *)

Lemma index_Ok {A} (l : list A) i x :
  index l i = Ok x <-> 0 <= i /\ l !! Z.to_nat i = Some x.
Proof.
  unfold index. destruct (Z.ltb_spec i 0).
  - split; [done|lia].
  - destruct (l !! Z.to_nat i); split; try done.
    + intros [= ->]. done.
    + by intros [_ [= ->]].
    + by intros [_ ?].
Qed.

Lemma hasPrefix_nil s : hasPrefix s [] = true.
Proof. by destruct s. Qed.

Lemma contains_single s c :
  contains s [c] = false -> countByte s c = 0.
Proof.
  induction s as [|x s IH]; [done|].
  cbn [contains hasPrefix countByte]. rewrite hasPrefix_nil, andb_true_r.
  intros [Hx Hs]%orb_false_iff. rewrite Hx. cbn. exact (IH Hs).
Qed.

Lemma countByte_nonneg s c : 0 <= countByte s c.
Proof. induction s as [|x s IH]; cbn [countByte]; [done|]. destruct (byte_eqb x c); lia. Qed.

Lemma Split_length s sep :
  Z.of_nat (length (Split s sep)) = countByte s sep + 1.
Proof.
  induction s as [|x s IH]; [done|].
  cbn [Split countByte]. destruct (byte_eqb x sep).
  - cbn [length]. lia.
  - pose proof (countByte_nonneg s sep).
    destruct (Split s sep) as [|h t] eqn:E; cbn [length] in *; lia.
Qed.

Lemma subRecords_length row k items : forall acc out acc' out',
  subRecords row k items acc out = Ok (acc', out') ->
  length out' = (length out + length items)%nat.
Proof.
  induction items as [|each rest IH]; intros acc out acc' out' H;
    cbn [subRecords] in H.
  - injection H as _ <-. cbn. lia.
  - destruct (subRecord row k each) as [r| |]; cbn [mbind res_bind] in H;
      try discriminate.
    apply IH in H. rewrite H, length_app. cbn. lia.
Qed.

(** X2: A row gives one record more than its label has separators: one
    record for a plain label, one per item for a compound one. *)
Theorem ingestRow_count row label out :
  row !! 2%nat = Some label ->
  ingestRow row = Ok out ->
  Z.of_nat (length out) = 1 + countByte label OPT_SEPARATOR.
Proof.
  intros Hl H. unfold ingestRow in H.
  assert (Hi : index row 2 = Ok label) by (by apply index_Ok).
  rewrite Hi in H. cbn [mbind res_bind] in H.
  destruct (contains label [OPT_SEPARATOR]) eqn:Ec.
  - destruct (mustParseAmount row 4) as [sum| |]; cbn [mbind res_bind] in H;
      try discriminate.
    destruct (subRecords row _ _ 0 []) as [[acc out']| |] eqn:Es;
      cbn [mbind res_bind] in H; try discriminate.
    destruct (negb _); try discriminate. injection H as <-.
    apply subRecords_length in Es. rewrite Es. cbn [length].
    pose proof (Split_length label OPT_SEPARATOR). lia.
  - rewrite (contains_single _ _ Ec).
    destruct (index row 0) as [s| |]; cbn [mbind res_bind] in H;
      try discriminate.
    destruct (index row 1) as [r| |]; cbn [mbind res_bind] in H;
      try discriminate.
    destruct (mustParseDate row 3) as [d| |]; cbn [mbind res_bind] in H;
      try discriminate.
    destruct (mustParseAmount row 4) as [a| |]; cbn [mbind res_bind] in H;
      try discriminate.
    by injection H as <-.
Qed.

(** *** Where a record comes from *)

Lemma mustParseDate_midnight row i d :
  mustParseDate row i = Ok d -> d mod 86400 = 0.
Proof.
  unfold mustParseDate.
  destruct (index row i) as [cell| |]; cbn [mbind res_bind]; try done.
  destruct (parseDate (clean cell)) as [t|] eqn:E; [|done].
  intros [= <-]. unfold parseDate in E.
  repeat match type of E with
         | match ?l with [] => _ | _ :: _ => _ end = _ => destruct l; try done
         | (if ?c then _ else _) = _ => destruct c; try done
         | match ?o with Some _ => _ | None => _ end = _ => destruct o; try done
         end.
  injection E as <-. unfold unixDate.
  rewrite Z.mul_comm. apply Z_mod_mult.
Qed.

Lemma index_lookup {A} (l : list A) i x :
  index l i = Ok x -> l !! Z.to_nat i = Some x.
Proof. by intros [_ H]%index_Ok. Qed.

Lemma index_length {A} (l : list A) i x :
  index l i = Ok x -> (Z.to_nat i < length l)%nat.
Proof. intros [_ H]%index_Ok. by eapply lookup_lt_Some. Qed.

Lemma subRecord_made row k each r :
  subRecord row k each = Ok r -> madeFrom row r /\ isInt64 (Amount r).
Proof.
  unfold subRecord.
  destruct (mustParseAmount _ 0) as [a| |]; cbn [mbind res_bind]; try done.
  destruct (index row 0) as [s| |] eqn:E0; cbn [mbind res_bind]; try done.
  destruct (index row 1) as [rc| |] eqn:E1; cbn [mbind res_bind]; try done.
  destruct (index (SplitN2 (clean each) " ") 1) as [l| |];
    cbn [mbind res_bind]; try done.
  destruct (mustParseDate row 3) as [d| |] eqn:Ed; cbn [mbind res_bind];
    try done.
  intros [= <-]. apply index_lookup in E0, E1.
  split; [|apply wrap64_range].
  repeat split; cbn [Sender Receiver Date]; eauto.
Qed.

Lemma subRecords_made row k items : forall acc out acc' out',
  subRecords row k items acc out = Ok (acc', out') ->
  Forall (fun r => madeFrom row r /\ isInt64 (Amount r)) out ->
  Forall (fun r => madeFrom row r /\ isInt64 (Amount r)) out'.
Proof.
  induction items as [|each rest IH]; intros acc out acc' out' H Hout;
    cbn [subRecords] in H.
  - by injection H as _ <-.
  - destruct (subRecord row k each) as [r| |] eqn:Er;
      cbn [mbind res_bind] in H; try discriminate.
    apply (IH _ _ _ _ H). apply Forall_app. split; [done|].
    constructor; [|constructor]. by eapply subRecord_made.
Qed.

Lemma ingestRow_made row out :
  ingestRow row = Ok out ->
  Forall (fun r => madeFrom row r /\ isInt64 (Amount r)) out.
Proof.
  unfold ingestRow.
  destruct (index row 2) as [label| |]; cbn [mbind res_bind]; try done.
  destruct (contains label [OPT_SEPARATOR]).
  - destruct (mustParseAmount row 4) as [sum| |]; cbn [mbind res_bind];
      try done.
    destruct (subRecords row _ _ 0 []) as [[acc out']| |] eqn:Es;
      cbn [mbind res_bind]; try done.
    destruct (negb _); try done. intros [= <-].
    eapply subRecords_made; [exact Es|constructor].
  - destruct (index row 0) as [s| |] eqn:E0; cbn [mbind res_bind]; try done.
    destruct (index row 1) as [r| |] eqn:E1; cbn [mbind res_bind]; try done.
    destruct (mustParseDate row 3) as [d| |] eqn:Ed; cbn [mbind res_bind];
      try done.
    destruct (mustParseAmount row 4) as [a| |] eqn:Ea; cbn [mbind res_bind];
      try done.
    intros [= <-]. apply index_lookup in E0, E1.
    constructor; [|constructor]. split.
    + repeat split; cbn [Sender Receiver Date]; eauto.
    + by eapply mustParseAmount_int64.
Qed.

(** X3: Every record of a collection that [New] returns was made from one
    of the rows: sender and receiver are its first two cells cleaned,
    the date is its fourth cell parsed, at 00:00:00 UTC, that is a
    multiple of 86400 seconds, and the amount is an [int64]. *)
Theorem New_records rows : forall c,
  New rows = Ok c ->
  forall r, r ∈ c ->
    exists row, row ∈ rows /\ madeFrom row r
                /\ Date r mod 86400 = 0 /\ isInt64 (Amount r).
Proof.
  induction rows as [|row rest IH]; intros c H r Hr.
  - injection H as <-. by apply elem_of_nil in Hr.
  - rewrite New_cons in H.
    destruct (ingestRow row) as [rs| |] eqn:Ei; cbn [mbind res_bind] in H;
      try discriminate.
    destruct (New rest) as [c'| |]; cbn [mbind res_bind] in H;
      try discriminate.
    injection H as <-. apply elem_of_app in Hr as [Hr|Hr].
    + pose proof (ingestRow_made _ _ Ei) as Hm.
      rewrite Forall_forall in Hm. destruct (Hm r Hr) as [Hmade Hint].
      exists row. split; [apply list_elem_of_here|].
      split; [done|]. split; [|done].
      destruct Hmade as (_ & _ & Hd). by eapply mustParseDate_midnight.
    + destruct (IH c' eq_refl r Hr) as (row' & Hin & Hrest).
      exists row'. split; [by apply list_elem_of_further|done].
Qed.

(** *** Rows that cannot be read *)

Lemma ingestRow_readable row out : ingestRow row = Ok out -> readable row.
Proof.
  unfold ingestRow, readable.
  destruct (index row 2) as [label| |]; cbn [mbind res_bind]; try done.
  destruct (contains label [OPT_SEPARATOR]).
  - destruct (mustParseAmount row 4) as [sum| |] eqn:Ea;
      cbn [mbind res_bind]; try done.
    destruct (Split label OPT_SEPARATOR) as [|each items] eqn:Es.
    { by apply Split_nonempty in Es. }
    cbn [subRecords].
    destruct (subRecord row _ each) as [r| |] eqn:Er; cbn [mbind res_bind];
      try done.
    intros _. apply subRecord_made in Er as [(_ & _ & Hd) _].
    split; [|eauto].
    unfold mustParseAmount in Ea.
    destruct (index row 4) as [cell| |] eqn:E4; try done.
    apply index_length in E4. change (Z.to_nat 4) with 4%nat in E4. lia.
  - destruct (index row 0) as [s| |]; cbn [mbind res_bind]; try done.
    destruct (index row 1) as [r| |]; cbn [mbind res_bind]; try done.
    destruct (mustParseDate row 3) as [d| |] eqn:Ed; cbn [mbind res_bind];
      try done.
    destruct (mustParseAmount row 4) as [a| |] eqn:Ea; cbn [mbind res_bind];
      try done.
    intros _. split; [|eauto].
    unfold mustParseAmount in Ea.
    destruct (index row 4) as [cell| |] eqn:E4; try done.
    apply index_length in E4. change (Z.to_nat 4) with 4%nat in E4. lia.
Qed.

Lemma index_not_Err {A} (l : list A) i e : index l i <> Err e.
Proof. unfold index. destruct (i <? 0); [done|]. by destruct (l !! _). Qed.

Lemma mustParseDate_not_Err row i e : mustParseDate row i <> Err e.
Proof.
  unfold mustParseDate. destruct (index row i) eqn:E; cbn [mbind res_bind].
  - by destruct (parseDate _).
  - by apply index_not_Err in E.
  - done.
Qed.

Lemma mustParseAmount_not_Err row i e : mustParseAmount row i <> Err e.
Proof.
  unfold mustParseAmount. destruct (index row i) eqn:E; cbn [mbind res_bind].
  - by destruct (ParseInt _ _).
  - by apply index_not_Err in E.
  - done.
Qed.

Lemma subRecord_not_Err row k each e : subRecord row k each <> Err e.
Proof.
  unfold subRecord.
  destruct (mustParseAmount _ 0) eqn:E1; cbn [mbind res_bind];
    [|by apply mustParseAmount_not_Err in E1|done].
  destruct (index row 0) eqn:E2; cbn [mbind res_bind];
    [|by apply index_not_Err in E2|done].
  destruct (index row 1) eqn:E3; cbn [mbind res_bind];
    [|by apply index_not_Err in E3|done].
  destruct (index (SplitN2 (clean each) " ") 1) eqn:E4; cbn [mbind res_bind];
    [|by apply index_not_Err in E4|done].
  destruct (mustParseDate row 3) eqn:E5; cbn [mbind res_bind];
    [done|by apply mustParseDate_not_Err in E5|done].
Qed.

Lemma subRecords_not_Err row k items e : forall acc out,
  subRecords row k items acc out <> Err e.
Proof.
  induction items as [|each rest IH]; intros acc out; cbn [subRecords]; [done|].
  destruct (subRecord row k each) eqn:E; cbn [mbind res_bind];
    [apply IH|by apply subRecord_not_Err in E|done].
Qed.

Lemma ingestRow_not_Err row e : ingestRow row <> Err e.
Proof.
  unfold ingestRow.
  destruct (index row 2) eqn:E2; cbn [mbind res_bind];
    [|by apply index_not_Err in E2|done].
  destruct (contains _ _).
  - destruct (mustParseAmount row 4) eqn:E4; cbn [mbind res_bind];
      [|by apply mustParseAmount_not_Err in E4|done].
    destruct (subRecords row _ _ 0 []) as [[acc out]| |] eqn:Es;
      cbn [mbind res_bind]; [|by apply subRecords_not_Err in Es|done].
    by destruct (negb _).
  - destruct (index row 0) eqn:E0; cbn [mbind res_bind];
      [|by apply index_not_Err in E0|done].
    destruct (index row 1) eqn:E1; cbn [mbind res_bind];
      [|by apply index_not_Err in E1|done].
    destruct (mustParseDate row 3) eqn:E3; cbn [mbind res_bind];
      [|by apply mustParseDate_not_Err in E3|done].
    destruct (mustParseAmount row 4) eqn:E4; cbn [mbind res_bind];
      [done|by apply mustParseAmount_not_Err in E4|done].
Qed.

(** X4: A row that cannot be read stops [New] with a panic, wherever it
    stands among the rows: a row of fewer than five cells, or one whose
    fourth cell is no date or whose fifth is no amount. *)
Theorem New_unreadable_row rows row :
  row ∈ rows -> ~ readable row -> exists p, New rows = Panic p.
Proof.
  intros Hin Hbad. induction rows as [|x rest IH].
  - by apply elem_of_nil in Hin.
  - rewrite New_cons.
    destruct (ingestRow x) as [rs|e|p] eqn:Ei; cbn [mbind res_bind].
    + apply elem_of_cons in Hin as [->|Hin].
      { exfalso. apply Hbad. by eapply ingestRow_readable. }
      destruct (IH Hin) as [p ->]. cbn [mbind res_bind]. eauto.
    + by apply ingestRow_not_Err in Ei.
    + eauto.
Qed.

(** *** The canonical key *)

Lemma app_delim_inj (d : ascii) s1 : forall s2 t1 t2,
  d ∉ s1 -> d ∉ s2 -> s1 ++ d :: t1 = s2 ++ d :: t2 -> s1 = s2 /\ t1 = t2.
Proof.
  induction s1 as [|x s1 IH]; intros [|y s2] t1 t2 H1 H2 H; cbn in H.
  - by injection H as ->.
  - injection H as <- _. exfalso. apply H2, list_elem_of_here.
  - injection H as -> _. exfalso. apply H1, list_elem_of_here.
  - injection H as -> H.
    apply not_elem_of_cons in H1 as [_ H1], H2 as [_ H2].
    destruct (IH _ _ _ H1 H2 H) as [-> ->]. done.
Qed.

Lemma b_inj s t : b s = b t -> s = t.
Proof.
  unfold b. intros H.
  rewrite <- (string_of_list_ascii_of_string s),
    <- (string_of_list_ascii_of_string t). by rewrite H.
Qed.

Lemma to_int_proper z : Z.to_int z <> Decimal.Pos Decimal.Nil
                        /\ Z.to_int z <> Decimal.Neg Decimal.Nil.
Proof.
  destruct z as [|p|p]; cbn; split; try done; intros [= H];
    by apply Unsigned.to_uint_nonnil in H.
Qed.

Lemma fmtInt_inj x y : fmtInt x = fmtInt y -> x = y.
Proof.
  unfold fmtInt. intros H%b_inj.
  apply DecimalZ.to_int_inj.
  destruct (to_int_proper x) as [Hx1 Hx2], (to_int_proper y) as [Hy1 Hy2].
  pose proof (NilZero.isi _ Hx1 Hx2) as Ex.
  pose proof (NilZero.isi _ Hy1 Hy2) as Ey.
  rewrite H in Ex. rewrite Ex in Ey. by injection Ey.
Qed.

Lemma string_of_uint_digits d c :
  c ∈ b (NilEmpty.string_of_uint d) -> isDigit c = true.
Proof.
  unfold b. induction d; cbn [NilEmpty.string_of_uint list_ascii_of_string];
    intros H; try (by apply elem_of_nil in H);
    apply elem_of_cons in H as [->|H]; auto.
Qed.

Lemma fmtInt_bytes z c : c ∈ fmtInt z -> c = "-"%char \/ isDigit c = true.
Proof.
  unfold fmtInt.
  assert (Hu : forall d, c ∈ b (NilZero.string_of_uint d) -> isDigit c = true).
  { intros d. destruct d; try apply string_of_uint_digits.
    cbn. intros H. apply list_elem_of_singleton in H. by subst. }
  destruct (Z.to_int z) as [d|d]; cbn [NilZero.string_of_int].
  - intros H. right. by eapply Hu.
  - unfold b. cbn [list_ascii_of_string]. intros [->|H]%elem_of_cons.
    + by left.
    + right. by eapply Hu.
Qed.

Lemma fmtInt_no_comma z : ","%char ∉ fmtInt z.
Proof. intros [H|H]%fmtInt_bytes; done. Qed.

Lemma RecString_faithful r1 r2 :
  quoteFree r1 -> quoteFree r2 -> RecString r1 = RecString r2 -> r1 = r2.
Proof.
  intros (Hs1 & Hr1 & Hl1) (Hs2 & Hr2 & Hl2) H.
  destruct r1 as [S1 R1 L1 D1 A1], r2 as [S2 R2 L2 D2 A2].
  unfold RecString in H.
  cbn [Sender Receiver Label Date Amount] in *.
  cbn [b list_ascii_of_string app] in H.
  injection H as H. 
  rewrite <- ?app_assoc in H. cbn [app] in H.
  apply app_delim_inj in H as [-> H]; [|done|done].
  injection H as H.
  apply app_delim_inj in H as [-> H]; [|done|done].
  injection H as H.
  apply app_delim_inj in H as [-> H]; [|done|done].
  injection H as H.
  apply app_delim_inj in H as [HD H]; [|apply fmtInt_no_comma..].
  apply app_inv_tail in H.
  apply fmtInt_inj in HD, H. by subst.
Qed.

(** X5: The canonical key tells apart any two records without a double
    quote in their sender, receiver and label: equal keys, equal
    records. *)
Theorem RecString_inj r1 r2 :
  quoteFree r1 -> quoteFree r2 -> RecString r1 = RecString r2 -> r1 = r2.
Proof. apply RecString_faithful. Qed.

(** ** The shape of a compiled stack *)

(** *** No panic *)

Lemma compile_go_no_panic fuel : forall str stack p,
  compile_go fuel str stack <> Panic p.
Proof.
  induction fuel as [|fuel IH]; intros str stack p.
  { by destruct str. }
  destruct str as [|c str]; [done|].
  rewrite compile_go_S. cbv zeta.
  destruct (_ && _); [done|].
  destruct (byte_eqb c _OP_SQ || byte_eqb c _OP_RD) eqn:Eb.
  - assert (Hc : byte_eqb c _CL_SQ = false /\ byte_eqb c _CL_RD = false).
    { apply orb_true_iff in Eb as [->%byte_eqb_eq| ->%byte_eqb_eq]; done. }
    destruct Hc as [Hsq Hrd].
    destruct (firstOf_pos c str _CL_SQ _CL_RD Hsq Hrd) as [Hcl|Hcl].
    { by rewrite Hcl. }
    pose proof (firstOf_lt (c :: str) _CL_SQ _CL_RD ltac:(done)) as Hlt.
    destruct (Z.eqb_spec (firstOf (c :: str) _CL_SQ _CL_RD) (-1)); [done|].
    unfold index at 1.
    destruct (Z.ltb_spec (firstOf (c :: str) _CL_SQ _CL_RD) 0); [lia|].
    destruct ((c :: str) !! Z.to_nat _) as [closing|] eqn:El.
    2:{ apply lookup_ge_None in El. lia. }
    cbn [mbind res_bind]. unfold slice.
    assert (Hs : (0 <=? 1) && (1 <=? firstOf (c :: str) _CL_SQ _CL_RD)
                 && (firstOf (c :: str) _CL_SQ _CL_RD
                     <=? Z.of_nat (length (c :: str))) = true).
    { rewrite !andb_true_iff, !Z.leb_le. lia. }
    rewrite Hs. cbn [mbind res_bind].
    destruct (0 <? length _)%nat; [apply IH|done].
  - destruct (_ =? -1).
    + by destruct (_ && _).
    + destruct (negb _); [done|].
      destruct (0 <? length _)%nat; [apply IH|done].
Qed.

(** X6: [compile] never panics: whatever the text and the stack, it
    returns a stack or an error.  Each of its five accesses, the index
    [str[cl]] and the slices [str[1:cl]], [str[cl+1:]], [str[:op]] and
    [str[op:]], carries its bounds check in [compile_go] and is shown
    to pass it. *)
Theorem compile_no_panic str stack :
  (exists st, compile str stack = Ok st)
  \/ (exists e, compile str stack = Err e).
Proof.
  destruct (compile str stack) as [st|e|p] eqn:E; [eauto|eauto|].
  by apply compile_go_no_panic in E.
Qed.

(** *** The bracket count *)

Lemma slice_not_Err s lo hi e : slice s lo hi <> Err e.
Proof. unfold slice. by destruct (_ && _). Qed.

Lemma compile_go_count_later fuel : forall str stack,
  stack <> [] -> compile_go fuel str stack <> Err ErrParenCount.
Proof.
  induction fuel as [|fuel IH]; intros str stack Hst.
  { by destruct str. }
  destruct str as [|c str]; [done|].
  rewrite compile_go_S. cbv zeta.
  assert (Hlen : (length stack =? 0)%nat = false) by (by destruct stack).
  rewrite Hlen. cbn [andb].
  assert (Hne : forall t, stack ++ [t] <> []) by (intros t; by destruct stack).
  destruct (byte_eqb c _OP_SQ || byte_eqb c _OP_RD).
  - destruct (_ =? -1); [done|].
    destruct (index _ _) eqn:Ei; cbn [mbind res_bind];
      [|by apply index_not_Err in Ei|done].
    destruct (slice _ _ _) eqn:Es; cbn [mbind res_bind];
      [|by apply slice_not_Err in Es|done].
    destruct (0 <? length _)%nat; [by apply IH|done].
  - destruct (_ =? -1).
    + by destruct (_ && _).
    + destruct (negb _); [done|].
      destruct (0 <? length _)%nat; [by apply IH|done].
Qed.

(** The bracket count is checked once, on the whole text: [compile]
    reports mismatched parentheses exactly when the text is not empty
    and its opening and closing brackets, square and round together,
    differ in number. *)
Lemma compile_paren_count str :
  compile str [] = Err ErrParenCount
  <-> str <> [] /\ openCount str <> closeCount str.
Proof.
  destruct str as [|c str].
  { split; [done|by intros [? _]]. }
  unfold compile, openCount, closeCount. cbn [length].
  rewrite compile_go_S. cbv zeta. cbn [length Nat.eqb andb].
  destruct (Z.eqb_spec (countByte (c :: str) _OP_RD + countByte (c :: str) _OP_SQ)
              (countByte (c :: str) _CL_RD + countByte (c :: str) _CL_SQ))
    as [e|n]; cbn [negb].
  - split; [|by intros [_ ?]]. intros H. exfalso. revert H.
    destruct (byte_eqb c _OP_SQ || byte_eqb c _OP_RD).
    + destruct (_ =? -1); [done|].
      destruct (index _ _) eqn:Ei; cbn [mbind res_bind];
        [|by apply index_not_Err in Ei|done].
      destruct (slice _ _ _) eqn:Es; cbn [mbind res_bind];
        [|by apply slice_not_Err in Es|done].
      destruct (0 <? length _)%nat; [by apply compile_go_count_later|done].
    + destruct (_ =? -1).
      * by destruct (_ && _).
      * destruct (negb _); [done|].
        destruct (0 <? length _)%nat; [by apply compile_go_count_later|done].
  - done.
Qed.

(** *** Tokens *)

Lemma shaped_app_formula s f :
  shaped s = true -> isFormulaToken f = true -> shaped (s ++ [f]) = true.
Proof.
  intros Hs Hf. induction s as [|t s IH]; cbn [app shaped].
  - by rewrite Hf.
  - cbn [shaped] in Hs. apply andb_true_iff in Hs as [Ht Hs].
    rewrite (IH Hs), andb_true_r.
    destruct (isFormulaToken t); [done|]. cbn [orb] in *.
    destruct (isOperatorToken t); [|done]. cbn [andb] in *.
    by destruct s.
Qed.

Lemma shaped_app_operator s o f :
  shaped s = true -> isOperatorToken o = true -> isFormulaToken f = true ->
  shaped ((s ++ [o]) ++ [f]) = true.
Proof.
  intros Hs Ho Hf. rewrite <- app_assoc. cbn [app].
  induction s as [|t s IH]; cbn [app shaped].
  - by rewrite Ho, Hf, orb_true_r.
  - cbn [shaped] in Hs. apply andb_true_iff in Hs as [Ht Hs].
    rewrite (IH Hs), andb_true_r.
    destruct (isFormulaToken t); [done|]. cbn [orb] in *.
    destruct (isOperatorToken t); [|done]. cbn [andb] in *.
    by destruct s.
Qed.

Lemma clean_op_length s :
  (length (clean s) =? 1)%nat = true ->
  isOperatorToken (mkToken (clean s) 0 0) = true.
Proof. intros H. unfold isOperatorToken. cbn. by rewrite H. Qed.

Lemma compile_go_shaped fuel : forall str stack st,
  (length str <= fuel)%nat ->
  (shaped stack = true
   \/ exists init o, stack = init ++ [o] /\ shaped init = true
                     /\ isOperatorToken o = true /\ opensFormula str = true) ->
  compile_go fuel str stack = Ok st ->
  shaped st = true.
Proof.
  induction fuel as [|fuel IH]; intros str stack st Hfuel Hinv H.
  { destruct str; [|cbn in Hfuel; lia]. cbn in H. injection H as <-.
    destruct Hinv as [|(? & ? & _ & _ & _ & ?)]; done. }
  destruct str as [|c str].
  { cbn in H. injection H as <-.
    destruct Hinv as [|(? & ? & _ & _ & _ & ?)]; done. }
  rewrite compile_go_S in H. cbv zeta in H. cbn [length] in Hfuel.
  destruct (_ && _); [done|].
  destruct (byte_eqb c _OP_SQ || byte_eqb c _OP_RD) eqn:Eb.
  - destruct (_ =? -1); [done|].
    destruct (index (c :: str) _) as [closing| |] eqn:Ei;
      cbn [mbind res_bind] in H; [|done|done].
    destruct (slice _ _ _) as [body| |]; cbn [mbind res_bind] in H;
      [|done|done].
    set (f := mkToken (clean body)
                (Z.lor (if byte_eqb c _OP_SQ then 2 else 0)
                       (if byte_eqb closing _CL_SQ then 1 else 0)) 1) in *.
    assert (Hf : isFormulaToken f = true).
    { unfold isFormulaToken, f. cbn [class flags].
      by destruct (byte_eqb c _OP_SQ), (byte_eqb closing _CL_SQ). }
    assert (Hsh : shaped (stack ++ [f]) = true).
    { destruct Hinv as [Hs|(init & o & -> & Hs & Ho & _)].
      - by apply shaped_app_formula.
      - by apply shaped_app_operator. }
    assert (Hcl : 0 <= firstOf (c :: str) _CL_SQ _CL_RD).
    { unfold index in Ei.
      destruct (Z.ltb_spec (firstOf (c :: str) _CL_SQ _CL_RD) 0); [done|lia]. }
    destruct (0 <? length _)%nat.
    + eapply IH; [|left; exact Hsh|exact H].
      rewrite length_drop. cbn [length]. lia.
    + by injection H as <-.
  - destruct Hinv as [Hs|(init & o & _ & _ & _ & Ho)].
    2:{ cbn [opensFormula] in Ho. congruence. }
    apply orb_false_iff in Eb as [Esq Erd].
    destruct (firstOf_pos c str _OP_SQ _OP_RD Esq Erd) as [Hop|Hop].
    { rewrite Hop in H. cbn in H. by destruct (_ && _). }
    destruct (Z.eqb_spec (firstOf (c :: str) _OP_SQ _OP_RD) (-1)); [lia|].
    destruct (negb _) eqn:El; [done|]. apply negb_false_iff in El.
    pose proof (firstOf_lt (c :: str) _OP_SQ _OP_RD ltac:(done)) as Hlt.
    pose proof (firstOf_lookup (c :: str) _OP_SQ _OP_RD ltac:(lia)) as Hlk.
    set (op := firstOf (c :: str) _OP_SQ _OP_RD) in *.
    assert (Hrest : opensFormula (drop (Z.to_nat op) (c :: str)) = true).
    { destruct (drop (Z.to_nat op) (c :: str)) as [|x rest] eqn:Ed.
      - apply (f_equal length) in Ed. rewrite length_drop in Ed.
        cbn [length] in *. lia.
      - assert (Hx : (c :: str) !! Z.to_nat op = Some x).
        { rewrite <- (Nat.add_0_r (Z.to_nat op)), <- lookup_drop, Ed. done. }
        cbn [opensFormula]. rewrite Hx in Hlk.
        destruct Hlk as [[= ->]|[= ->]]; done. }
    destruct (0 <? length _)%nat eqn:E0.
    + eapply IH; [| |exact H].
      * rewrite length_drop. cbn [length]. lia.
      * right. eexists stack, _. split; [reflexivity|].
        split; [done|]. split; [by apply clean_op_length|done].
    + apply Nat.ltb_ge in E0.
      destruct (drop (Z.to_nat op) (c :: str)); [done|cbn in E0; lia].
Qed.

(** X7: A compiled stack has a shape: every token is a formula token, with
    class 1 and flags from 0 to 3, or an operator token, with class 0
    and a value of one byte, and every operator token is followed by a
    formula token; in particular the last token is a formula. *)
Theorem compile_shaped str stack :
  compile str [] = Ok stack -> shaped stack = true.
Proof.
  intros H. eapply (compile_go_shaped (length str)); [done| |exact H].
  by left.
Qed.

(** ** What a match consists of *)

(** *** The search finds matches only *)

Lemma star_sound r (k : nat -> gostring -> caps -> option caps) :
  (forall pos s cs k c,
     rmatch r pos s cs k = Some c ->
     exists pos' s' cs', runs r pos s cs pos' s' cs' /\ k pos' s' cs' = Some c) ->
  forall fuel pos s cs c,
    (fix star (fuel : nat) (pos : nat) (s : gostring) (cs : caps)
       : option caps :=
       match fuel with
       | O => k pos s cs
       | S fuel' =>
           match rmatch r pos s cs
                   (fun pos' s' cs' =>
                      if (pos <? pos')%nat then star fuel' pos' s' cs'
                      else None)
           with
           | Some c => Some c
           | None => k pos s cs
           end
       end) fuel pos s cs = Some c ->
    exists pos' s' cs',
      runs (Star r) pos s cs pos' s' cs' /\ k pos' s' cs' = Some c.
Proof.
  intros IH. induction fuel as [|fuel IHf]; intros pos s cs c H.
  - eauto 10 using runs.
  - match type of H with
    | match ?m with Some _ => _ | None => _ end = _ =>
        destruct m as [c'|] eqn:E
    end.
    + injection H as ->.
      apply IH in E as (pos1 & s1 & cs1 & H1 & E).
      destruct (pos <? pos1)%nat; [|done].
      apply IHf in E as (pos2 & s2 & cs2 & H2 & E).
      eauto 10 using runs.
    + eauto 10 using runs.
Qed.

Lemma rmatch_sound r : forall pos s cs k c,
  rmatch r pos s cs k = Some c ->
  exists pos' s' cs', runs r pos s cs pos' s' cs' /\ k pos' s' cs' = Some c.
Proof.
  induction r as [|p|r1 IH1 r2 IH2|r1 IH1 r2 IH2|r IH|i r IH| |];
    intros pos s cs k c H.
  - cbn [rmatch] in H. eauto 10 using runs.
  - cbn [rmatch] in H.
    destruct s as [|x s]; [done|]. destruct (p x) eqn:E; [|done].
    eauto 10 using runs.
  - cbn [rmatch] in H.
    apply IH1 in H as (pos1 & s1 & cs1 & H1 & H).
    apply IH2 in H as (pos2 & s2 & cs2 & H2 & H).
    eauto 10 using runs.
  - cbn [rmatch] in H.
    destruct (rmatch r1 pos s cs k) as [c'|] eqn:E.
    + injection H as ->. apply IH1 in E as (? & ? & ? & ? & ?).
      eauto 10 using runs.
    + apply IH2 in H as (? & ? & ? & ? & ?). eauto 10 using runs.
  - exact (star_sound r k IH (S (length s)) pos s cs c H).
  - cbn [rmatch] in H.
    apply IH in H as (? & ? & ? & ? & ?). eauto 10 using runs.
  - cbn [rmatch] in H.
    destruct (Nat.eqb_spec pos 0) as [->|]; [|done]. eauto 10 using runs.
  - cbn [rmatch] in H. destruct s; [|done]. eauto 10 using runs.
Qed.

Lemma search_sound r : forall s pos cs,
  search r pos s = Some cs ->
  exists n pos' s',
    (n <= length s)%nat /\ runs r (pos + n) (drop n s) [] pos' s' cs.
Proof.
  induction s as [|x s IH]; intros pos cs H; cbn [search] in H.
  - destruct (rmatch r pos [] [] _) as [c|] eqn:E; [|done].
    injection H as ->. apply rmatch_sound in E as (pos' & s' & cs' & Hr & [= ->]).
    exists 0%nat, pos', s'. rewrite Nat.add_0_r. cbn. split; [lia|done].
  - destruct (rmatch r pos (x :: s) [] _) as [c|] eqn:E.
    + injection H as ->.
      apply rmatch_sound in E as (pos' & s' & cs' & Hr & [= ->]).
      exists 0%nat, pos', s'. rewrite Nat.add_0_r. cbn. split; [lia|done].
    + apply IH in H as (n & pos' & s' & Hn & Hr).
      exists (S n), pos', s'. cbn [length drop]. split; [lia|].
      by replace (pos + S n)%nat with (S pos + n)%nat by lia.
Qed.

(** What a run consumes is a prefix of what was left to read. *)
Lemma runs_span r pos s cs pos' s' cs' :
  runs r pos s cs pos' s' cs' ->
  exists w, s = w ++ s' /\ pos' = (pos + length w)%nat.
Proof.
  induction 1 as [pos s cs|p x pos s cs Hp| ? ? ? ? ? ? ? ? ? ? ? _ IH1 _ IH2
                  | ? ? ? ? ? ? ? ? _ IH| ? ? ? ? ? ? ? ? _ IH
                  | ? ? ? ?| ? ? ? ? ? ? ? ? ? ? _ IH1 _ IH2
                  | ? ? ? ? ? ? ? ? _ IH| |].
  - exists []. split; [done|]. cbn. lia.
  - exists [x]. split; [done|]. cbn. lia.
  - destruct IH1 as (w1 & -> & ->), IH2 as (w2 & -> & ->).
    exists (w1 ++ w2). rewrite app_assoc, length_app. split; [done|lia].
  - done.
  - done.
  - exists []. split; [done|]. cbn. lia.
  - destruct IH1 as (w1 & -> & ->), IH2 as (w2 & -> & ->).
    exists (w1 ++ w2). rewrite app_assoc, length_app. split; [done|lia].
  - done.
  - exists []. done.
  - exists []. split; [done|]. cbn. lia.
Qed.

(** *** Runs of the building blocks *)

Lemma runs_eps_inv pos s cs pos' s' cs' :
  runs Eps pos s cs pos' s' cs' -> pos' = pos /\ s' = s /\ cs' = cs.
Proof. by inversion 1. Qed.

Lemma runs_chr_inv p pos s cs pos' s' cs' :
  runs (Chr p) pos s cs pos' s' cs' ->
  exists x, s = x :: s' /\ p x = true /\ pos' = S pos /\ cs' = cs.
Proof. inversion 1; subst. eauto. Qed.

Lemma runs_seq_inv r1 r2 pos s cs pos' s' cs' :
  runs (Seq r1 r2) pos s cs pos' s' cs' ->
  exists pos1 s1 cs1,
    runs r1 pos s cs pos1 s1 cs1 /\ runs r2 pos1 s1 cs1 pos' s' cs'.
Proof. inversion 1; subst. eauto. Qed.

Lemma runs_alt_inv r1 r2 pos s cs pos' s' cs' :
  runs (Alt r1 r2) pos s cs pos' s' cs' ->
  runs r1 pos s cs pos' s' cs' \/ runs r2 pos s cs pos' s' cs'.
Proof. inversion 1; subst; auto. Qed.

Lemma runs_group_inv i r pos s cs pos' s' cs' :
  runs (Group i r) pos s cs pos' s' cs' ->
  exists cs1, runs r pos s cs pos' s' cs1 /\ cs' = (i, (pos, pos')) :: cs1.
Proof. inversion 1; subst. eauto. Qed.

Lemma runs_bol_inv pos s cs pos' s' cs' :
  runs Bol pos s cs pos' s' cs' ->
  pos = 0%nat /\ pos' = 0%nat /\ s' = s /\ cs' = cs.
Proof. by inversion 1. Qed.

Lemma runs_eol_inv pos s cs pos' s' cs' :
  runs Eol pos s cs pos' s' cs' ->
  s = [] /\ pos' = pos /\ s' = [] /\ cs' = cs.
Proof. by inversion 1. Qed.

Lemma runs_star_chr_inv p pos s cs pos' s' cs' :
  runs (Star (Chr p)) pos s cs pos' s' cs' ->
  exists w, s = w ++ s' /\ forallb p w = true
            /\ pos' = (pos + length w)%nat /\ cs' = cs.
Proof.
  remember (Star (Chr p)) as r eqn:Er. intros H.
  induction H as [| | | | | ? pos s cs
                  | r0 pos s cs pos1 s1 cs1 pos2 s2 cs2 H1 _ H2 IH2| | |];
    try discriminate.
  - exists []. cbn. repeat split; try done; lia.
  - injection Er as ->.
    apply runs_chr_inv in H1 as (x & -> & Hx & -> & ->).
    destruct (IH2 eq_refl) as (w & -> & Hw & -> & ->).
    exists (x :: w). cbn. rewrite Hx, Hw. repeat split; try done; lia.
Qed.

(** Takes a run apart, block by block. *)
Ltac inv_runs :=
  repeat match goal with
         | H : runs Eps _ _ _ _ _ _ |- _ =>
             apply runs_eps_inv in H as (? & ? & ?); subst
         | H : runs (Seq _ _) _ _ _ _ _ _ |- _ =>
             apply runs_seq_inv in H as (? & ? & ? & ? & ?)
         | H : runs (Group _ _) _ _ _ _ _ _ |- _ =>
             apply runs_group_inv in H as (? & ? & ?); subst
         | H : runs Bol _ _ _ _ _ _ |- _ =>
             apply runs_bol_inv in H as (? & ? & ? & ?); subst
         | H : runs Eol _ _ _ _ _ _ |- _ =>
             apply runs_eol_inv in H as (? & ? & ? & ?); subst
         | H : runs (Star (Chr _)) _ _ _ _ _ _ |- _ =>
             apply runs_star_chr_inv in H as (? & ? & ? & ? & ?); subst
         | H : runs (Chr _) _ _ _ _ _ _ |- _ =>
             apply runs_chr_inv in H as (? & ? & ? & ? & ?); subst
         | H : runs (Alt _ _) _ _ _ _ _ _ |- _ =>
             apply runs_alt_inv in H as [H|H]
         end.

(** *** Digits parse *)

Lemma parseDigits_bound w : forall acc,
  forallb isDigit w = true -> 0 <= acc ->
  exists n, parseDigits acc w = Some n
            /\ acc * 10 ^ Z.of_nat (length w) <= n
               < (acc + 1) * 10 ^ Z.of_nat (length w).
Proof.
  induction w as [|x w IH]; intros acc Hw Hacc.
  - exists acc. cbn. split; [done|lia].
  - cbn [forallb] in Hw. apply andb_true_iff in Hw as [Hx Hw].
    cbn [parseDigits]. rewrite Hx.
    pose proof (isDigit_range x Hx) as Hr.
    destruct (IH (acc * 10 + (code x - 48)) Hw ltac:(lia)) as (n & -> & Hn).
    exists n. split; [done|].
    cbn [length]. rewrite Nat2Z.inj_succ, Z.pow_succ_r by lia.
    nia.
Qed.

Lemma isDigit_not_sign x : isDigit x = true ->
  byte_eqb x "+" = false /\ byte_eqb x "-" = false.
Proof.
  intros H. split; apply byte_eqb_neq; intros ->; done.
Qed.

(** One to four digits parse as an integer of 16 bits, one or two
    digits as an integer of 8 bits. *)
Lemma ParseInt_digits w bits :
  forallb isDigit w = true -> w <> [] ->
  10 ^ Z.of_nat (length w) <= 2 ^ (bits - 1) ->
  exists n, ParseInt w bits = Some n /\ 0 <= n < 10 ^ Z.of_nat (length w).
Proof.
  intros Hw Hne Hb. destruct w as [|x w]; [done|].
  pose proof Hw as Hw'. cbn [forallb] in Hw'.
  apply andb_true_iff in Hw' as [Hx _].
  destruct (isDigit_not_sign x Hx) as [Hp Hm].
  unfold ParseInt. rewrite Hp, Hm.
  destruct (parseDigits_bound (x :: w) 0 Hw ltac:(lia)) as (n & -> & Hn).
  exists n. destruct (Z.ltb_spec n (2 ^ (bits - 1))); [|lia].
  split; [done|lia].
Qed.

(** *** The groups of the date patterns *)

Lemma mid_text (pre w post : gostring) (from to : nat) :
  from = length pre -> to = (from + length w)%nat ->
  take (to - from) (drop from (pre ++ w ++ post)) = w.
Proof.
  intros -> ->. rewrite drop_app_length.
  replace (length pre + length w - length pre)%nat with (length w) by lia.
  by rewrite take_app_length.
Qed.

(** Proves that the text between two positions of a text of known
    shape is [w], given what stands before and after it. *)
Ltac mid pre w post :=
  match goal with
  | |- take _ (drop _ ?v) = _ =>
      replace v with (pre ++ w ++ post)
        by (repeat (progress (cbn [app]; rewrite <- ?app_assoc, ?app_nil_r));
            reflexivity);
      apply mid_text; cbn [length]; rewrite ?length_app; cbn [length]; lia
  end.

Ltac start_groups E Hr :=
  let n := fresh "n" in
  let Hn := fresh "Hn" in
  apply search_sound in E as (n & ? & ? & Hn & Hr).

(** Splits an equation between two lists of group texts. *)
Ltac split_list :=
  repeat (apply (f_equal2 (@cons gostring))); try reflexivity.

Ltac use_classes :=
  rewrite ?app_nil_r; cbn [forallb length app];
  repeat match goal with H : _ = true |- _ => rewrite H; clear H end;
  repeat split; try done; try lia.

Ltac open_groups E :=
  let Hr := fresh "Hr" in
  start_groups E Hr;
  unfold _DATE_REGEX_DD_MONTH, _DATE_REGEX_DD_MONTH_YYYY,
    _DATE_REGEX_MONTH_YYYY, _DATE_REGEX_DD_MM_YYYY, _DATE_REGEX_YYYY_MM_DD,
    reD12, reD4, reD2, reW3, reLit, Plus, Opt, reS, reD, reW in Hr;
  cbn [seqs] in Hr; inv_runs;
  match goal with
  | H : (0 + ?n)%nat = 0%nat |- _ =>
      (assert (n = 0%nat) as -> by lia); clear H
  end;
  match goal with H : drop 0 ?v = _ |- _ => rewrite drop_0 in H; subst v end;
  unfold groupText; cbn [map seq capture Nat.eqb].

(** [^(\d{1,2})\s+(\w{3,})$] *)
Lemma DD_MONTH_groups v l :
  FindSubmatch _DATE_REGEX_DD_MONTH 2 v = Some l ->
  exists day ws month,
    l = [day; month] /\ v = day ++ ws ++ month
    /\ forallb isDigit day = true /\ (1 <= length day <= 2)%nat
    /\ forallb isReSpace ws = true /\ (1 <= length ws)%nat
    /\ forallb isWord month = true /\ (3 <= length month)%nat.
Proof.
  unfold FindSubmatch. destruct (search _ 0 v) as [cs|] eqn:E; [|done].
  intros [= <-]. open_groups E.
  - match goal with
    | |- context [?d1 :: ?d2 :: ?sp :: ?ws ++ ?a :: ?b :: ?c :: ?w ++ []] =>
        exists [d1; d2], (sp :: ws), (a :: b :: c :: w);
        split; [split_list;
                mid ([d1; d2] ++ sp :: ws) (a :: b :: c :: w) (@nil ascii)|]
    end.
    use_classes.
  - match goal with
    | |- context [?d1 :: ?sp :: ?ws ++ ?a :: ?b :: ?c :: ?w ++ []] =>
        exists [d1], (sp :: ws), (a :: b :: c :: w);
        split; [split_list;
                mid ([d1] ++ sp :: ws) (a :: b :: c :: w) (@nil ascii)|]
    end.
    use_classes.
Qed.

(** [^(\d{1,2})\s+(\w{3,})\s+(\d{4})$] *)
Lemma DD_MONTH_YYYY_groups v l :
  FindSubmatch _DATE_REGEX_DD_MONTH_YYYY 3 v = Some l ->
  exists day ws month ws' year,
    l = [day; month; year] /\ v = day ++ ws ++ month ++ ws' ++ year
    /\ forallb isDigit day = true /\ (1 <= length day <= 2)%nat
    /\ forallb isReSpace ws = true /\ (1 <= length ws)%nat
    /\ forallb isWord month = true /\ (3 <= length month)%nat
    /\ forallb isReSpace ws' = true /\ (1 <= length ws')%nat
    /\ forallb isDigit year = true /\ length year = 4%nat.
Proof.
  unfold FindSubmatch. destruct (search _ 0 v) as [cs|] eqn:E; [|done].
  intros [= <-]. open_groups E.
  - match goal with
    | |- context [?d1 :: ?d2 :: ?sp :: ?ws ++ ?a :: ?b :: ?c :: ?w
                    ++ ?sp' :: ?ws' ++ [?y1; ?y2; ?y3; ?y4]] =>
        exists [d1; d2], (sp :: ws), (a :: b :: c :: w), (sp' :: ws'),
          [y1; y2; y3; y4];
        split; [split_list;
                [mid ([d1; d2] ++ sp :: ws) (a :: b :: c :: w)
                     (sp' :: ws' ++ [y1; y2; y3; y4])
                |mid (([d1; d2] ++ sp :: ws) ++ (a :: b :: c :: w)
                        ++ sp' :: ws')
                     [y1; y2; y3; y4] (@nil ascii)]|]
    end.
    use_classes.
  - match goal with
    | |- context [?d1 :: ?sp :: ?ws ++ ?a :: ?b :: ?c :: ?w
                    ++ ?sp' :: ?ws' ++ [?y1; ?y2; ?y3; ?y4]] =>
        exists [d1], (sp :: ws), (a :: b :: c :: w), (sp' :: ws'),
          [y1; y2; y3; y4];
        split; [split_list;
                [mid ([d1] ++ sp :: ws) (a :: b :: c :: w)
                     (sp' :: ws' ++ [y1; y2; y3; y4])
                |mid (([d1] ++ sp :: ws) ++ (a :: b :: c :: w)
                        ++ sp' :: ws')
                     [y1; y2; y3; y4] (@nil ascii)]|]
    end.
    use_classes.
Qed.

(** [^(\w{3,})\s+(\d{4})$] *)
Lemma MONTH_YYYY_groups v l :
  FindSubmatch _DATE_REGEX_MONTH_YYYY 2 v = Some l ->
  exists month ws year,
    l = [month; year] /\ v = month ++ ws ++ year
    /\ forallb isWord month = true /\ (3 <= length month)%nat
    /\ forallb isReSpace ws = true /\ (1 <= length ws)%nat
    /\ forallb isDigit year = true /\ length year = 4%nat.
Proof.
  unfold FindSubmatch. destruct (search _ 0 v) as [cs|] eqn:E; [|done].
  intros [= <-]. open_groups E.
  match goal with
  | |- context [?a :: ?b :: ?c :: ?w ++ ?sp :: ?ws ++ [?y1; ?y2; ?y3; ?y4]] =>
      exists (a :: b :: c :: w), (sp :: ws), [y1; y2; y3; y4];
      split; [split_list;
              [mid (@nil ascii) (a :: b :: c :: w)
                   (sp :: ws ++ [y1; y2; y3; y4])
              |mid ((a :: b :: c :: w) ++ sp :: ws)
                   [y1; y2; y3; y4] (@nil ascii)]|]
  end.
  use_classes.
Qed.

(** [^(\d{1,2})[\/\.\-](\d{1,2})[\/\.\-](\d{4})$] *)
Lemma DD_MM_YYYY_groups v l :
  FindSubmatch _DATE_REGEX_DD_MM_YYYY 3 v = Some l ->
  exists day s1 month s2 year,
    l = [day; month; year] /\ v = day ++ s1 :: month ++ s2 :: year
    /\ forallb isDigit day = true /\ (1 <= length day <= 2)%nat
    /\ isDateSep s1 = true
    /\ forallb isDigit month = true /\ (1 <= length month <= 2)%nat
    /\ isDateSep s2 = true
    /\ forallb isDigit year = true /\ length year = 4%nat.
Proof.
  unfold FindSubmatch. destruct (search _ 0 v) as [cs|] eqn:E; [|done].
  intros [= <-]. open_groups E.
  all: first
    [ match goal with
      | |- context [[?d1; ?d2; ?s1; ?m1; ?m2; ?s2; ?y1; ?y2; ?y3; ?y4]] =>
          exists [d1; d2], s1, [m1; m2], s2, [y1; y2; y3; y4]
      end; split; [reflexivity|]
    | match goal with
      | |- context [[?d1; ?d2; ?s1; ?m1; ?s2; ?y1; ?y2; ?y3; ?y4]] =>
          exists [d1; d2], s1, [m1], s2, [y1; y2; y3; y4]
      end; split; [reflexivity|]
    | match goal with
      | |- context [[?d1; ?s1; ?m1; ?m2; ?s2; ?y1; ?y2; ?y3; ?y4]] =>
          exists [d1], s1, [m1; m2], s2, [y1; y2; y3; y4]
      end; split; [reflexivity|]
    | match goal with
      | |- context [[?d1; ?s1; ?m1; ?s2; ?y1; ?y2; ?y3; ?y4]] =>
          exists [d1], s1, [m1], s2, [y1; y2; y3; y4]
      end; split; [reflexivity|] ].
  all: unfold isDateSep; use_classes.
Qed.

(** [^(\d{4})-(\d{2})-(\d{2})$] *)
Lemma YYYY_MM_DD_groups v l :
  FindSubmatch _DATE_REGEX_YYYY_MM_DD 3 v = Some l ->
  exists year month day,
    l = [year; month; day] /\ v = year ++ "-"%char :: month ++ "-"%char :: day
    /\ forallb isDigit year = true /\ length year = 4%nat
    /\ forallb isDigit month = true /\ length month = 2%nat
    /\ forallb isDigit day = true /\ length day = 2%nat.
Proof.
  unfold FindSubmatch. destruct (search _ 0 v) as [cs|] eqn:E; [|done].
  intros [= <-]. open_groups E.
  repeat match goal with
         | H : byte_eqb _ _ = true |- _ => apply byte_eqb_eq in H; subst
         end.
  match goal with
  | |- context [[?y1; ?y2; ?y3; ?y4; _; ?m1; ?m2; _; ?d1; ?d2]] =>
      exists [y1; y2; y3; y4], [m1; m2], [d1; d2]
  end.
  split; [reflexivity|]. use_classes.
Qed.

(** *** The groups of the formula pattern *)

(** [\s*([xzabcds]\s*[=><])\s*(.+)\s*]: a header byte, white space, an
    operator byte, white space and a value without a newline, somewhere
    in the text. *)
Lemma FORMULA_groups v l :
  FindSubmatch _FORMULA_REGEX 2 v = Some l ->
  exists pre h ws o ws' value post,
    l = [h :: ws ++ [o]; value]
    /\ v = pre ++ h :: ws ++ o :: ws' ++ value ++ post
    /\ anyOf "xzabcds" h = true /\ forallb isReSpace ws = true
    /\ anyOf "=><" o = true /\ forallb isReSpace ws' = true
    /\ value <> [] /\ forallb (fun c => negb (code c =? 10)) value = true.
Proof.
  unfold FindSubmatch. destruct (search _ 0 v) as [cs|] eqn:E; [|done].
  intros [= <-]. start_groups E Hr.
  unfold _FORMULA_REGEX, Plus, reS, reDot in Hr. cbn [seqs] in Hr. inv_runs.
  unfold groupText; cbn [map seq capture Nat.eqb].
  match goal with
  | H : drop n v = ?w0 ++ ?h :: ?ws ++ ?o :: ?ws' ++ ?x :: ?dots ++ ?w3 ++ ?rest
    |- _ =>
      exists (take n v ++ w0), h, ws, o, ws', (x :: dots), (w3 ++ rest);
      assert (Hv : v = (take n v ++ w0) ++ h :: ws ++ o :: ws'
                         ++ (x :: dots) ++ w3 ++ rest)
        by (rewrite <- (take_drop n v) at 1; rewrite H;
            by rewrite <- !app_assoc)
  end.
  split.
  - rewrite Hv at 1 2. split_list.
    + match goal with
      | |- take _ (drop _ ((?pre ++ ?w0) ++ ?h :: ?ws ++ ?o :: ?rest)) = _ =>
          replace ((pre ++ w0) ++ h :: ws ++ o :: rest)
            with ((pre ++ w0) ++ (h :: ws ++ [o]) ++ rest)
            by (cbn [app]; by rewrite <- !app_assoc);
          apply mid_text; rewrite ?length_app, ?length_take; cbn [length];
          rewrite ?length_app; cbn [length]; lia
      end.
    + match goal with
      | |- take _ (drop _ ((?pre ++ ?w0) ++ ?h :: ?ws ++ ?o :: ?ws'
                             ++ ?val ++ ?rest)) = _ =>
          replace ((pre ++ w0) ++ h :: ws ++ o :: ws' ++ val ++ rest)
            with (((pre ++ w0) ++ h :: ws ++ o :: ws') ++ val ++ rest)
            by (cbn [app]; rewrite <- !app_assoc; cbn [app];
                by rewrite <- !app_assoc);
          apply mid_text; rewrite ?length_app, ?length_take; cbn [length];
          rewrite ?length_app; cbn [length]; lia
      end.
  - split; [exact Hv|]. cbn [forallb].
    repeat match goal with H : _ = true |- _ => rewrite H; clear H end.
    repeat split; done.
Qed.

(** Neither a comparison sign, nor a match. *)
Lemma FORMULA_none v :
  forallb (fun c => negb (anyOf "=><" c)) v = true ->
  FindSubmatch _FORMULA_REGEX 2 v = None.
Proof.
  intros Hv. destruct (FindSubmatch _ 2 v) as [l|] eqn:E; [|done].
  apply FORMULA_groups in E
    as (pre & h & ws & o & ws' & value & post & _ & -> & _ & _ & Ho & _).
  rewrite forallb_forall in Hv. specialize (Hv o).
  rewrite Ho in Hv. discriminate Hv.
  apply in_or_app. right. right. apply in_or_app. right. by left.
Qed.

(** *** What the preparer can return *)

Lemma replaceAll_byte s o :
  replaceAll_go 0 s [o] []
  = List.filter (fun x => negb (byte_eqb x o)) s.
Proof.
  induction s as [|x s IH]; [done|].
  cbn [replaceAll_go hasPrefix List.filter length Nat.sub app].
  rewrite hasPrefix_nil, andb_true_r.
  destruct (byte_eqb x o); cbn [negb]; [exact IH|by rewrite IH].
Qed.

Lemma ReplaceAll_byte s o :
  ReplaceAll s [o] [] = List.filter (fun x => negb (byte_eqb x o)) s.
Proof. apply replaceAll_byte. Qed.

(** The first group without its blanks: the header, then at least the
    operator. *)
Lemma field_two h ws o :
  isReSpace h = false -> isReSpace o = false ->
  exists o' rest, ReplaceAll (h :: ws ++ [o]) (b " ") [] = h :: o' :: rest.
Proof.
  intros Hh Ho. change (b " ") with [" "%char]. rewrite ReplaceAll_byte.
  cbn [List.filter].
  assert (Hn : forall x, isReSpace x = false -> negb (byte_eqb x " ") = true).
  { intros x Hx. apply negb_true_iff, byte_eqb_neq. by intros ->. }
  rewrite (Hn h Hh). rewrite List.filter_app. cbn [List.filter].
  rewrite (Hn o Ho).
  destruct (List.filter _ ws) as [|y l]; cbn [app]; eauto.
Qed.

Lemma setNumber_fields c n :
  header (setNumber c n) = header c /\ operator (setNumber c n) = operator c
  /\ bytesValue (setNumber c n) = bytesValue c
  /\ intervalScope (setNumber c n) = intervalScope c.
Proof. done. Qed.

Section PreparerFacts.

Variable locale : Locale.
Variable currentYear : Z.
Variable currentMonthIndex : Z.
Variable unicodeToLower : gostring -> gostring.

Local Abbreviation coerceDateE := (coerceDate locale currentYear
                                     currentMonthIndex).
Local Abbreviation fillComparatorE :=
  (fillComparator locale currentYear currentMonthIndex unicodeToLower).
Local Abbreviation prepareConditionE :=
  (prepareCondition locale currentYear currentMonthIndex unicodeToLower).
Local Abbreviation prepare_goE :=
  (prepare_go locale currentYear currentMonthIndex unicodeToLower).
Local Abbreviation prepareE := (prepare locale currentYear currentMonthIndex
                             unicodeToLower).

Lemma coerceDate_Ok comp :
  exists comp', coerceDateE comp = Ok comp' /\ sameCondition comp comp'.
Proof.
  unfold coerceDate. set (v := bytesValue comp).
  assert (Hsame : forall c, sameCondition comp c ->
                            exists comp', Ok c = Ok comp'
                                          /\ sameCondition comp comp')
    by eauto.
  assert (H0 : sameCondition comp comp) by done.
  assert (H8 : forall w, forallb isDigit w = true -> (1 <= length w <= 2)%nat ->
                         exists n, ParseInt w 8 = Some n).
  { intros w Hw Hl. destruct (ParseInt_digits w 8 Hw) as (n & Hn & _).
    - intros ->. cbn in Hl. lia.
    - change (2 ^ (8 - 1)) with 128.
      assert (10 ^ Z.of_nat (length w) <= 10 ^ 2)
        by (apply Z.pow_le_mono_r; lia). lia.
    - eauto. }
  assert (H16 : forall w, forallb isDigit w = true -> length w = 4%nat ->
                          exists n, ParseInt w 16 = Some n).
  { intros w Hw Hl. destruct (ParseInt_digits w 16 Hw) as (n & Hn & _).
    - intros ->. cbn in Hl. lia.
    - rewrite Hl. done.
    - eauto. }
  destruct (FindSubmatch _DATE_REGEX_DD_MONTH 2 v) as [l|] eqn:E1.
  { apply DD_MONTH_groups in E1
      as (day & ws & month & -> & _ & Hd & Hl & _).
    destruct (H8 day Hd Hl) as [n ->].
    destruct (_ && _); [|by apply Hsame].
    destruct (0 <? _); by apply Hsame. }
  destruct (FindSubmatch _DATE_REGEX_DD_MONTH_YYYY 3 v) as [l|] eqn:E2.
  { apply DD_MONTH_YYYY_groups in E2
      as (day & ws & month & ws' & year & -> & _ & Hd & Hl & _ & _ & _ & _
          & _ & _ & Hy & Hyl).
    destruct (H16 year Hy Hyl) as [y ->].
    destruct (H8 day Hd Hl) as [n ->].
    destruct (_ && _); [|by apply Hsame].
    destruct (0 <? _); by apply Hsame. }
  destruct (FindSubmatch _DATE_REGEX_MONTH_YYYY 2 v) as [l|] eqn:E3.
  { apply MONTH_YYYY_groups in E3
      as (month & ws & year & -> & _ & _ & _ & _ & _ & Hy & Hyl).
    destruct (H16 year Hy Hyl) as [y ->].
    destruct (0 <? _); by apply Hsame. }
  destruct (FindSubmatch _DATE_REGEX_DD_MM_YYYY 3 v) as [l|] eqn:E4.
  { apply DD_MM_YYYY_groups in E4
      as (day & s1 & month & s2 & year & -> & _ & Hd & Hl & _ & Hm & Hml & _
          & Hy & Hyl).
    destruct (H16 year Hy Hyl) as [y ->].
    destruct (H8 month Hm Hml) as [m ->].
    destruct (H8 day Hd Hl) as [n ->].
    destruct (_ && _); by apply Hsame. }
  destruct (FindSubmatch _DATE_REGEX_YYYY_MM_DD 3 v) as [l|] eqn:E5.
  { apply YYYY_MM_DD_groups in E5
      as (year & month & day & -> & _ & Hy & Hyl & Hm & Hml & Hd & Hl).
    destruct (H16 year Hy Hyl) as [y ->].
    destruct (H8 month Hm ltac:(lia)) as [m ->].
    destruct (H8 day Hd ltac:(lia)) as [n ->].
    destruct (_ && _); by apply Hsame. }
  destruct (-1 <? _); [by apply Hsame|].
  destruct (_ =? _)%nat; [|by apply Hsame].
  destruct (ParseInt v 16); [|by apply Hsame].
  destruct (_ && _); by apply Hsame.
Qed.

Lemma coerceSum_prepared comp value : prepared (coerceSum comp value).
Proof.
  unfold coerceSum, prepared, preparerError.
  destruct (contains _ _).
  - destruct (ParseInt _ 64); eauto 8.
  - destruct (ParseInt (_ ++ b "00") 64); [|eauto 8].
    change (bytesValue comp ++ b "99")
      with (bytesValue comp ++ ["9"%char; "9"%char]).
    destruct (bytesValue comp ++ ["9"%char; "9"%char]) as [|x l] eqn:E.
    { by destruct (bytesValue comp). }
    destruct (ParseInt (x :: l) 64); eauto 8.
Qed.

Lemma coerceBalance_prepared comp : prepared (coerceBalance comp).
Proof.
  unfold coerceBalance, prepared, preparerError.
  destruct (ParseInt _ 32); eauto 8.
Qed.

Lemma prepareCondition_prepared cs condition :
  prepared (prepareConditionE cs condition).
Proof.
  unfold prepareCondition.
  destruct (FindSubmatch _FORMULA_REGEX 2 condition) as [l|] eqn:E.
  2:{ left. eauto. }
  apply FORMULA_groups in E
    as (pre & h & ws & o & ws' & value & post & -> & _ & Hh & _ & Ho & _).
  pose proof (anyOf_not_space "xzabcds" h eq_refl Hh) as Hhs.
  pose proof (anyOf_not_space "=><" o eq_refl Ho) as Hos.
  unfold fillComparator.
  destruct (field_two h ws o Hhs Hos) as (o' & rest & ->).
  change (index (h :: o' :: rest) 0) with (Ok h).
  change (index (h :: o' :: rest) 1) with (Ok o').
  cbn [mbind res_bind].
  destruct (byte_eqb h HEADER_D_DATE).
  { destruct (coerceDate_Ok
                (mkComparator h o' (TrimSpace (ToLower unicodeToLower value))
                   0 0 cs)) as (c & -> & _).
    left. eauto. }
  destruct (byte_eqb h HEADER_S_SUM); [apply coerceSum_prepared|].
  destruct (byte_eqb h HEADER_0_BALANCE); [apply coerceBalance_prepared|].
  left. eauto.
Qed.

Lemma prepare_go_prepared cs conditions : forall filters,
  prepared (prepare_goE cs conditions filters).
Proof.
  induction conditions as [|condition rest IH]; intros filters;
    cbn [prepare_go].
  - left. eauto.
  - destruct (length condition =? 0)%nat; [left; eauto|].
    destruct (prepareCondition_prepared cs condition)
      as [[c ->]|(e & -> & He)]; cbn [mbind res_bind].
    + apply IH.
    + right. eauto.
Qed.

(** X9: A date condition never fails: whatever its value, the coercion
    returns a comparator, with the header, operator, value and scope it
    was given; none of the errors of the date case can be returned,
    since a group of digits the patterns capture always parses. *)
Theorem coerceDate_no_error comp :
  exists comp', coerceDateE comp = Ok comp' /\ sameCondition comp comp'.
Proof. apply coerceDate_Ok. Qed.

(** X10: [prepare] never panics, and the only errors it returns are those
    of an amount or a balance that does not parse: whatever the text
    of a formula, the bounds checks of the header and operator bytes
    hold and the date case returns no error. *)
Theorem prepare_outcomes cs cleanQuery :
  (exists filters, prepareE cs cleanQuery = Ok filters)
  \/ (exists e, prepareE cs cleanQuery = Err e /\ preparerError e).
Proof. apply prepare_go_prepared. Qed.

End PreparerFacts.

(** ** Deciding filters *)

Section QueryFacts.

Variable locale : Locale.
Variable unicodeToLower : gostring -> gostring.

Local Abbreviation CompareE := (Compare locale unicodeToLower).
Local Abbreviation keepE := (keep locale unicodeToLower).
Local Abbreviation queryE := (query locale unicodeToLower).
Local Abbreviation acceptsE := (accepts locale unicodeToLower).
Local Abbreviation decidesE := (decides locale unicodeToLower).
Local Abbreviation acceptsAllE := (acceptsAll locale unicodeToLower).

Lemma keep_Ok f records out :
  keepE f records = Ok out ->
  out = List.filter (acceptsE f) records
  /\ Forall (fun r => decidesE f r = true) records.
Proof.
  revert out. induction records as [|r rs IH]; intros out H; simpl in H.
  - injection H as <-. split; [done|constructor].
  - unfold accepts, decides. simpl.
    destruct (CompareE f r) as [ok| |] eqn:Ec; try discriminate.
    cbn [mbind res_bind] in H.
    destruct (keepE f rs) as [n| |] eqn:Ek; try discriminate.
    cbn [mbind res_bind] in H. injection H as <-.
    destruct (IH n eq_refl) as [-> Hd]. split.
    + unfold accepts. by destruct ok.
    + constructor; [|exact Hd]. by rewrite Ec.
Qed.

Lemma keep_decided f records :
  Forall (fun r => decidesE f r = true) records ->
  keepE f records = Ok (List.filter (acceptsE f) records).
Proof.
  induction 1 as [|r rs Hr _ IH]; [done|].
  simpl. unfold decides in Hr. unfold accepts.
  destruct (CompareE f r) as [ok| |]; try discriminate.
  cbn [mbind res_bind]. rewrite IH. cbn [mbind res_bind].
  by destruct ok.
Qed.

Lemma filter_sublist {A} (p : A -> bool) l : sublist (List.filter p l) l.
Proof.
  induction l as [|x l IH]; simpl; [constructor|].
  destruct (p x); by constructor.
Qed.

Lemma query_nil fs : queryE [] fs = Ok [].
Proof. by destruct fs. Qed.

Lemma query_keeps fs : forall records out,
  queryE records fs = Ok out -> sublist out records.
Proof.
  induction fs as [|f fs IH]; intros records out H.
  - injection H as <-. done.
  - destruct records as [|r rs].
    + injection H as <-. done.
    + cbn [query] in H.
      destruct (keepE f (r :: rs)) as [n| |] eqn:Ek; try discriminate.
      cbn [mbind res_bind] in H.
      apply keep_Ok in Ek as [-> _].
      etrans; [apply (IH _ _ H)|apply filter_sublist].
Qed.

(** X12: Conditions compose in sequence: filtering by [fs1 ++ fs2] is
    filtering by [fs1], then by [fs2], errors and panics included. *)
Theorem query_app fs1 fs2 : forall records,
  query locale unicodeToLower records (fs1 ++ fs2)
  = (out ← query locale unicodeToLower records fs1;
     query locale unicodeToLower out fs2).
Proof.
  induction fs1 as [|f fs1 IH]; intros records; [done|].
  destruct records as [|r rs].
  - simpl. by rewrite query_nil.
  - cbn [app query].
    destruct (keepE f (r :: rs)) as [n| |]; cbn [mbind res_bind]; [|done|done].
    apply IH.
Qed.

Lemma filter_filter_all fs f (l : Collection) :
  List.filter (acceptsAllE fs) (List.filter (acceptsE f) l)
  = List.filter (acceptsAllE (f :: fs)) l.
Proof.
  induction l as [|x l IH]; [done|].
  cbn [List.filter acceptsAll forallb].
  destruct (acceptsE f x) eqn:E; cbn [List.filter andb]; [|exact IH].
  fold (acceptsAllE fs x). destruct (acceptsAllE fs x); [|exact IH].
  f_equal. exact IH.
Qed.

Lemma query_all fs : forall records,
  (forall f r, f ∈ fs -> r ∈ records -> decidesE f r = true) ->
  queryE records fs = Ok (List.filter (acceptsAllE fs) records).
Proof.
  induction fs as [|f fs IH]; intros records Hd.
  - simpl. f_equal. induction records as [|x l IHl]; [done|].
    cbn [List.filter acceptsAll forallb]. f_equal. apply IHl.
    intros f r Hf. by apply elem_of_nil in Hf.
  - destruct records as [|r rs]; [done|].
    cbn [query]. rewrite keep_decided.
    2:{ apply Forall_forall. intros x Hx. apply Hd; [left|done]. }
    cbn [mbind res_bind]. rewrite IH.
    + by rewrite filter_filter_all.
    + intros g x Hg Hx. apply Hd; [by right|].
      apply list_elem_of_In in Hx. apply filter_In in Hx as [Hx _].
      by apply list_elem_of_In.
Qed.

(** Filtering twice by the same conditions changes nothing. *)
Lemma query_idem fs : forall records out,
  queryE records fs = Ok out -> queryE out fs = Ok out.
Proof.
  induction fs as [|f fs IH]; intros records out H; [done|].
  destruct records as [|r rs].
  - injection H as <-. done.
  - cbn [query] in H.
    destruct (keepE f (r :: rs)) as [n| |] eqn:Ek; try discriminate.
    cbn [mbind res_bind] in H.
    destruct out as [|o out']; [done|].
    cbn [query].
    pose proof (query_keeps _ _ _ H) as Hsub.
    apply keep_Ok in Ek as [-> Hdec].
    assert (Hall : Forall (fun x => acceptsE f x = true) (o :: out')).
    { apply Forall_forall. intros x Hx.
      apply (elem_of_sublist _ _ _ Hx) in Hsub as Hx'. clear Hx. rename Hx' into Hx.
      apply list_elem_of_In in Hx. by apply filter_In in Hx as [_ Hx]. }
    assert (Hk : keepE f (o :: out') = Ok (o :: out')).
    { rewrite keep_decided.
      - f_equal. clear -Hall. induction Hall as [|x l Hx _ IHl]; [done|].
        cbn [List.filter]. rewrite Hx. by f_equal.
      - eapply Forall_impl; [exact Hall|]. intros x. unfold accepts, decides.
        by destruct (CompareE f x) as [[]| |]. }
    rewrite Hk. cbn [mbind res_bind]. by eapply IH.
Qed.

(** X11: The records [query] returns are records of its input, in the order
    of the input. *)
Theorem query_sublist fs records out :
  query locale unicodeToLower records fs = Ok out -> sublist out records.
Proof. apply query_keeps. Qed.


End QueryFacts.

(** ** Queries of two formulas *)

Lemma isOperatorByte_spec o :
  isOperatorByte o = true ->
  (code o <? 128) = true /\ isSpaceRune (code o) = false
  /\ isReSpace o = false /\ isBracket o = false.
Proof.
  unfold isOperatorByte. rewrite !andb_true_iff, !negb_true_iff.
  intros [[H1 H2] H3]. repeat split; try done.
  unfold isReSpace, isSpaceRune in *.
  rewrite !orb_false_iff in *. 
  destruct H2 as [[[[[[[[[[Ha Hb] _] _] _] _] _] _] _] _] _].
  apply andb_false_iff in Ha.
  repeat split; apply Z.eqb_neq; intros e; rewrite e in *;
    (destruct Ha as [Ha|Ha]; [by vm_compute in Ha|by vm_compute in Ha])
    || by vm_compute in Hb.
Qed.

Lemma decodeRune_ascii x s :
  (code x <? 128) = true -> decodeRune (x :: s) = (code x, 1%nat).
Proof. intros H. unfold decodeRune. by rewrite H. Qed.

Lemma decodeLastRune_ascii s x :
  (code x <? 128) = true -> decodeLastRune (s ++ [x]) = (code x, 1%nat).
Proof. intros H. unfold decodeLastRune. rewrite rev_app_distr. simpl. by rewrite H. Qed.

Lemma clean_op o : isOperatorByte o = true -> clean [" "%char; o; " "%char] = [o].
Proof.
  intros (H1 & H2 & H3 & _)%isOperatorByte_spec.
  assert (Hl : trimLeftSpace [" "%char; o; " "%char] = [o; " "%char]).
  { unfold trimLeftSpace. cbn [length trimLeftSpace_go].
    rewrite (decodeRune_ascii " ") by reflexivity.
    change (isSpaceRune (code " ")) with true. cbv iota. cbn [drop].
    rewrite (decodeRune_ascii o) by exact H1. by rewrite H2. }
  assert (Hr : trimRightSpace [o; " "%char] = [o]).
  { unfold trimRightSpace. cbn [length trimRightSpace_go].
    change [o; " "%char] with ([o] ++ [" "%char]).
    rewrite (decodeLastRune_ascii [o] " ") by reflexivity.
    change (isSpaceRune (code " ")) with true. cbv iota.
    cbn [length Nat.sub take app].
    change [o] with ([] ++ [o]).
    rewrite (decodeLastRune_ascii [] o) by exact H1. by rewrite H2. }
  unfold clean, TrimSpace. rewrite Hl, Hr.
  cbn [collapseSpace]. by rewrite H3.
Qed.

Lemma clean_binary F o G :
  isOperatorByte o = true ->
  clean (binary F o G)
  = "["%char :: collapseSpace F ++ "]"%char
      :: " "%char :: o :: " "%char :: "["%char :: collapseSpace G ++ ["]"%char].
Proof.
  intros (_ & _ & Ho & _)%isOperatorByte_spec.
  unfold clean, binary.
  change (b "[" ++ F ++ b "] " ++ [o] ++ b " [" ++ G ++ b "]")
    with ("["%char :: F ++ ("]"%char :: " "%char :: o :: " "%char :: "["%char :: G)
                     ++ ["]"%char]).
  rewrite (app_assoc F), TrimSpace_square.
  rewrite <- !app_assoc.
  rewrite collapseSpace_cons. change (isReSpace "[") with false. cbv iota.
  change (("]"%char :: " "%char :: o :: " "%char :: "["%char :: G) ++ ["]"%char])
    with ("]"%char :: " "%char :: o :: " "%char :: "["%char :: G ++ ["]"%char]).
  rewrite collapseSpace_app by reflexivity. do 2 f_equal.
  rewrite !collapseSpace_cons.
  change (isReSpace " ") with true. rewrite Ho.
  change (isReSpace "[") with false. cbv iota.
  rewrite collapseSpace_app by reflexivity. reflexivity.
Qed.

(** An operator between two formulas. *)
Lemma compile_go_op fuel o rest stack :
  isOperatorByte o = true ->
  stack <> [] ->
  compile_go (S fuel) (" "%char :: o :: " "%char :: "["%char :: rest) stack
  = compile_go fuel ("["%char :: rest) (stack ++ [opToken o]).
Proof.
  intros Ho Hst. pose proof (isOperatorByte_spec o Ho) as (_ & _ & _ & Hb).
  unfold isBracket in Hb. rewrite !orb_false_iff in Hb.
  destruct Hb as [[[Hsq' Hrd'] _] _].
  rewrite compile_go_S. cbv zeta.
  assert (Hlen : (length stack =? 0)%nat = false).
  { destruct stack; [done|reflexivity]. }
  rewrite Hlen. cbn [andb].
  change (byte_eqb " " _OP_SQ || byte_eqb " " _OP_RD) with false. cbv iota.
  set (str := " "%char :: o :: " "%char :: "["%char :: rest).
  assert (Hop : firstOf str _OP_SQ _OP_RD = 3).
  { unfold firstOf.
    assert (Hsq : indexByte str _OP_SQ = 3).
    { unfold str. cbn [indexByte]. rewrite Hsq'. reflexivity. }
    assert (Hrd : indexByte str _OP_RD = -1 \/ 4 <= indexByte str _OP_RD).
    { unfold str.
      change (" "%char :: o :: " "%char :: "["%char :: rest)
        with ([" "%char; o; " "%char; "["%char] ++ rest).
      rewrite indexByte_skip.
      2:{ cbn [indexByte]. rewrite Hrd'. reflexivity. }
      destruct (indexByte_bound rest _OP_RD) as [->|H]; [left; reflexivity|].
      destruct (Z.ltb_spec (indexByte rest _OP_RD) 0); [lia|].
      right. simpl length. lia. }
    rewrite Hsq. destruct Hrd as [->|Hrd]; [reflexivity|].
    destruct (Z.ltb_spec (-1) (indexByte str _OP_RD)); [|lia].
    cbn [andb Z.ltb Z.compare]. unfold min.
    destruct (Z.ltb_spec 3 (indexByte str _OP_RD)); [done|lia]. }
  rewrite Hop. change (3 =? -1) with false. cbv iota.
  change (take (Z.to_nat 3) str) with [" "%char; o; " "%char].
  rewrite (clean_op o Ho). reflexivity.
Qed.

Lemma compile_binary F o G :
  noBrackets F = true -> noBrackets G = true -> isOperatorByte o = true ->
  compile (clean (binary F o G)) []
  = Ok [squareToken (collapseSpace F); opToken o;
        squareToken (collapseSpace G)].
Proof.
  intros HF HG Ho. rewrite (clean_binary F o G Ho). unfold compile.
  pose proof (noBrackets_collapse F HF) as HF'.
  pose proof (noBrackets_collapse G HG) as HG'.
  pose proof (isOperatorByte_spec o Ho) as (_ & _ & _ & Hb).
  unfold isBracket in Hb. rewrite !orb_false_iff in Hb.
  destruct Hb as [[[Hsq Hrd] Hcsq] Hcrd].
  set (F' := collapseSpace F) in *. set (G' := collapseSpace G) in *.
  assert (Hlen : length ("["%char :: F' ++ "]"%char :: " "%char :: o
                          :: " "%char :: "["%char :: G' ++ ["]"%char])
                 = S (S (S (length F' + length G' + 4)))).
  { cbn [length]. rewrite length_app. cbn [length].
    rewrite length_app. cbn [length]. lia. }
  rewrite Hlen.
  rewrite compile_go_square; [|done| |].
  - change (0 <? length (" "%char :: o :: " "%char :: "["%char :: G' ++ ["]"%char]))%nat
      with true.
    cbv iota. rewrite compile_go_op by done.
    change ("["%char :: G' ++ ["]"%char]) with ("["%char :: G' ++ "]"%char :: []).
    rewrite compile_go_square; [reflexivity|done|reflexivity|reflexivity].
  - change (" "%char :: o :: " "%char :: "["%char :: G' ++ ["]"%char])
      with ([" "%char; o; " "%char; "["%char] ++ (G' ++ ["]"%char])).
    rewrite indexByte_skip.
    2:{ cbn [indexByte]. rewrite Hcrd. reflexivity. }
    rewrite indexByte_skip by (by apply noBrackets_index).
    reflexivity.
  - cbv zeta. cbn [length Nat.eqb andb countByte].
    rewrite !countByte_app. cbn [countByte].
    rewrite !countByte_app. cbn [countByte].
    rewrite Hsq, Hrd, Hcsq, Hcrd.
    rewrite (noBrackets_count _ _OP_RD HF' eq_refl),
      (noBrackets_count _ _OP_SQ HF' eq_refl),
      (noBrackets_count _ _CL_RD HF' eq_refl),
      (noBrackets_count _ _CL_SQ HF' eq_refl),
      (noBrackets_count _ _OP_RD HG' eq_refl),
      (noBrackets_count _ _OP_SQ HG' eq_refl),
      (noBrackets_count _ _CL_RD HG' eq_refl),
      (noBrackets_count _ _CL_SQ HG' eq_refl). reflexivity.
Qed.

Lemma fold_insert_lookup out : forall (m : gmap gostring Rec) k r,
  fold_left (fun m r => <[RecString r := r]> m) out m !! k = Some r ->
  (r ∈ out /\ RecString r = k) \/ m !! k = Some r.
Proof.
  induction out as [|x out IH]; intros m k r H; cbn [fold_left] in H.
  - by right.
  - apply IH in H as [[H1 H2]|H].
    + left. split; [by apply list_elem_of_further|done].
    + destruct (decide (RecString x = k)) as [e|n].
      * rewrite e, lookup_insert_eq in H. injection H as <-.
        left. split; [apply list_elem_of_here|done].
      * rewrite lookup_insert_ne in H by done. by right.
Qed.

Lemma memOf_lookup out k r :
  memOf out !! k = Some r -> r ∈ out /\ RecString r = k.
Proof.
  intros H. apply fold_insert_lookup in H as [H|H]; [done|].
  by rewrite lookup_empty in H.
Qed.

Lemma memOf_known out r : r ∈ out -> is_Some (memOf out !! RecString r).
Proof. intros H. apply stage_known. by left. Qed.

Lemma remove_lookup out : forall (m : gmap gostring Rec) k,
  remove m out !! k
  = if decide (k ∈ map RecString out) then None else m !! k.
Proof.
  unfold remove. induction out as [|x out IH]; intros m k.
  - cbn. destruct (decide _) as [H|H]; [by apply elem_of_nil in H|done].
  - cbn [fold_left map]. rewrite IH.
    destruct (decide (k ∈ map RecString out)) as [H|H].
    + rewrite decide_True; [done|by apply list_elem_of_further].
    + destruct (decide (k = RecString x)) as [->|n].
      * rewrite decide_True by apply list_elem_of_here.
        by rewrite lookup_delete_eq.
      * rewrite decide_False.
        -- by rewrite lookup_delete_ne.
        -- intros [e|e]%elem_of_cons; done.
Qed.

Lemma remove_all out : remove (memOf out) out = ∅.
Proof.
  apply map_eq. intros k. rewrite remove_lookup, lookup_empty.
  destruct (decide _) as [H|H]; [done|].
  destruct (memOf out !! k) as [r|] eqn:E; [|done].
  apply memOf_lookup in E as [Hr <-]. exfalso. apply H.
  apply list_elem_of_In, in_map, list_elem_of_In, Hr.
Qed.

Section EvaluatorFacts.

Variable locale : Locale.
Variable currentYear : Z.
Variable currentMonthIndex : Z.
Variable unicodeToLower : gostring -> gostring.
Variable rangeMem : nat -> gmap gostring Rec -> list Rec.

Local Abbreviation walkE := (walk locale currentYear currentMonthIndex
                          unicodeToLower rangeMem).
Local Abbreviation evaluateE := (evaluate locale currentYear currentMonthIndex
                              unicodeToLower rangeMem).
Local Abbreviation FilterWithE := (FilterWith locale currentYear
                                currentMonthIndex unicodeToLower rangeMem).
Local Abbreviation FilterE := (Filter locale currentYear currentMonthIndex
                            unicodeToLower rangeMem).
Local Abbreviation FilterUnsortedE := (FilterUnsorted locale currentYear
                                    currentMonthIndex unicodeToLower rangeMem).
Local Abbreviation prepareE := (prepare locale currentYear currentMonthIndex
                             unicodeToLower).
Local Abbreviation queryE := (query locale unicodeToLower).

Lemma stage_memOf out : stage (∅, []) out = (memOf out, out).
Proof. by rewrite stage_app. Qed.

(** A query of one formula: the body is prepared and the collection
    filtered. *)
Lemma FilterWith_single finish c F :
  noBrackets F = true ->
  FilterWithE finish c (single F)
  = orFail (prepareE (mkScope true true) (bodyOf F)) (fun fs =>
    orFail (queryE c fs) (fun out => Returned (finish out) None)).
Proof.
  intros HF. unfold FilterWith. rewrite (compile_single F HF).
  cbn [orFail]. unfold evaluate.
  change (IsFormula (squareToken (collapseSpace F))) with true. cbv iota.
  change (scopeOf (squareToken (collapseSpace F))) with (mkScope true true).
  change (value (squareToken (collapseSpace F))) with (bodyOf F).
  apply orFail_ext; intros fs. apply orFail_ext; intros out.
  by rewrite stage_memOf.
Qed.

(** A query of two formulas up to its operator. *)
Lemma FilterWith_binary finish c F o G :
  noBrackets F = true -> noBrackets G = true -> isOperatorByte o = true ->
  FilterWithE finish c (binary F o G)
  = orFail (prepareE (mkScope true true) (bodyOf F)) (fun fs =>
    orFail (queryE c fs) (fun out =>
      walkE finish c 1 [opToken o; squareToken (collapseSpace G)]
        (memOf out) out)).
Proof.
  intros HF HG Ho. unfold FilterWith. rewrite (compile_binary F o G HF HG Ho).
  cbn [orFail]. unfold evaluate.
  change (IsFormula (squareToken (collapseSpace F))) with true. cbv iota.
  change (scopeOf (squareToken (collapseSpace F))) with (mkScope true true).
  change (value (squareToken (collapseSpace F))) with (bodyOf F).
  apply orFail_ext; intros fs. apply orFail_ext; intros out.
  by rewrite stage_memOf.
Qed.

(** One step of the walk over [o [G]]. *)
Lemma walk_binary finish c i o G mem results :
  walkE finish c i [opToken o; squareToken (collapseSpace G)] mem results
  = orFail (prepareE (mkScope true true) (bodyOf G)) (fun filters =>
      if byte_eqb o _UNION then
        orFail (queryE c filters) (fun out =>
          Returned (finish (snd (unite (mem, results) out))) None)
      else if byte_eqb o _DIFF then
        orFail (queryE results filters) (fun out =>
          Returned (finish (rangeMem i (remove mem out))) None)
      else Returned results (Some (ErrUnsupportedOperator o))).
Proof. reflexivity. Qed.

(** The difference of a formula with itself when every call of
    [Translate] ranges in the order of the list: [[F] - [F]] returns no
    record wherever [[F]] returns records, and fails as [[F]] fails. *)
Lemma Filter_self_difference_in_order c F :
  (forall i, rangeMem i ∅ = []) ->
  noBrackets F = true ->
  FilterE c (binary F "-" F)
  = match FilterE c (single F) with
    | Returned _ None => Returned [] None
    | o => o
    end.
Proof.
  intros Hrange HF. unfold Filter.
  rewrite (FilterWith_binary _ c F "-" F HF HF eq_refl),
    (FilterWith_single _ c F HF).
  destruct (prepareE (mkScope true true) (bodyOf F)) as [fs| |] eqn:Ep;
    [|done|done].
  cbn [orFail].
  destruct (queryE c fs) as [out| |] eqn:Eq; [|done|done].
  cbn [orFail]. rewrite walk_binary, Ep. cbn [orFail].
  change (byte_eqb "-" _UNION) with false.
  change (byte_eqb "-" _DIFF) with true. cbv iota.
  rewrite (query_idem _ _ _ _ _ Eq). cbn [orFail].
  by rewrite remove_all, Hrange.
Qed.


(** X16: An operator other than [+] and [-] is reported with the records of
    the first formula, unsorted, beside the error, when the formula
    after the operator prepares without error. *)
Theorem Filter_unsupported_operator c F o G outF fG :
  noBrackets F = true -> noBrackets G = true ->
  isOperatorByte o = true -> o <> _UNION -> o <> _DIFF ->
  FilterUnsortedE c (single F) = Returned outF None ->
  prepareE (mkScope true true) (bodyOf G) = Ok fG ->
  FilterE c (binary F o G)
  = Returned outF (Some (ErrUnsupportedOperator o)).
Proof.
  intros HF HG Ho Hu Hd HoutF EpG.
  unfold FilterUnsorted in HoutF.
  rewrite (FilterWith_single _ c F HF) in HoutF.
  unfold Filter. rewrite (FilterWith_binary _ c F o G HF HG Ho).
  destruct (prepareE (mkScope true true) (bodyOf F)) as [fF| |] eqn:EpF;
    [|done|done]. cbn [orFail] in *.
  destruct (queryE c fF) as [out| |] eqn:EqF; [|done|done].
  cbn [orFail] in *. injection HoutF as ->.
  rewrite walk_binary, EpG. cbn [orFail].
  apply byte_eqb_neq in Hu, Hd. by rewrite Hu, Hd.
Qed.

Lemma unite_within (c : Collection) out : forall (m : gmap gostring Rec) rs,
  (forall r, r ∈ out -> r ∈ c) ->
  (forall k r, m !! k = Some r -> r ∈ c) ->
  (forall r, r ∈ rs -> r ∈ c) ->
  (forall k r, fst (unite (m, rs) out) !! k = Some r -> r ∈ c)
  /\ (forall r, r ∈ snd (unite (m, rs) out) -> r ∈ c).
Proof.
  unfold unite. induction out as [|x out IH]; intros m rs Hout Hm Hrs.
  - done.
  - cbn [fold_left fst snd].
    assert (Hx : x ∈ c) by apply Hout, list_elem_of_here.
    assert (Hout' : forall r, r ∈ out -> r ∈ c).
    { intros r Hr. by apply Hout, list_elem_of_further. }
    destruct (m !! RecString x); [by apply IH|].
    apply IH; [done| |].
    + intros k r. destruct (decide (RecString x = k)) as [e|n].
      * rewrite e, lookup_insert_eq. by intros [= <-].
      * rewrite lookup_insert_ne by done. apply Hm.
    + intros r [Hr|Hr]%elem_of_app; [by apply Hrs|].
      apply list_elem_of_singleton in Hr. by subst.
Qed.

Lemma walk_within c n : forall rest i mem results rs e,
  (forall i m r, r ∈ rangeMem i m -> exists k, m !! k = Some r) ->
  (length rest <= n)%nat ->
  (forall k r, mem !! k = Some r -> r ∈ c) ->
  (forall r, r ∈ results -> r ∈ c) ->
  walkE SliceStable c i rest mem results = Returned rs e ->
  forall r, r ∈ rs -> r ∈ c.
Proof.
  induction n as [|n IH]; intros rest i mem results rs e Hrange Hn Hm Hrs H.
  { destruct rest; [|simpl in Hn; lia]. injection H as <- <-.
    intros r. rewrite SliceStable_perm. apply Hrs. }
  destruct rest as [|op [|ls rest]].
  - injection H as <- <-. intros r. rewrite SliceStable_perm. apply Hrs.
  - done.
  - cbn [length] in Hn. cbn [walk] in H.
    destruct (IsFormula op); [by injection H as <- <-|].
    destruct (negb (IsFormula ls)); [by injection H as <- <-|].
    destruct (prepareE (scopeOf ls) (value ls)) as [filters| |];
      cbn [orFail] in H; [|injection H as <- <-; by intros r ?%elem_of_nil|done].
    destruct (index (value op) 0) as [o| |];
      cbn [orFail] in H; [|injection H as <- <-; by intros r ?%elem_of_nil|done].
    destruct (byte_eqb o _UNION).
    { destruct (queryE c filters) as [out| |] eqn:Eq;
        cbn [orFail] in H; [|injection H as <- <-; by intros r ?%elem_of_nil|done].
      pose proof (query_keeps _ _ _ _ _ Eq) as Hsub.
      destruct (unite_within c out mem results) as [Hm' Hrs']; [|done|done|].
      { intros r Hr. by eapply elem_of_sublist. }
      eapply (IH rest _ _ _ rs e Hrange); [lia|exact Hm'|exact Hrs'|exact H]. }
    destruct (byte_eqb o _DIFF); [|by injection H as <- <-].
    destruct (queryE results filters) as [out| |] eqn:Eq;
      cbn [orFail] in H; [|injection H as <- <-; by intros r ?%elem_of_nil|done].
    assert (Hm' : forall k r, remove mem out !! k = Some r -> r ∈ c).
    { intros k r. rewrite remove_lookup. destruct (decide _); [done|apply Hm]. }
    eapply (IH rest _ _ _ rs e Hrange); [lia|exact Hm'| |exact H].
    intros r [k Hk]%Hrange. by eapply Hm'.
Qed.

(** X17: [Filter] invents no record: whatever the query, and whether or not
    an error comes with them, the records it returns are records of the
    collection. *)
Theorem Filter_within c q rs e :
  (forall i m r, r ∈ rangeMem i m -> exists k, m !! k = Some r) ->
  Filter locale currentYear currentMonthIndex unicodeToLower rangeMem c q
  = Returned rs e ->
  forall r, r ∈ rs -> r ∈ c.
Proof.
  intros Hrange H. unfold Filter, FilterWith in H.
  destruct (compile (clean q) []) as [stack| |];
    cbn [orFail] in H; [|injection H as <- <-; by intros r ?%elem_of_nil|done].
  destruct stack as [|start rest]; cbn [evaluate] in H.
  { by injection H as <- <-. }
  destruct (IsFormula start);
    [|injection H as <- <-; by intros r ?%elem_of_nil].
  destruct (prepareE (scopeOf start) (value start)) as [filters| |];
    cbn [orFail] in H; [|injection H as <- <-; by intros r ?%elem_of_nil|done].
  destruct (queryE c filters) as [out| |] eqn:Eq;
    cbn [orFail] in H; [|injection H as <- <-; by intros r ?%elem_of_nil|done].
  pose proof (query_keeps _ _ _ _ _ Eq) as Hsub.
  rewrite stage_memOf in H. cbn [fst snd] in H.
  eapply (walk_within c (length rest)); [exact Hrange|done| | |exact H].
  - intros k r [Hr _]%memOf_lookup. by eapply elem_of_sublist.
  - intros r Hr. by eapply elem_of_sublist.
Qed.

End EvaluatorFacts.

(** X14: The difference of a formula with itself is empty, for a
    locale whose table translates every text the same in whatever order
    its pairs are visited, every call of [Translate] ranging over it in
    an order of its own: [[F] - [F]] returns no record wherever [[F]]
    returns records, and fails as [[F]] fails. *)
Theorem Filter_self_difference locale currentYear currentMonthIndex
    unicodeToLower rangeMem rangeUnicode c F :
  orderFree (Unicode locale) ->
  rangesTable locale rangeUnicode ->
  (forall i, rangeMem i ∅ = []) ->
  noBrackets F = true ->
  FilterAt locale currentYear currentMonthIndex unicodeToLower rangeMem
    rangeUnicode c (binary F "-" F)
  = match FilterAt locale currentYear currentMonthIndex unicodeToLower
            rangeMem rangeUnicode c (single F) with
    | Returned _ None => Returned [] None
    | o => o
    end.
Proof.
  intros Hfree Hrange Hmem HF.
  assert (same : forall call text,
            TranslateBy (rangeUnicode call) text = Translate locale text).
  { intros call text. by apply TranslateBy_order_free. }
  unfold FilterAt. rewrite !(FilterWithAt_same _ _ _ _ _ _ same).
  by apply Filter_self_difference_in_order.
Qed.

Section ComparatorFacts.

Variable locale : Locale.
Variable unicodeToLower : gostring -> gostring.

Local Abbreviation CompareE := (Compare locale unicodeToLower).

(** X18: A date range from [n] to [n + o] and the three operators.  With
    exclusive brackets, [<], [=] and [>] split the records three ways:
    every record is before the range, in it or after it, and only one of
    these; with inclusive brackets [=] accepts exactly the records that
    both [>] and [<] accept. *)
Theorem date_operators_partition v n o cs il ir r :
  0 <= o -> isInt64 (n + o) ->
  exists before equal after since until,
    CompareE (mkComparator "d" "<" v n o (mkScope il false)) r = Ok before
    /\ CompareE (mkComparator "d" "=" v n o cs) r = Ok equal
    /\ CompareE (mkComparator "d" ">" v n o (mkScope false ir)) r = Ok after
    /\ CompareE (mkComparator "d" ">" v n o (mkScope true ir)) r = Ok since
    /\ CompareE (mkComparator "d" "<" v n o (mkScope il true)) r = Ok until
    /\ exactlyOne before equal after = true
    /\ equal = since && until.
Proof.
  intros Ho Hno. do 5 eexists.
  do 5 (split; [reflexivity|]).
  unfold IsBeforeDate, IsMatchingDate, IsAfterDate, exactlyOne.
  cbn [numberValue offsetValue intervalScope isLeftInclusive isRightInclusive].
  unfold add64. rewrite (wrap64_id _ Hno).
  destruct (Z.ltb_spec 0 o); split;
    repeat match goal with
           | |- context [?a <? ?b] => destruct (Z.ltb_spec a b)
           | |- context [?a <=? ?b] => destruct (Z.leb_spec a b)
           | |- context [?a =? ?b] => destruct (Z.eqb_spec a b)
           end; simpl; try reflexivity; lia.
Qed.

End ComparatorFacts.

(** ** Bytes that cleaning keeps *)

Lemma inRange_high lo hi x :
  128 <= lo -> inRange lo hi x = true -> isVisible x = false.
Proof.
  unfold inRange, isVisible. intros Hlo [H1 _]%andb_true_iff.
  apply Z.leb_le in H1. destruct (Z.ltb_spec (code x) 128); [lia|done].
Qed.

Lemma isVisible_not_space c : isVisible c = true -> isReSpace c = false.
Proof.
  unfold isVisible, isReSpace, isSpaceRune.
  intros [_ H]%andb_true_iff. apply negb_true_iff in H.
  rewrite !orb_false_iff in *.
  destruct H as [[[[[[[[[[Ha Hb] _] _] _] _] _] _] _] _] _].
  apply andb_false_iff in Ha.
  repeat split; apply Z.eqb_neq; intros e; rewrite e in *;
    (destruct Ha as [Ha|Ha]; [by vm_compute in Ha|by vm_compute in Ha])
    || by vm_compute in Hb.
Qed.

(** The bytes of a white-space rune are not visible. *)
Lemma decodeRune_space s r w :
  decodeRune s = (r, w) -> isSpaceRune r = true ->
  Forall (fun x => isVisible x = false) (take w s).
Proof.
  unfold decodeRune. intros H Hr.
  destruct s as [|b0 rest]; [injection H as <- <-; constructor|].
  destruct (code b0 <? 128) eqn:E0.
  { injection H as <- <-. cbn [take]. rewrite take_0.
    constructor; [|constructor]. unfold isVisible. by rewrite E0, Hr. }
  assert (Hb0 : isVisible b0 = false) by (unfold isVisible; by rewrite E0).
  assert (Herr : forall n, (RuneError, n) = (r, w) -> False).
  { intros n [= <- _]. by vm_compute in Hr. }
  repeat match type of H with
         | (if ?c then _ else _) = _ => destruct c eqn:?
         | match ?l with [] => _ | _ :: _ => _ end = _ => destruct l
         end;
    try (exfalso; by eapply Herr);
    injection H as <- <-; cbn [take]; rewrite ?take_0;
    repeat match goal with
           | H : _ && _ = true |- _ => apply andb_true_iff in H as [? ?]
           end;
    repeat (constructor; [first [exact Hb0|eapply inRange_high; [|eassumption]; try destruct (_ =? _); lia]|]);
    constructor.
Qed.

Lemma decodeLastRune_space s r w :
  decodeLastRune s = (r, w) -> isSpaceRune r = true ->
  Forall (fun x => isVisible x = false) (lastn w s).
Proof.
  unfold decodeLastRune. intros H Hr.
  destruct (rev s) as [|l t] eqn:E.
  { injection H as <- <-. by vm_compute in Hr. }
  assert (Hs : s = rev t ++ [l]).
  { rewrite <- (rev_involutive s), E. done. }
  destruct (code l <? 128) eqn:E0.
  { injection H as <- <-. unfold lastn. rewrite Hs, length_app. cbn [length].
    replace (length (rev t) + 1 - 1)%nat with (length (rev t)) by lia.
    rewrite drop_app_length. constructor; [|constructor].
    unfold isVisible. by rewrite E0, Hr. }
  assert (Htry : forall k r' w',
            (if (k <=? length s)%nat
             then match decodeRune (lastn k s) with
                  | (r0, w0) => if (w0 =? k)%nat then Some (r0, k) else None
                  end
             else None) = Some (r', w') ->
            isSpaceRune r' = true ->
            Forall (fun x => isVisible x = false) (lastn w' s)).
  { intros k r' w' Hk Hr'. destruct (k <=? length s)%nat eqn:Ek; [|done].
    apply Nat.leb_le in Ek.
    destruct (decodeRune (lastn k s)) as [r0 w0] eqn:Ed.
    destruct (Nat.eqb_spec w0 k) as [->|]; [|done]. injection Hk as <- <-.
    pose proof (decodeRune_space _ _ _ Ed Hr') as Hf.
    rewrite take_ge in Hf; [done|]. unfold lastn. rewrite length_drop. lia. }
  repeat match type of H with
         | match ?o with Some _ => _ | None => _ end = _ =>
             destruct o as [[r' w']|] eqn:?
         end;
    try (injection H as <- <-;
         match goal with
         | Heq : _ = Some (_, _) |- _ => exact (Htry _ _ _ Heq Hr)
         end).
  injection H as <- <-. by vm_compute in Hr.
Qed.

Lemma countByte_hidden l c :
  Forall (fun x => isVisible x = false) l -> isVisible c = true ->
  countByte l c = 0.
Proof.
  intros Hl Hc. induction Hl as [|x l Hx _ IH]; [done|].
  cbn [countByte]. rewrite IH.
  destruct (byte_eqb x c) eqn:E; [|done].
  apply byte_eqb_eq in E. congruence.
Qed.

Lemma countByte_take_drop s c n :
  countByte s c = countByte (take n s) c + countByte (drop n s) c.
Proof. by rewrite <- countByte_app, take_drop. Qed.

Lemma trimLeftSpace_go_count c fuel : forall s,
  isVisible c = true -> countByte (trimLeftSpace_go fuel s) c = countByte s c.
Proof.
  induction fuel as [|fuel IH]; intros s Hc; [done|].
  destruct s as [|x s]; [done|]. cbn [trimLeftSpace_go].
  destruct (decodeRune (x :: s)) as [r w] eqn:E.
  destruct (isSpaceRune r) eqn:Er; [|done].
  rewrite IH by done.
  rewrite (countByte_take_drop (x :: s) c w).
  by rewrite (countByte_hidden _ c (decodeRune_space _ _ _ E Er) Hc).
Qed.

Lemma trimRightSpace_go_count c fuel : forall s,
  isVisible c = true -> countByte (trimRightSpace_go fuel s) c = countByte s c.
Proof.
  induction fuel as [|fuel IH]; intros s Hc; [done|].
  destruct s as [|x s]; [done|]. cbn [trimRightSpace_go].
  destruct (decodeLastRune (x :: s)) as [r w] eqn:E.
  destruct (isSpaceRune r) eqn:Er; [|done].
  rewrite IH by done.
  rewrite (countByte_take_drop (x :: s) c (length (x :: s) - w)).
  pose proof (decodeLastRune_space _ _ _ E Er) as Hf. unfold lastn in Hf.
  rewrite (countByte_hidden _ c Hf Hc). lia.
Qed.

Lemma TrimSpace_count s c :
  isVisible c = true -> countByte (TrimSpace s) c = countByte s c.
Proof.
  intros Hc. unfold TrimSpace, trimRightSpace, trimLeftSpace.
  by rewrite trimRightSpace_go_count, trimLeftSpace_go_count.
Qed.

Lemma collapseSpace_count s c :
  isVisible c = true -> countByte (collapseSpace s) c = countByte s c.
Proof.
  intros Hc. pose proof (isVisible_not_space c Hc) as Hs.
  assert (Hne : forall x, isReSpace x = true -> byte_eqb x c = false).
  { intros x Hx. apply byte_eqb_neq. intros ->. congruence. }
  induction s as [|x s IH]; [done|].
  rewrite collapseSpace_cons. cbn [countByte].
  destruct (isReSpace x) eqn:Ex.
  - rewrite (Hne x Ex). destruct s as [|y s].
    { cbn [countByte]. by rewrite (Hne " "%char eq_refl). }
    destruct (isReSpace y) eqn:Ey; [by rewrite IH|].
    cbn [countByte] in *. rewrite IH.
    by rewrite (Hne " "%char eq_refl).
  - cbn [countByte]. by rewrite IH.
Qed.

(** Cleaning keeps every visible byte: as many of each in the cleaned
    text as in the text. *)
Lemma clean_count s c :
  isVisible c = true -> countByte (clean s) c = countByte s c.
Proof.
  intros Hc. unfold clean. by rewrite collapseSpace_count, TrimSpace_count.
Qed.

Lemma countByte_pos s c : 0 < countByte s c <-> c ∈ s.
Proof.
  induction s as [|x s IH]; cbn [countByte].
  - split; [lia|by intros ?%elem_of_nil].
  - pose proof (countByte_nonneg s c).
    destruct (byte_eqb x c) eqn:E.
    + apply byte_eqb_eq in E as ->. split; [intros _; left|lia].
    + apply byte_eqb_neq in E. rewrite elem_of_cons, <- IH.
      split; [intros; right; lia|intros [->|]; [done|lia]].
Qed.

(** ** Where an error comes from *)

Section ErrorFacts.

Variable locale : Locale.
Variable currentYear : Z.
Variable currentMonthIndex : Z.
Variable unicodeToLower : gostring -> gostring.
Variable rangeMem : nat -> gmap gostring Rec -> list Rec.

Local Abbreviation walkE := (walk locale currentYear currentMonthIndex
                          unicodeToLower rangeMem).
Local Abbreviation evaluateE := (evaluate locale currentYear currentMonthIndex
                              unicodeToLower rangeMem).
Local Abbreviation FilterE := (Filter locale currentYear currentMonthIndex
                            unicodeToLower rangeMem).
Local Abbreviation prepareE := (prepare locale currentYear currentMonthIndex
                             unicodeToLower).
Local Abbreviation queryE := (query locale unicodeToLower).
Local Abbreviation keepE := (keep locale unicodeToLower).
Local Abbreviation CompareE := (Compare locale unicodeToLower).
Local Abbreviation doesItMatchE := (doesItMatch locale unicodeToLower).
Local Abbreviation anyMatchE := (anyMatch locale unicodeToLower).
Local Abbreviation isMatchingTextE := (isMatchingText locale unicodeToLower).

Lemma bind_not_Err {A B} (m : res A) (f : A -> res B) :
  (forall e, m <> Err e) -> (forall a e, f a <> Err e) ->
  forall e, m ≫= f <> Err e.
Proof.
  intros Hm Hf e. destruct m as [a|e'|p]; cbn [mbind res_bind].
  - apply Hf.
  - by destruct (Hm e').
  - done.
Qed.

Lemma doesItMatch_not_Err keyword value e :
  doesItMatchE keyword value <> Err e.
Proof.
  unfold doesItMatch. revert e.
  apply bind_not_Err; [intros e; apply index_not_Err|]. intros first.
  apply bind_not_Err.
  - destruct (byte_eqb first dquote); [|done].
    apply bind_not_Err; [intros e; apply index_not_Err|done].
  - intros [|].
    + apply bind_not_Err; [intros e; apply slice_not_Err|done].
    + intros e. by destruct (hasPrefix _ _).
Qed.

Lemma anyMatch_not_Err alternatives value e :
  anyMatchE alternatives value <> Err e.
Proof.
  induction alternatives as [|v rest IH]; cbn [anyMatch]; [done|].
  destruct (doesItMatchE v value) as [[]| |] eqn:E; cbn [mbind res_bind];
    [done|exact IH|by apply doesItMatch_not_Err in E|done].
Qed.

Lemma Compare_errors f r e : CompareE f r = Err e -> compareError e.
Proof.
  unfold Compare, compareError, IsMatchingSender, IsMatchingReceiver,
    IsMatchingLabel, IsMatchingSenderOrReceiver, isMatchingText.
  intros H.
  repeat match type of H with
         | (if ?c then _ else _) = _ => destruct c
         end;
    try discriminate;
    try (injection H as <-; eauto; fail);
    try (by apply anyMatch_not_Err in H).
  destruct (anyMatchE _ (Sender r)) as [[]| |] eqn:E; cbn [mbind res_bind] in H;
    [done|by apply anyMatch_not_Err in H|by apply anyMatch_not_Err in E|done].
Qed.

Lemma keep_errors f records e : keepE f records = Err e -> compareError e.
Proof.
  induction records as [|r rs IH]; cbn [keep]; [done|].
  destruct (CompareE f r) as [ok| |] eqn:Ec; cbn [mbind res_bind].
  - destruct (keepE f rs); cbn [mbind res_bind]; [done| |done].
    intros [= <-]. by apply IH.
  - intros [= <-]. by eapply Compare_errors.
  - done.
Qed.

Lemma query_errors filters : forall records e,
  queryE records filters = Err e -> compareError e.
Proof.
  induction filters as [|f fs IH]; intros records e; cbn [query]; [done|].
  destruct records as [|r rs]; [done|].
  destruct (keepE f (r :: rs)) as [n| |] eqn:Ek; cbn [mbind res_bind].
  - apply IH.
  - intros [= <-]. by eapply keep_errors.
  - done.
Qed.

Lemma prepare_errors cs body e : prepareE cs body = Err e -> preparerError e.
Proof.
  intros H.
  destruct (prepare_go_prepared locale currentYear currentMonthIndex
              unicodeToLower cs (Split (TrimSpace body) _DELIM) [])
    as [[fs Hf]|(e' & He & Hp)]; unfold prepare in H; congruence.
Qed.

Lemma walk_errors c n : forall rest i mem results rs e,
  (length rest <= n)%nat ->
  walkE SliceStable c i rest mem results = Returned rs (Some e) ->
  (rs = [] /\ (preparerError e \/ compareError e)) \/ walkError e.
Proof.
  unfold walkError.
  induction n as [|n IH]; intros rest i mem results rs e Hn H.
  { destruct rest; [done|simpl in Hn; lia]. }
  destruct rest as [|op [|ls rest]]; [done|done|].
  cbn [length] in Hn. cbn [walk] in H.
  destruct (IsFormula op); [injection H as <- <-; eauto 6|].
  destruct (negb (IsFormula ls)); [injection H as <- <-; eauto 6|].
  destruct (prepareE (scopeOf ls) (value ls)) as [filters| |] eqn:Ep;
    cbn [orFail] in H; [| |done].
  2:{ injection H as <- <-. left. split; [done|]. left.
      by eapply prepare_errors. }
  destruct (index (value op) 0) as [o| |] eqn:Ei; cbn [orFail] in H;
    [|by apply index_not_Err in Ei|done].
  destruct (byte_eqb o _UNION).
  { destruct (queryE c filters) as [out| |] eqn:Eq; cbn [orFail] in H;
      [| |done].
    - eapply IH; [|exact H]. lia.
    - injection H as <- <-. left. split; [done|]. right.
      by eapply query_errors. }
  destruct (byte_eqb o _DIFF); [|injection H as <- <-; eauto 6].
  destruct (queryE results filters) as [out| |] eqn:Eq; cbn [orFail] in H;
    [| |done].
  - eapply IH; [|exact H]. lia.
  - injection H as <- <-. left. split; [done|]. right.
    by eapply query_errors.
Qed.

Lemma Filter_error_origin c q rs e :
  FilterE c q = Returned rs (Some e) ->
  (rs = [] /\ (compile (clean q) [] = Err e \/ preparerError e
               \/ compareError e \/ e = ErrIncorrectQuery q))
  \/ walkError e.
Proof.
  unfold Filter, FilterWith. intros H.
  destruct (compile (clean q) []) as [stack| |]; cbn [orFail] in H;
    [|injection H as <- <-; eauto|done].
  destruct stack as [|start rest]; cbn [evaluate] in H; [done|].
  destruct (IsFormula start); [|injection H as <- <-; eauto 6].
  destruct (prepareE (scopeOf start) (value start)) as [filters| |] eqn:Ep;
    cbn [orFail] in H; [| |done].
  2:{ injection H as <- <-. left. split; [done|]. right. left.
      by eapply prepare_errors. }
  destruct (queryE c filters) as [out| |] eqn:Eq; cbn [orFail] in H;
    [| |done].
  2:{ injection H as <- <-. left. split; [done|]. right. right. left.
      by eapply query_errors. }
  apply (walk_errors c (length rest)) in H as [[-> [H|H]]|H]; [| | |done].
  - left. split; [done|]. right. by left.
  - left. split; [done|]. right. right. by left.
  - by right.
Qed.

(** X19: Every error [Filter] returns has one of five origins.  An error
    of the compiler, of the preparer or of a comparison, and the error
    of a query that opens with an operator, come with no record; an
    error of the walk over the stack, a missing operation, a missing
    formula or an unsupported operator, comes with the records gathered
    so far. *)
Theorem Filter_errors c q rs e :
  FilterE c q = Returned rs (Some e) ->
  (rs = [] /\ (compile (clean q) [] = Err e \/ preparerError e
               \/ compareError e \/ e = ErrIncorrectQuery q))
  \/ walkError e.
Proof. apply Filter_error_origin. Qed.

(** X8: [Filter] reports mismatched parentheses exactly when the opening
    and closing brackets of the query, square and round together,
    differ in number; no record comes with the error. *)
Theorem Filter_mismatched_parentheses c q :
  (openCount q <> closeCount q ->
   FilterE c q = Returned [] (Some ErrParenCount))
  /\ (forall rs, FilterE c q = Returned rs (Some ErrParenCount) ->
                 openCount q <> closeCount q).
Proof.
  assert (Hcount : openCount (clean q) = openCount q
                   /\ closeCount (clean q) = closeCount q).
  { unfold openCount, closeCount. by rewrite !clean_count. }
  destruct Hcount as [Ho Hc]. split.
  - intros Hne. unfold Filter, FilterWith.
    assert (H : compile (clean q) [] = Err ErrParenCount).
    { apply compile_paren_count. rewrite Ho, Hc. split; [|done].
      intros Hq. rewrite Hq in Ho, Hc.
      change (openCount []) with 0 in Ho. change (closeCount []) with 0 in Hc.
      congruence. }
    by rewrite H.
  - intros rs H. apply Filter_error_origin in H as [[_ H]|H].
    + destruct H as [H|[H|[H|H]]].
      * apply compile_paren_count in H as [_ H]. by rewrite <- Ho, <- Hc.
      * destruct H as [[s H]|[s H]]; discriminate.
      * destruct H as [(h & o & H)|[h H]]; discriminate.
      * discriminate.
    + destruct H as [[v H]|[[v H]|[o H]]]; discriminate.
Qed.

End ErrorFacts.

(** ** Formulas without a comparison *)

Lemma absent_count s c : c ∉ s -> countByte s c = 0.
Proof.
  intros H. pose proof (countByte_nonneg s c).
  destruct (Z.eq_dec (countByte s c) 0) as [|n]; [done|].
  exfalso. apply H, countByte_pos. lia.
Qed.

Lemma count_absent s c : countByte s c = 0 -> c ∉ s.
Proof. intros H Hin. apply countByte_pos in Hin. lia. Qed.

(** What cleaning and trimming do to a formula body keeps visible
    bytes in, and brings none in. *)
Lemma body_count F c :
  isVisible c = true ->
  countByte (TrimSpace (bodyOf F)) c = countByte F c.
Proof.
  intros Hc. unfold bodyOf.
  by rewrite TrimSpace_count, clean_count, collapseSpace_count.
Qed.

Lemma noSign_absent F c :
  forallb noSign F = true -> anyOf "=><;" c = true -> c ∉ F.
Proof.
  intros HF Hc Hin. rewrite forallb_forall in HF.
  apply list_elem_of_In in Hin. specialize (HF c Hin).
  unfold noSign in HF. by rewrite Hc in HF.
Qed.

Lemma anyOf_visible cls c :
  forallb isVisible (b cls) = true -> anyOf cls c = true -> isVisible c = true.
Proof.
  unfold anyOf. generalize (b cls). intros l Hl Hc.
  apply existsb_exists in Hc as (x & Hx & Hcx).
  apply byte_eqb_eq in Hcx. subst x.
  rewrite forallb_forall in Hl. by apply Hl.
Qed.

Lemma body_noSign F :
  forallb noSign F = true -> forallb noSign (TrimSpace (bodyOf F)) = true.
Proof.
  intros HF. apply forallb_forall. intros c Hin.
  unfold noSign. destruct (anyOf "=><;" c) eqn:Hc; [|done]. exfalso.
  pose proof (anyOf_visible "=><;" c eq_refl Hc) as Hv.
  apply list_elem_of_In, countByte_pos in Hin.
  rewrite (body_count F c Hv) in Hin.
  apply (noSign_absent F c HF Hc). apply countByte_pos. lia.
Qed.

Lemma body_nonempty F :
  existsb isVisible F = true -> TrimSpace (bodyOf F) <> [].
Proof.
  intros (x & Hin & Hx)%existsb_exists Hnil.
  apply list_elem_of_In, countByte_pos in Hin.
  rewrite <- (body_count F x Hx), Hnil in Hin. cbn in Hin. lia.
Qed.

Section MalformedFacts.

Variable locale : Locale.
Variable currentYear : Z.
Variable currentMonthIndex : Z.
Variable unicodeToLower : gostring -> gostring.
Variable rangeMem : nat -> gmap gostring Rec -> list Rec.

Local Abbreviation FilterE := (Filter locale currentYear currentMonthIndex
                            unicodeToLower rangeMem).
Local Abbreviation prepareE := (prepare locale currentYear currentMonthIndex
                             unicodeToLower).
Local Abbreviation queryE := (query locale unicodeToLower).

(** A formula with no comparison sign is prepared into the zero
    comparator. *)
Lemma prepare_noSign cs F :
  forallb noSign F = true -> existsb isVisible F = true ->
  prepareE cs (bodyOf F) = Ok [mkComparator zero zero [] 0 0 cs].
Proof.
  intros HF Hvis. unfold prepare.
  pose proof (body_noSign F HF) as Hs.
  pose proof (body_nonempty F Hvis) as Hne.
  set (T := TrimSpace (bodyOf F)) in *.
  rewrite Split_absent.
  2:{ apply forallb_forall. intros x Hx. rewrite forallb_forall in Hs.
      specialize (Hs x Hx). unfold noSign in Hs.
      apply negb_true_iff, byte_eqb_neq. intros ->. done. }
  cbn [prepare_go]. destruct T as [|x T']; [done|]. cbn [length Nat.eqb].
  unfold prepareCondition. rewrite FORMULA_none; [done|].
  apply forallb_forall. intros y Hy. rewrite forallb_forall in Hs.
  specialize (Hs y Hy). unfold noSign in Hs.
  apply negb_true_iff. apply negb_true_iff in Hs.
  unfold anyOf in *. cbn [b list_ascii_of_string existsb] in *.
  rewrite !orb_false_iff in *. tauto.
Qed.

(** X20: A formula without any of the signs [=], [>], [<] and without a
    delimiter makes no condition: on a collection with a record
    [Filter] returns the error of an unsupported header, the zero byte,
    and on the empty collection it returns no record and no error,
    since no comparison is made. *)
Theorem Filter_no_comparison c F :
  noBrackets F = true -> forallb noSign F = true ->
  existsb isVisible F = true ->
  FilterE c (single F)
  = match c with
    | [] => Returned [] None
    | _ :: _ => Returned [] (Some (ErrUnsupportedHeader zero))
    end.
Proof.
  intros HB HF Hvis. unfold Filter.
  rewrite (FilterWith_single _ _ _ _ _ _ c F HB).
  rewrite (prepare_noSign _ F HF Hvis). cbn [orFail].
  by destruct c.
Qed.

End MalformedFacts.

(** ** Months *)

Lemma noDigit_head x v : noDigit (x :: v) = true -> isDigit x = false.
Proof. unfold noDigit. cbn. by intros [?%negb_true_iff _]%andb_true_iff. Qed.

Lemma noDigit_app u v : noDigit (u ++ v) = true -> noDigit v = true.
Proof. unfold noDigit. rewrite forallb_app. by intros [_ ?]%andb_true_iff. Qed.

Lemma digits_not_noDigit w :
  forallb isDigit w = true -> w <> [] -> noDigit w = false.
Proof.
  destruct w as [|x w]; [done|]. cbn. intros [Hx _]%andb_true_iff _.
  unfold noDigit. cbn. by rewrite Hx.
Qed.

(** A value without a digit is matched by none of the date patterns. *)
Lemma noDigit_no_pattern v :
  noDigit v = true ->
  FindSubmatch _DATE_REGEX_DD_MONTH 2 v = None
  /\ FindSubmatch _DATE_REGEX_DD_MONTH_YYYY 3 v = None
  /\ FindSubmatch _DATE_REGEX_MONTH_YYYY 2 v = None
  /\ FindSubmatch _DATE_REGEX_DD_MM_YYYY 3 v = None
  /\ FindSubmatch _DATE_REGEX_YYYY_MM_DD 3 v = None.
Proof.
  intros Hv.
  assert (Hhead : forall w rest, v = w ++ rest -> forallb isDigit w = true ->
                                 (1 <= length w)%nat -> False).
  { intros w rest -> Hw Hl. destruct w as [|x w]; [cbn in Hl; lia|].
    cbn in Hw. apply andb_true_iff in Hw as [Hx _].
    apply noDigit_head in Hv. congruence. }
  assert (Htail : forall pre w, v = pre ++ w -> forallb isDigit w = true ->
                                length w = 4%nat -> False).
  { intros pre w -> Hw Hl. apply noDigit_app in Hv.
    rewrite digits_not_noDigit in Hv; [done|done|].
    intros ->. done. }
  repeat split.
  - destruct (FindSubmatch _ 2 v) eqn:E; [|done]. exfalso.
    apply DD_MONTH_groups in E as (day & ws & month & _ & Hv' & Hd & Hl & _).
    eapply Hhead; [exact Hv'|done|lia].
  - destruct (FindSubmatch _ 3 v) eqn:E; [|done]. exfalso.
    apply DD_MONTH_YYYY_groups in E
      as (day & ws & month & ws' & year & _ & Hv' & Hd & Hl & _).
    eapply Hhead; [exact Hv'|done|lia].
  - destruct (FindSubmatch _ 2 v) eqn:E; [|done]. exfalso.
    apply MONTH_YYYY_groups in E
      as (month & ws & year & _ & Hv' & _ & _ & _ & _ & Hy & Hyl).
    rewrite app_assoc in Hv'. by eapply Htail.
  - destruct (FindSubmatch _ 3 v) eqn:E; [|done]. exfalso.
    apply DD_MM_YYYY_groups in E
      as (day & s1 & month & s2 & year & _ & Hv' & Hd & Hl & _).
    eapply Hhead; [exact Hv'|done|lia].
  - destruct (FindSubmatch _ 3 v) eqn:E; [|done]. exfalso.
    apply YYYY_MM_DD_groups in E
      as (year & month & day & _ & Hv' & Hy & Hyl & _).
    eapply Hhead; [exact Hv'|done|lia].
Qed.

(** *** The calendar, month by month *)

Lemma unixDate_in_year y m d :
  1 <= m <= 12 ->
  unixDate y m d
  = 86400 * (daysSinceEpoch y + daysBefore m
             + (if isLeap y && (3 <=? m) then 1 else 0) + (d - 1)).
Proof.
  intros Hm. unfold unixDate. cbv zeta.
  replace ((m - 1) / 12) with 0 by (symmetry; apply Z.div_small; lia).
  replace ((m - 1) mod 12 + 1) with m by (rewrite Z.mod_small; lia).
  by replace (y + 0) with y by lia.
Qed.

Lemma daysSinceEpoch_succ y :
  daysSinceEpoch (y + 1) = daysSinceEpoch y + 365 + (if isLeap y then 1 else 0).
Proof.
  unfold daysSinceEpoch, isLeap. cbv zeta.
  replace (y + 1 - 1) with y by lia.
  destruct (Z.eqb_spec (y mod 4) 0), (Z.eqb_spec (y mod 100) 0),
    (Z.eqb_spec (y mod 400) 0); cbn [negb andb orb];
    Z.div_mod_to_equations; lia.
Qed.

Lemma unixDate_thirteenth y d :
  unixDate y 13 d = 86400 * (daysSinceEpoch (y + 1) + (d - 1)).
Proof.
  change (unixDate y 13 d)
    with (86400 * (daysSinceEpoch (y + 1) + 0
                   + (if isLeap (y + 1) && false then 1 else 0) + (d - 1))).
  rewrite andb_false_r. cbv iota. lia.
Qed.

Lemma month_table m (leap : bool) :
  1 <= m <= 11 ->
  daysBefore (m + 1) + (if leap && (3 <=? m + 1) then 1 else 0) + (0 - 1)
  = daysBefore m + (if leap && (3 <=? m) then 1 else 0)
    + ((if (m =? 2) && leap then 29
        else nth (Z.to_nat (m - 1))
               [31; 28; 31; 30; 31; 30; 31; 31; 30; 31; 30; 31] 0) - 1).
Proof.
  intros Hm.
  assert (Hcases : m = 1 \/ m = 2 \/ m = 3 \/ m = 4 \/ m = 5 \/ m = 6 \/ m = 7
                   \/ m = 8 \/ m = 9 \/ m = 10 \/ m = 11) by lia.
  destruct leap;
    repeat (destruct Hcases as [->|Hcases]; [reflexivity|]);
    subst; reflexivity.
Qed.

(** The day before the first of the next month is the last day of the
    month. *)
Lemma unixDate_month_end y m :
  1 <= m <= 12 -> unixDate y (m + 1) 0 = unixDate y m (daysIn y m).
Proof.
  intros Hm. destruct (Z.eq_dec m 12) as [->|Hne].
  - change (12 + 1) with 13.
    rewrite unixDate_thirteenth, unixDate_in_year by lia.
    rewrite daysSinceEpoch_succ.
    change (daysIn y 12) with 31. change (daysBefore 12) with 334.
    change (3 <=? 12) with true. rewrite andb_true_r.
    destruct (isLeap y); lia.
  - rewrite !unixDate_in_year by lia. unfold daysIn.
    pose proof (month_table m (isLeap y) ltac:(lia)) as H. lia.
Qed.

Lemma unixDate_bounds y m d :
  0 <= y <= 9999 -> 1 <= m <= 12 -> 0 <= d <= 31 ->
  - 2 ^ 41 <= unixDate y m d <= 2 ^ 41.
Proof.
  intros Hy Hm Hd. rewrite unixDate_in_year by lia.
  assert (Hb : 0 <= daysBefore m <= 334).
  { assert (Hcases : m = 1 \/ m = 2 \/ m = 3 \/ m = 4 \/ m = 5 \/ m = 6
                     \/ m = 7 \/ m = 8 \/ m = 9 \/ m = 10 \/ m = 11
                     \/ m = 12) by lia.
    repeat (destruct Hcases as [->|Hcases]; [by vm_compute|]).
    subst. by vm_compute. }
  assert (Hs : -800000 <= daysSinceEpoch y <= 3000000).
  { unfold daysSinceEpoch. cbv zeta. Z.div_mod_to_equations. lia. }
  change (2 ^ 41) with 2199023255552.
  destruct (isLeap y && (3 <=? m)); lia.
Qed.

Lemma daysIn_bounds y m : 1 <= m <= 12 -> 28 <= daysIn y m <= 31.
Proof.
  intros Hm. unfold daysIn.
  assert (Hcases : m = 1 \/ m = 2 \/ m = 3 \/ m = 4 \/ m = 5 \/ m = 6 \/ m = 7
                   \/ m = 8 \/ m = 9 \/ m = 10 \/ m = 11 \/ m = 12) by lia.
  destruct (isLeap y);
    repeat (destruct Hcases as [->|Hcases]; [by vm_compute|]);
    subst; by vm_compute.
Qed.

Lemma unixDate_day y m d :
  1 <= m <= 12 -> unixDate y m d = unixDate y m 1 + 86400 * (d - 1).
Proof. intros Hm. rewrite !unixDate_in_year by lia. lia. Qed.

Section MonthFacts.

Variable locale : Locale.
Variable currentYear : Z.
Variable currentMonthIndex : Z.
Variable unicodeToLower : gostring -> gostring.

Local Abbreviation fillComparatorE :=
  (fillComparator locale currentYear currentMonthIndex unicodeToLower).
Local Abbreviation CompareE := (Compare locale unicodeToLower).

(** X21: A date condition whose value, trimmed and in lower case, has no
    digit and is the prefix of a month name of the locale, one of the
    first twelve: the comparator ranges over that month, from its first
    day to its last, both at 00:00 UTC, in the current year, or in the
    year before when the month is later than the current month. *)
Theorem date_month_name cs tokens2 i :
  let v := TrimSpace (ToLower unicodeToLower tokens2) in
  noDigit v = true ->
  Month locale v = i -> 0 <= i < 12 ->
  1 <= currentYear <= 9999 ->
  let month := i + 1 in
  let year := yearOfMonth currentYear currentMonthIndex month in
  exists comp,
    fillComparatorE cs (b "d=") tokens2 = Ok comp
    /\ numberValue comp = unixDate year month 1
    /\ offsetValue comp = 86400 * (daysIn year month - 1)
    /\ forall r,
         CompareE comp r
         = Ok ((unixDate year month 1 <=? Date r)
               && (Date r <=? unixDate year month (daysIn year month))).
Proof.
  intros v Hv Hm Hi Hcy month year.
  destruct (noDigit_no_pattern v Hv) as (H1 & H2 & H3 & H4 & H5).
  assert (Hmonth : 1 <= month <= 12) by (unfold month; lia).
  assert (Hyear : 0 <= year <= 9999).
  { unfold year, yearOfMonth. destruct (_ <? _); lia. }
  pose proof (unixDate_month_end year month Hmonth) as Hend.
  pose proof (unixDate_day year month (daysIn year month) Hmonth) as Hday.
  pose proof (daysIn_bounds year month Hmonth) as Hdays.
  pose proof (unixDate_bounds year month 1 Hyear Hmonth ltac:(lia)) as Hb.
  change (2 ^ 41) with 2199023255552 in Hb.
  assert (Hoff : sub64 (unixDate year (month + 1) 0) (unixDate year month 1)
                 = 86400 * (daysIn year month - 1)).
  { unfold sub64. rewrite Hend, Hday.
    rewrite wrap64_small; [lia|].
    change (2 ^ 63) with 9223372036854775808. lia. }
  exists (mkComparator "d" "=" v (unixDate year month 1)
            (86400 * (daysIn year month - 1)) cs).
  split.
  - unfold fillComparator. simpl index. cbn [mbind res_bind].
    simpl byte_eqb. cbv iota. fold v. unfold coerceDate. cbn [bytesValue].
    rewrite H1, H2, H3, H4, H5, Hm.
    destruct (Z.ltb_spec (-1) i); [|lia].
    unfold monthRange, inferYear. fold month. fold (yearOfMonth currentYear currentMonthIndex month).
    fold year. unfold setOffset, setNumber.
    cbn [header operator bytesValue numberValue offsetValue intervalScope].
    by rewrite Hoff.
  - split; [done|]. split; [done|]. intros r.
    rewrite Compare_date_equal. f_equal.
    destruct (Z.ltb_spec 0 (86400 * (daysIn year month - 1))); [|lia].
    unfold add64. rewrite wrap64_small.
    + by rewrite Hday.
    + change (2 ^ 63) with 9223372036854775808. lia.
Qed.

End MonthFacts.

(** ** Dates written year first *)

Lemma digit_not_space x : isDigit x = true -> isReSpace x = false.
Proof.
  unfold isDigit, inRange, isReSpace.
  intros [H1 H2]%andb_true_iff. apply Z.leb_le in H1.
  repeat (apply orb_false_iff; split); apply Z.eqb_neq; lia.
Qed.

Lemma digit_not_sep x : isDigit x = true -> isDateSep x = false.
Proof.
  intros Hx. unfold isDateSep, anyOf. cbn [b list_ascii_of_string existsb].
  repeat (apply orb_false_iff; split); try done;
    apply byte_eqb_neq; intros ->; done.
Qed.

Lemma rmatch_bol s cs k : rmatch Bol 0 s cs k = k 0%nat s cs.
Proof. reflexivity. Qed.

Lemma rmatch_eol pos cs k : rmatch Eol pos [] cs k = k pos [] cs.
Proof. reflexivity. Qed.

Lemma isoDate_patterns y1 y2 y3 y4 m1 m2 d1 d2 :
  forallb isDigit [y1; y2; y3; y4; m1; m2; d1; d2] = true ->
  let v := isoDate y1 y2 y3 y4 m1 m2 d1 d2 in
  FindSubmatch _DATE_REGEX_DD_MONTH 2 v = None
  /\ FindSubmatch _DATE_REGEX_DD_MONTH_YYYY 3 v = None
  /\ FindSubmatch _DATE_REGEX_MONTH_YYYY 2 v = None
  /\ FindSubmatch _DATE_REGEX_DD_MM_YYYY 3 v = None
  /\ FindSubmatch _DATE_REGEX_YYYY_MM_DD 3 v
     = Some [[y1; y2; y3; y4]; [m1; m2]; [d1; d2]].
Proof.
  cbn [forallb]. rewrite !andb_true_iff.
  intros (Hy1 & Hy2 & Hy3 & Hy4 & Hm1 & Hm2 & Hd1 & Hd2 & _).
  set (v := isoDate y1 y2 y3 y4 m1 m2 d1 d2).
  pose proof (digit_not_space _ Hy2) as Hs2.
  pose proof (digit_not_space _ Hy3) as Hs3.
  pose proof (digit_not_sep _ Hy2) as Hp2.
  pose proof (digit_not_sep _ Hy3) as Hp3.
  assert (Hhead : forall day ws rest,
            v = day ++ ws ++ rest -> (1 <= length day <= 2)%nat ->
            forallb isReSpace ws = true -> (1 <= length ws)%nat -> False).
  { intros day ws rest Hv Hl Hws Hwl. unfold v, isoDate in Hv.
    destruct ws as [|sp ws]; [cbn in Hwl; lia|].
    cbn in Hws. apply andb_true_iff in Hws as [Hsp _].
    destruct day as [|a [|c [|? ?]]]; cbn in Hl, Hv; try lia;
      simplify_eq; congruence. }
  repeat split.
  - destruct (FindSubmatch _ 2 v) eqn:E; [|done]. exfalso.
    apply DD_MONTH_groups in E
      as (day & ws & month & _ & Hv & _ & Hl & Hws & Hwl & _).
    by eapply Hhead.
  - destruct (FindSubmatch _ 3 v) eqn:E; [|done]. exfalso.
    apply DD_MONTH_YYYY_groups in E
      as (day & ws & month & ws' & year & _ & Hv & _ & Hl & Hws & Hwl & _).
    by eapply Hhead.
  - destruct (FindSubmatch _ 2 v) eqn:E; [|done]. exfalso.
    apply MONTH_YYYY_groups in E
      as (month & ws & year & _ & Hv & _ & _ & _ & _ & Hy & Hyl).
    unfold v, isoDate in Hv.
    change [y1; y2; y3; y4; "-"%char; m1; m2; "-"%char; d1; d2]
      with ([y1; y2; y3; y4; "-"%char; m1] ++ [m2; "-"%char; d1; d2]) in Hv.
    rewrite (app_assoc month) in Hv.
    apply app_inj_2 in Hv as [_ <-]; [|by rewrite Hyl].
    cbn in Hy. rewrite Hm2 in Hy. done.
  - destruct (FindSubmatch _ 3 v) eqn:E; [|done]. exfalso.
    apply DD_MM_YYYY_groups in E
      as (day & s1 & month & s2 & year & _ & Hv & _ & Hl & Hs1 & _).
    unfold v, isoDate in Hv.
    destruct day as [|a [|c [|? ?]]]; cbn in Hl, Hv; try lia;
      simplify_eq; congruence.
  - unfold FindSubmatch, search, v, isoDate.
    assert (Hm : rmatch _DATE_REGEX_YYYY_MM_DD 0
                   [y1; y2; y3; y4; "-"%char; m1; m2; "-"%char; d1; d2] []
                   (fun _ _ cs => Some cs)
                 = Some [(3, (8, 10)); (2, (5, 7)); (1, (0, 4))]%nat).
    { unfold _DATE_REGEX_YYYY_MM_DD, reD4, reD2, reD, reLit. cbn [seqs].
      rewrite rmatch_seq, rmatch_bol.
      repeat first [rewrite rmatch_seq | rewrite rmatch_group
                   | rewrite rmatch_chr | rewrite rmatch_eol
                   | rewrite Hy1 | rewrite Hy2 | rewrite Hy3 | rewrite Hy4
                   | rewrite Hm1 | rewrite Hm2 | rewrite Hd1 | rewrite Hd2
                   | progress change (byte_eqb "-" "-") with true
                   | progress cbv beta iota].
      reflexivity. }
    rewrite Hm. reflexivity.
Qed.

Section IsoFacts.

Variable locale : Locale.
Variable currentYear : Z.
Variable currentMonthIndex : Z.
Variable unicodeToLower : gostring -> gostring.

Local Abbreviation fillComparatorE :=
  (fillComparator locale currentYear currentMonthIndex unicodeToLower).
Local Abbreviation CompareE := (Compare locale unicodeToLower).

(** X22: A date condition whose value, trimmed and in lower case, is
    written [YYYY-MM-DD]: the three groups parse, and with the day from
    1 to 31 and the month from 1 to 12 the comparator accepts exactly
    the records at that date, 00:00 UTC; with the day or the month outside
    it accepts exactly the records at Unix time 0, and no error is
    returned. *)
Theorem date_year_first cs tokens2 y1 y2 y3 y4 m1 m2 d1 d2 :
  TrimSpace (ToLower unicodeToLower tokens2)
  = isoDate y1 y2 y3 y4 m1 m2 d1 d2 ->
  forallb isDigit [y1; y2; y3; y4; m1; m2; d1; d2] = true ->
  exists year month day comp,
    ParseInt [y1; y2; y3; y4] 16 = Some year
    /\ ParseInt [m1; m2] 8 = Some month
    /\ ParseInt [d1; d2] 8 = Some day
    /\ fillComparatorE cs (b "d=") tokens2 = Ok comp
    /\ numberValue comp
       = (if dayAndMonth day month then unixDate year month day else 0)
    /\ offsetValue comp = 0
    /\ forall r, CompareE comp r = Ok (Date r =? numberValue comp).
Proof.
  intros Hv Hd.
  destruct (isoDate_patterns y1 y2 y3 y4 m1 m2 d1 d2 Hd)
    as (H1 & H2 & H3 & H4 & H5).
  cbn [forallb] in Hd. rewrite !andb_true_iff in Hd.
  destruct Hd as (Hy1 & Hy2 & Hy3 & Hy4 & Hm1 & Hm2 & Hd1 & Hd2 & _).
  destruct (ParseInt_digits [y1; y2; y3; y4] 16) as (year & Hyear & _);
    [cbn; by rewrite Hy1, Hy2, Hy3, Hy4|done|done|].
  destruct (ParseInt_digits [m1; m2] 8) as (month & Hmonth & _);
    [cbn; by rewrite Hm1, Hm2|done|done|].
  destruct (ParseInt_digits [d1; d2] 8) as (day & Hday & _);
    [cbn; by rewrite Hd1, Hd2|done|done|].
  exists year, month, day.
  exists (mkComparator "d" "=" (isoDate y1 y2 y3 y4 m1 m2 d1 d2)
            (if dayAndMonth day month then unixDate year month day else 0)
            0 cs).
  do 3 (split; [done|]). split.
  - unfold fillComparator. simpl index. cbn [mbind res_bind].
    simpl byte_eqb. cbv iota. rewrite Hv. unfold coerceDate.
    cbn [bytesValue]. rewrite H1, H2, H3, H4, H5, Hyear, Hmonth, Hday.
    unfold dayAndMonth. by destruct (_ && _).
  - split; [done|]. split; [done|]. intros r.
    by rewrite Compare_date_equal.
Qed.

End IsoFacts.

(** ** Amounts written with a comma *)

Lemma count_contains s c : 0 < countByte s c -> contains s [c] = true.
Proof.
  intros H. destruct (contains s [c]) eqn:E; [done|].
  apply contains_single in E. lia.
Qed.

Lemma filter_digits w c :
  forallb isDigit w = true -> isDigit c = false ->
  List.filter (fun x => negb (byte_eqb x c)) w = w.
Proof.
  intros Hw Hc. induction w as [|x w IH]; [done|].
  cbn [forallb] in Hw. apply andb_true_iff in Hw as [Hx Hw].
  cbn [List.filter].
  assert (Hne : byte_eqb x c = false).
  { apply byte_eqb_neq. intros ->. congruence. }
  rewrite Hne. cbn [negb]. by rewrite (IH Hw).
Qed.

Section CommaFacts.

Variable locale : Locale.
Variable currentYear : Z.
Variable currentMonthIndex : Z.
Variable unicodeToLower : gostring -> gostring.

Local Abbreviation fillComparatorE :=
  (fillComparator locale currentYear currentMonthIndex unicodeToLower).
Local Abbreviation CompareE := (Compare locale unicodeToLower).

(** X23: An amount condition written with a comma, digits on both sides
    and nothing else, eighteen digits at most: the comma is dropped
    and the digits are read as they stand, so that the comparator
    accepts exactly the records whose absolute amount is that number;
    no range is built. *)
Theorem amount_with_comma cs tokens2 i f :
  ToLower unicodeToLower tokens2 = i ++ ","%char :: f ->
  forallb isDigit (i ++ f) = true ->
  i ++ f <> [] -> (length (i ++ f) <= 18)%nat ->
  exists n comp,
    ParseInt (i ++ f) 64 = Some n
    /\ fillComparatorE cs (b "s=") tokens2 = Ok comp
    /\ numberValue comp = n /\ offsetValue comp = 0
    /\ forall r, CompareE comp r = Ok (absAmount r =? n).
Proof.
  intros Hv Hd Hne Hlen.
  destruct (ParseInt_digits (i ++ f) 64 Hd Hne) as (n & Hn & _).
  { change (2 ^ (64 - 1)) with 9223372036854775808.
    assert (10 ^ Z.of_nat (length (i ++ f)) <= 10 ^ 18)
      by (apply Z.pow_le_mono_r; lia).
    change (10 ^ 18) with 1000000000000000000 in *. lia. }
  exists n.
  exists (mkComparator "s" "=" (TrimSpace (i ++ ","%char :: f)) n 0 cs).
  split; [done|]. split.
  - unfold fillComparator. simpl index. cbn [mbind res_bind].
    simpl byte_eqb. cbv iota. rewrite Hv. unfold coerceSum.
    cbn [bytesValue].
    assert (Hc : contains (TrimSpace (i ++ ","%char :: f)) (b ",") = true).
    { apply count_contains. rewrite TrimSpace_count by reflexivity.
      rewrite countByte_app. cbn [countByte].
      change (byte_eqb "," ",") with true.
      pose proof (countByte_nonneg i ","%char).
      pose proof (countByte_nonneg f ","%char). lia. }
    rewrite Hc. change (b ",") with [","%char]. rewrite ReplaceAll_byte.
    rewrite List.filter_app. cbn [List.filter].
    change (negb (byte_eqb "," ",")) with false. cbv iota.
    rewrite forallb_app in Hd. apply andb_true_iff in Hd as [Hi Hf].
    rewrite (filter_digits i ","%char Hi eq_refl),
      (filter_digits f ","%char Hf eq_refl).
    by rewrite Hn.
  - split; [done|]. split; [done|]. intros r.
    by rewrite Compare_sum_equal.
Qed.

End CommaFacts.

(** ** Conditions after an empty one *)

Section EmptyConditionFacts.

Variable locale : Locale.
Variable currentYear : Z.
Variable currentMonthIndex : Z.
Variable unicodeToLower : gostring -> gostring.

Local Abbreviation prepare_goE :=
  (prepare_go locale currentYear currentMonthIndex unicodeToLower).
Local Abbreviation prepareE := (prepare locale currentYear currentMonthIndex
                             unicodeToLower).

Lemma prepare_go_stop cs l1 l2 : forall filters,
  prepare_goE cs (l1 ++ [] :: l2) filters = prepare_goE cs l1 filters.
Proof.
  induction l1 as [|condition l1 IH]; intros filters; cbn [app prepare_go].
  - done.
  - destruct (length condition =? 0)%nat; [done|].
    destruct (prepareCondition _ _ _ _ cs condition); cbn [mbind res_bind];
      [apply IH|done|done].
Qed.

(** X24: The first empty condition ends the body: what follows two
    delimiters in a row is not prepared, be it well formed or not, and
    the body gives the comparators of what stands before them. *)
Theorem prepare_stops_at_empty cs A B :
  TrimSpace A = A ->
  TrimSpace (A ++ b ";;" ++ B) = A ++ b ";;" ++ B ->
  prepareE cs (A ++ b ";;" ++ B) = prepareE cs A.
Proof.
  intros HA HAB. unfold prepare. rewrite HAB, HA.
  change (A ++ b ";;" ++ B) with (A ++ _DELIM :: (_DELIM :: B)).
  rewrite Split_app_sep. cbn [Split].
  change (byte_eqb _DELIM _DELIM) with true. cbv iota.
  apply prepare_go_stop.
Qed.

End EmptyConditionFacts.

(** ** The months of a locale *)

Lemma Month_go_spec months name : forall i0,
  (Month_go months i0 name = -1
   /\ Forall (fun m => hasPrefix m name = false) months)
  \/ (exists i m,
        Month_go months i0 name = i0 + Z.of_nat i
        /\ months !! i = Some m /\ hasPrefix m name = true
        /\ forall j m', (j < i)%nat -> months !! j = Some m' ->
                        hasPrefix m' name = false).
Proof.
  induction months as [|m rest IH]; intros i0; cbn [Month_go].
  - left. split; [done|constructor].
  - destruct (hasPrefix m name) eqn:E.
    + right. exists 0%nat, m. repeat split; [lia|done|]. intros j m' Hj. lia.
    + destruct (IH (i0 + 1)) as [[H1 H2]|(i & m1 & H1 & H2 & H3 & H4)].
      * left. split; [done|by constructor].
      * right. exists (S i), m1. split; [lia|]. split; [done|]. split; [done|].
        intros [|j] m' Hj Hm'; cbn in Hm'.
        -- by injection Hm' as <-.
        -- apply (H4 j m'); [lia|done].
Qed.

(** X25: [Month] returns the index of the first month name that starts
    with the given text, counting from 0, and -1 when no month name
    starts with it. *)
Theorem Month_first lc name :
  (Month lc name = -1
   /\ Forall (fun m => hasPrefix m name = false) (Months lc))
  \/ (exists i m,
        Month lc name = Z.of_nat i
        /\ Months lc !! i = Some m /\ hasPrefix m name = true
        /\ forall j m', (j < i)%nat -> Months lc !! j = Some m' ->
                        hasPrefix m' name = false).
Proof. apply (Month_go_spec (Months lc) name 0). Qed.

(** ** Folding text by the locale *)

Lemma replaceAll_absent old new s :
  old <> [] -> contains s old = false -> replaceAll_go 0 s old new = s.
Proof.
  intros Hold. induction s as [|x s IH]; [done|].
  cbn [contains replaceAll_go].
  intros [H1 H2]%orb_false_iff. rewrite H1. by rewrite (IH H2).
Qed.

Lemma ReplaceAll_absent s old new :
  old <> [] -> contains s old = false -> ReplaceAll s old new = s.
Proof.
  intros Hold Hc. unfold ReplaceAll. destruct old; [done|].
  by apply replaceAll_absent.
Qed.

Lemma fold_untouched (pairs : list (gostring * gostring)) text :
  Forall (fun kv => fst kv <> [] /\ contains text (fst kv) = false) pairs ->
  fold_left (fun text kv => ReplaceAll text (fst kv) (snd kv)) pairs text
  = text.
Proof.
  induction 1 as [|kv pairs [Hk Hc] _ IH]; [done|].
  cbn [fold_left]. by rewrite (ReplaceAll_absent _ _ _ Hk Hc).
Qed.

(** X26: [Translate] returns a text as it is when none of the keys of the
    locale's table, all non-empty, occurs in it. *)
Theorem Translate_untouched lc text :
  Forall (fun kv => fst kv <> [] /\ contains text (fst kv) = false)
    (Unicode lc) ->
  Translate lc text = text.
Proof. apply fold_untouched. Qed.

(** ** The form of a cleaned text *)

Lemma isReSpace_rune x : isReSpace x = true -> isSpaceRune (code x) = true.
Proof.
  unfold isReSpace, isSpaceRune. intros H.
  rewrite !orb_true_iff, !Z.eqb_eq in H.
  destruct H as [[[[H|H]|H]|H]|H]; rewrite H; reflexivity.
Qed.

Lemma isReSpace_ascii x : isReSpace x = true -> (code x <? 128) = true.
Proof.
  unfold isReSpace. intros H.
  rewrite !orb_true_iff, !Z.eqb_eq in H.
  destruct H as [[[[H|H]|H]|H]|H]; rewrite H; reflexivity.
Qed.

Lemma trimRightSpace_go_take fuel : forall s,
  exists k, trimRightSpace_go fuel s = take k s.
Proof.
  induction fuel as [|fuel IH]; intros s.
  { exists (length s). by rewrite take_ge. }
  destruct s as [|x s]; [by exists 0%nat|]. cbn [trimRightSpace_go].
  destruct (decodeLastRune (x :: s)) as [r w].
  destruct (isSpaceRune r).
  - destruct (IH (take (length (x :: s) - w) (x :: s))) as [k ->].
    exists (k `min` (length (x :: s) - w))%nat. by rewrite take_take.
  - exists (length (x :: s)). by rewrite take_ge.
Qed.

Lemma isReSpace_asciiSpace x : isReSpace x = true -> isAsciiSpace x = true.
Proof.
  intros H. unfold isAsciiSpace.
  by rewrite (isReSpace_ascii x H), (isReSpace_rune x H).
Qed.

Lemma not_asciiSpace_not_re x : isAsciiSpace x = false -> isReSpace x = false.
Proof.
  intros H. destruct (isReSpace x) eqn:E; [|done].
  by rewrite (isReSpace_asciiSpace x E) in H.
Qed.

Lemma TrimSpace_opens s : opensTidy (TrimSpace s) = true.
Proof.
  unfold TrimSpace, trimRightSpace.
  destruct (trimRightSpace_go_take (length (trimLeftSpace s))
              (trimLeftSpace s)) as [k ->].
  destruct (trimLeftSpace_done s) as [->|H]; [by rewrite take_nil|].
  destruct (trimLeftSpace s) as [|x t]; [by rewrite take_nil|].
  destruct k; [done|]. cbn [take opensTidy].
  destruct (isAsciiSpace x) eqn:E; [|done].
  apply andb_true_iff in E as [E1 E2].
  rewrite (decodeRune_ascii x t E1) in H.
  cbn [fst] in H. by rewrite E2 in H.
Qed.

Lemma TrimSpace_ends s : endsTidy (TrimSpace s) = true.
Proof.
  unfold endsTidy.
  destruct (TrimSpace_right_done s) as [->|H]; [done|].
  destruct (last (TrimSpace s)) as [y|] eqn:E; [|done].
  apply last_Some in E as [t E]. rewrite E in H.
  destruct (isAsciiSpace y) eqn:Ey; [|done].
  apply andb_true_iff in Ey as [E1 E2].
  rewrite (decodeLastRune_ascii t y E1) in H.
  cbn [fst] in H. by rewrite E2 in H.
Qed.

Lemma collapseSpace_opens t :
  opensTidy t = true -> opensTidy (collapseSpace t) = true.
Proof.
  destruct t as [|x t]; [done|]. cbn [opensTidy].
  intros H. rewrite collapseSpace_cons.
  rewrite (not_asciiSpace_not_re x) by (by apply negb_true_iff).
  exact H.
Qed.

Lemma collapseSpace_head x t :
  isReSpace x = false ->
  exists t', collapseSpace (x :: t) = x :: t'.
Proof. intros H. rewrite collapseSpace_cons, H. eauto. Qed.

Lemma collapseSpace_nonempty t : t <> [] -> collapseSpace t <> [].
Proof.
  induction t as [|x t IH]; [done|]. intros _. rewrite collapseSpace_cons.
  destruct (isReSpace x); [|done].
  destruct t as [|y t]; [done|].
  destruct (isReSpace y); [by apply IH|done].
Qed.

Lemma endsTidy_single x : endsTidy [x] = true -> isReSpace x = false.
Proof.
  unfold endsTidy. cbn [last]. intros H.
  apply not_asciiSpace_not_re. by apply negb_true_iff.
Qed.

Lemma collapseSpace_spaced t :
  endsTidy t = true -> spaced (collapseSpace t) = true.
Proof.
  induction t as [|x t IH]; [done|]. intros Hend.
  assert (Hend' : t <> [] -> endsTidy t = true).
  { intros Hne. unfold endsTidy in *. destruct t as [|y t]; [done|].
    by rewrite last_cons_cons in Hend. }
  rewrite collapseSpace_cons. destruct (isReSpace x) eqn:Ex.
  - destruct t as [|y t].
    { by rewrite (endsTidy_single x Hend) in Ex. }
    specialize (IH (Hend' ltac:(done))).
    destruct (isReSpace y) eqn:Ey; [exact IH|].
    destruct (collapseSpace_head y t Ey) as [t' Ht'].
    rewrite Ht' in *.
    change (spaced (" "%char :: y :: t'))
      with ((if isReSpace " "
             then byte_eqb " " " " && negb (isReSpace y) else true)
            && spaced (y :: t')).
    change (isReSpace " ") with true. cbv iota.
    change (byte_eqb " " " ") with true. rewrite Ey. cbn [andb negb].
    exact IH.
  - cbn [spaced]. rewrite Ex. cbn [andb].
    destruct t as [|y t]; [done|]. apply IH, Hend'. done.
Qed.

Lemma collapseSpace_ends t :
  endsTidy t = true -> endsTidy (collapseSpace t) = true.
Proof.
  induction t as [|x t IH]; [done|]. intros Hend.
  assert (Hend' : t <> [] -> endsTidy t = true).
  { intros Hne. unfold endsTidy in *. destruct t as [|y t]; [done|].
    by rewrite last_cons_cons in Hend. }
  rewrite collapseSpace_cons. destruct (isReSpace x) eqn:Ex.
  - destruct t as [|y t].
    { by rewrite (endsTidy_single x Hend) in Ex. }
    specialize (IH (Hend' ltac:(done))).
    destruct (isReSpace y) eqn:Ey; [exact IH|].
    destruct (collapseSpace_head y t Ey) as [t' Ht'].
    rewrite Ht' in *. unfold endsTidy in *. by rewrite last_cons_cons.
  - destruct t as [|y t]; [exact Hend|].
    specialize (IH (Hend' ltac:(done))).
    destruct (collapseSpace (y :: t)) as [|z t'] eqn:E.
    + by apply collapseSpace_nonempty in E.
    + unfold endsTidy in *. by rewrite last_cons_cons.
Qed.

(** X27: A cleaned text is tidy.  It neither opens nor ends with an
    ASCII white-space byte: a tab, a line feed, a vertical tab, a form
    feed, a carriage return or a space.  Every byte of the class [\s]
    in it, which is these bytes but the vertical tab, is a single space
    directly followed by a byte that is not of the class [\s].  A
    vertical tab inside the text is not of the class and stays as it
    is ([clean_keeps_vertical_tabs]). *)
Theorem clean_tidy s :
  opensTidy (clean s) = true /\ endsTidy (clean s) = true
  /\ spaced (clean s) = true.
Proof.
  unfold clean. split; [|split].
  - apply collapseSpace_opens, TrimSpace_opens.
  - apply collapseSpace_ends, TrimSpace_ends.
  - apply collapseSpace_spaced, TrimSpace_ends.
Qed.

(** Vertical tabs inside a text are kept, also in a run and next to a
    space. *)
Lemma clean_keeps_vertical_tabs :
  let vt := chr 11 in
  clean ("a"%char :: vt :: vt :: b "b") = "a"%char :: vt :: vt :: b "b"
  /\ clean (b "a " ++ vt :: b " b") = b "a " ++ vt :: b " b"
  /\ clean (vt :: b " a" ++ [vt]) = b "a".
Proof. repeat split; vm_compute; reflexivity. Qed.

(** ** Brackets and scopes *)

Lemma isVisible_spec c :
  isVisible c = true ->
  (code c <? 128) = true /\ isSpaceRune (code c) = false.
Proof.
  unfold isVisible. rewrite andb_true_iff, negb_true_iff. done.
Qed.

(** A text between two visible bytes has nothing to trim. *)
Lemma TrimSpace_visible_ends x s y :
  isVisible x = true -> isVisible y = true ->
  TrimSpace (x :: s ++ [y]) = x :: s ++ [y].
Proof.
  intros [Hx1 Hx2]%isVisible_spec [Hy1 Hy2]%isVisible_spec.
  unfold TrimSpace.
  assert (Hl : trimLeftSpace (x :: s ++ [y]) = x :: s ++ [y]).
  { unfold trimLeftSpace. cbn [length trimLeftSpace_go].
    rewrite (decodeRune_ascii x _ Hx1). by rewrite Hx2. }
  rewrite Hl. unfold trimRightSpace.
  change (x :: s ++ [y]) with ((x :: s) ++ [y]).
  generalize (x :: s). intros p.
  rewrite length_app. simpl length. rewrite Nat.add_1_r.
  cbn [trimRightSpace_go].
  rewrite (decodeLastRune_ascii p y Hy1). rewrite Hy2.
  by destruct (p ++ [y]) eqn:E; [destruct p|].
Qed.

Lemma opener_visible l : isVisible (opener l) = true.
Proof. by destruct l. Qed.

Lemma closer_visible r : isVisible (closer r) = true.
Proof. by destruct r. Qed.

Lemma clean_bracketed l r F :
  clean (bracketed l r F) = opener l :: collapseSpace F ++ [closer r].
Proof.
  unfold clean, bracketed.
  rewrite (TrimSpace_visible_ends _ _ _ (opener_visible l) (closer_visible r)).
  rewrite collapseSpace_cons.
  rewrite (isVisible_not_space _ (opener_visible l)).
  rewrite collapseSpace_app by apply isVisible_not_space, closer_visible.
  reflexivity.
Qed.

Lemma compile_bracketed l r F :
  noBrackets F = true ->
  compile (clean (bracketed l r F)) [] = Ok [formulaToken l r F].
Proof.
  intros HF. rewrite clean_bracketed.
  pose proof (noBrackets_collapse F HF) as HG.
  unfold bodyOf, formulaToken. set (G := collapseSpace F) in *.
  rewrite compile_unfold. cbv zeta.
  assert (Hcount : forall c, isBracket c = true ->
            countByte (opener l :: G ++ [closer r]) c
            = (if byte_eqb (opener l) c then 1 else 0)
              + (if byte_eqb (closer r) c then 1 else 0)).
  { intros c Hc. cbn [countByte]. rewrite countByte_app. cbn [countByte].
    rewrite (noBrackets_count G c HG Hc). lia. }
  rewrite !Hcount by reflexivity.
  assert (Hbal : (length (@nil token) =? 0)%nat
                 && negb ((if byte_eqb (opener l) _OP_RD then 1 else 0)
                          + (if byte_eqb (closer r) _OP_RD then 1 else 0)
                          + ((if byte_eqb (opener l) _OP_SQ then 1 else 0)
                             + (if byte_eqb (closer r) _OP_SQ then 1 else 0))
                          =? (if byte_eqb (opener l) _CL_RD then 1 else 0)
                             + (if byte_eqb (closer r) _CL_RD then 1 else 0)
                             + ((if byte_eqb (opener l) _CL_SQ then 1 else 0)
                                + (if byte_eqb (closer r) _CL_SQ
                                   then 1 else 0))) = false)
    by (by destruct l, r).
  rewrite Hbal. clear Hbal Hcount.
  assert (Hop : byte_eqb (opener l) _OP_SQ || byte_eqb (opener l) _OP_RD = true)
    by (by destruct l).
  rewrite Hop.
  set (str := opener l :: G ++ [closer r]).
  assert (Hidx : forall c, isBracket c = true ->
            byte_eqb (opener l) c = false ->
            indexByte str c
            = if byte_eqb (closer r) c then Z.of_nat (S (length G)) else -1).
  { intros c Hc Ho. unfold str.
    change (opener l :: G ++ [closer r]) with ((opener l :: G) ++ [closer r]).
    rewrite indexByte_skip.
    2:{ cbn [indexByte]. rewrite Ho. by rewrite (noBrackets_index G c HG Hc). }
    cbn [indexByte length]. destruct (byte_eqb (closer r) c); [|done].
    cbn. lia. }
  assert (Hcl : firstOf str _CL_SQ _CL_RD = Z.of_nat (S (length G))).
  { unfold firstOf. rewrite !Hidx by (done || by destruct l).
    destruct r; cbn [closer]; simpl byte_eqb; cbv iota.
    - change (-1 <? -1) with false. rewrite andb_false_r.
      destruct (Z.eqb_spec (Z.of_nat (S (length G))) (-1)); [lia|done].
    - change (-1 <? -1) with false. cbn [andb].
      change (-1 =? -1) with true. done. }
  rewrite Hcl.
  destruct (Z.eqb_spec (Z.of_nat (S (length G))) (-1)); [lia|].
  assert (Hclosing : index str (Z.of_nat (S (length G))) = Ok (closer r)).
  { unfold index. destruct (Z.ltb_spec (Z.of_nat (S (length G))) 0); [lia|].
    rewrite Nat2Z.id. unfold str.
    change (opener l :: G ++ [closer r]) with ((opener l :: G) ++ [closer r]).
    change (S (length G)) with (length (opener l :: G)).
    by rewrite list_lookup_middle. }
  assert (Hslice : slice str 1 (Z.of_nat (S (length G))) = Ok G).
  { unfold slice.
    assert (Hc : (0 <=? 1) && (1 <=? Z.of_nat (S (length G)))
                 && (Z.of_nat (S (length G)) <=? Z.of_nat (length str)) = true).
    { rewrite !andb_true_iff, !Z.leb_le. unfold str. simpl length.
      rewrite length_app. simpl length. lia. }
    rewrite Hc. f_equal.
    replace (Z.to_nat (Z.of_nat (S (length G)) - 1)) with (length G) by lia.
    change (Z.to_nat 1) with 1%nat. unfold str. cbn [drop].
    rewrite drop_0. by rewrite take_app_length. }
  assert (Hdrop : drop (Z.to_nat (Z.of_nat (S (length G)) + 1)) str = []).
  { apply drop_ge. unfold str. cbn [length]. rewrite length_app. cbn. lia. }
  rewrite Hclosing. cbn [mbind res_bind]. rewrite Hslice.
  cbn [mbind res_bind]. rewrite Hdrop. cbn [length Nat.ltb Nat.leb app].
  by destruct l, r.
Qed.

Lemma scopeOf_formulaToken l r F :
  scopeOf (formulaToken l r F) = mkScope l r.
Proof. by destruct l, r. Qed.

Section BracketFacts.

Variable locale : Locale.
Variable currentYear : Z.
Variable currentMonthIndex : Z.
Variable unicodeToLower : gostring -> gostring.
Variable rangeMem : nat -> gmap gostring Rec -> list Rec.

Local Abbreviation FilterE := (Filter locale currentYear currentMonthIndex
                            unicodeToLower rangeMem).
Local Abbreviation prepareE := (prepare locale currentYear currentMonthIndex
                             unicodeToLower).
Local Abbreviation queryE := (query locale unicodeToLower).
Local Abbreviation doesItMatchE := (doesItMatch locale unicodeToLower).
Local Abbreviation decidesE := (decides locale unicodeToLower).
Local Abbreviation acceptsAllE := (acceptsAll locale unicodeToLower).

Lemma Filter_bracketed c l r F :
  noBrackets F = true ->
  FilterE c (bracketed l r F)
  = orFail (prepareE (mkScope l r) (bodyOf F)) (fun fs =>
    orFail (queryE c fs) (fun out => Returned (SliceStable out) None)).
Proof.
  intros HF. unfold Filter, FilterWith. rewrite (compile_bracketed l r F HF).
  cbn [orFail]. unfold evaluate.
  change (IsFormula (formulaToken l r F)) with true. cbv iota.
  rewrite scopeOf_formulaToken.
  change (value (formulaToken l r F)) with (bodyOf F).
  apply orFail_ext; intros fs. apply orFail_ext; intros out.
  by rewrite stage_memOf.
Qed.

(** X30: The brackets of a formula set the scope its conditions are
    prepared with: a square bracket makes its end of the interval
    inclusive, a round bracket makes it exclusive, the two ends apart;
    the formula is then prepared, the collection filtered and the
    result sorted. *)
Theorem Filter_bracket_scope c l r F :
  noBrackets F = true ->
  FilterE c (bracketed l r F)
  = orFail (prepareE (mkScope l r) (bodyOf F)) (fun fs =>
    orFail (queryE c fs) (fun out => Returned (SliceStable out) None)).
Proof. apply Filter_bracketed. Qed.


(** X28: A quoted keyword whose folded form keeps its length, so that the
    closing quote is where the length of the keyword says: the value
    matches exactly when its folded form equals the folded text between
    the quotes. *)
Theorem doesItMatch_quoted keyword value w :
  Translate locale (ToLower unicodeToLower keyword) = dquote :: w ++ [dquote] ->
  length keyword = length (dquote :: w ++ [dquote]) ->
  doesItMatchE keyword value
  = Ok (bytes_eqb (Translate locale (ToLower unicodeToLower value)) w).
Proof.
  intros Hk Hl. unfold doesItMatch. rewrite Hk, Hl.
  cbn [length]. rewrite length_app. cbn [length].
  replace (Z.of_nat (S (length w + 1)) - 1) with (Z.of_nat (S (length w)))
    by lia.
  change (index (dquote :: w ++ [dquote]) 0) with (Ok dquote).
  cbn [mbind res_bind]. change (byte_eqb dquote dquote) with true. cbv iota.
  assert (Hi : index (dquote :: w ++ [dquote]) (Z.of_nat (S (length w)))
               = Ok dquote).
  { unfold index. destruct (Z.ltb_spec (Z.of_nat (S (length w))) 0); [lia|].
    rewrite Nat2Z.id.
    change (dquote :: w ++ [dquote]) with ((dquote :: w) ++ dquote :: []).
    change (S (length w)) with (length (dquote :: w)).
    by rewrite list_lookup_middle. }
  rewrite Hi. cbn [mbind res_bind].
  change (byte_eqb dquote dquote) with true. cbv iota.
  assert (Hs : slice (dquote :: w ++ [dquote]) 1 (Z.of_nat (S (length w)))
               = Ok w).
  { unfold slice.
    assert (Hc : (0 <=? 1) && (1 <=? Z.of_nat (S (length w)))
                 && (Z.of_nat (S (length w))
                     <=? Z.of_nat (length (dquote :: w ++ [dquote]))) = true).
    { rewrite !andb_true_iff, !Z.leb_le. cbn [length]. rewrite length_app.
      cbn [length]. lia. }
    rewrite Hc. f_equal.
    replace (Z.to_nat (Z.of_nat (S (length w)) - 1)) with (length w) by lia.
    change (Z.to_nat 1) with 1%nat. cbn [drop]. rewrite drop_0.
    by rewrite take_app_length. }
  rewrite Hs. reflexivity.
Qed.

End BracketFacts.

(** * Instances of the further properties *)

Lemma date_operators_partition_witness :
  exists before equal after since until,
    Compare defaultLocale keepCase
      (mkComparator "d" "<" [] (unixDate 2019 12 1) (30 * 86400)
         (mkScope true false)) rSucuri = Ok before
    /\ Compare defaultLocale keepCase
         (mkComparator "d" "=" [] (unixDate 2019 12 1) (30 * 86400)
            (mkScope true true)) rSucuri = Ok equal
    /\ Compare defaultLocale keepCase
         (mkComparator "d" ">" [] (unixDate 2019 12 1) (30 * 86400)
            (mkScope false true)) rSucuri = Ok after
    /\ Compare defaultLocale keepCase
         (mkComparator "d" ">" [] (unixDate 2019 12 1) (30 * 86400)
            (mkScope true true)) rSucuri = Ok since
    /\ Compare defaultLocale keepCase
         (mkComparator "d" "<" [] (unixDate 2019 12 1) (30 * 86400)
            (mkScope true true)) rSucuri = Ok until
    /\ exactlyOne before equal after = true
    /\ equal = since && until.
Proof.
  apply (date_operators_partition defaultLocale keepCase [] (unixDate 2019 12 1)
           (30 * 86400) (mkScope true true) true true rSucuri).
  - lia.
  - split; vm_compute; discriminate.
Defined.

Lemma ingestRow_count_witness :
  Z.of_nat (length casaRecords) = 1 + countByte labelCasa OPT_SEPARATOR.
Proof.
  apply (ingestRow_count rowCasa labelCasa casaRecords);
    vm_compute; reflexivity.
Defined.

Lemma New_records_witness :
  exists row, row ∈ [rowCasa] /\ madeFrom row rCasaAlimente
              /\ Date rCasaAlimente mod 86400 = 0
              /\ isInt64 (Amount rCasaAlimente).
Proof.
  apply (New_records [rowCasa] casaRecords).
  - vm_compute. reflexivity.
  - apply list_elem_of_further, list_elem_of_here.
Defined.

Lemma New_unreadable_row_witness :
  exists p, New [rowCasa; rowShort] = Panic p.
Proof.
  apply (New_unreadable_row [rowCasa; rowShort] rowShort).
  - apply list_elem_of_further, list_elem_of_here.
  - intros [H _]. vm_compute in H. lia.
Defined.

Lemma quoteFree_rSucuri : quoteFree rSucuri.
Proof.
  repeat split; intros H; vm_compute in H;
    repeat (apply elem_of_cons in H as [H|H]; [discriminate H|]);
    by apply elem_of_nil in H.
Qed.

Lemma RecString_inj_witness : rSucuri = rSucuri.
Proof.
  apply (RecString_inj rSucuri rSucuri);
    [apply quoteFree_rSucuri|apply quoteFree_rSucuri|reflexivity].
Defined.

Lemma compile_shaped_witness :
  shaped [squareToken (b "a=alex"); opToken "+"; squareToken (b "s>10")]
  = true.
Proof.
  apply (compile_shaped (clean (b "[a=alex] + [s>10]"))).
  vm_compute. reflexivity.
Defined.

Lemma query_sublist_witness :
  sublist [rSucuri; rCafea] threeRecords.
Proof.
  apply (query_sublist defaultLocale keepCase [senderAlex] threeRecords
           [rSucuri; rCafea]).
  vm_compute. reflexivity.
Defined.


(** [rangeValues] visits exactly the values of the map. *)
Lemma rangeValues_visits : visitsValues rangeValues.
Proof.
  intros i m r. unfold rangeValues.
  rewrite list_elem_of_In, in_map_iff.
  split.
  - intros [[k r'] [E H]]. cbn in E. subst r'. exists k.
    by apply elem_of_map_to_list, list_elem_of_In.
  - intros [k H]. exists (k, r). split; [done|].
    by apply list_elem_of_In, elem_of_map_to_list.
Qed.

Lemma rangeValues_empty i : rangeValues i ∅ = [].
Proof. unfold rangeValues. by rewrite map_to_list_empty. Qed.

Lemma keysApart_threeRecords : keysApart threeRecords.
Proof.
  intros r1 r2 H1 H2.
  repeat (apply elem_of_cons in H1 as [->|H1]);
    [| | |by apply elem_of_nil in H1];
    (repeat (apply elem_of_cons in H2 as [->|H2]);
     [| | |by apply elem_of_nil in H2]);
    intros E; try reflexivity; vm_compute in E; discriminate E.
Qed.

Lemma Filter_self_difference_witness :
  FilterAt testLocale 2022 10 keepCase rangeValues
    (fun _ => Unicode testLocale) threeRecords
    (binary (b "a=alex") "-" (b "a=alex"))
  = match FilterAt testLocale 2022 10 keepCase rangeValues
            (fun _ => Unicode testLocale) threeRecords
            (single (b "a=alex")) with
    | Returned _ None => Returned [] None
    | o => o
    end.
Proof.
  apply (Filter_self_difference testLocale 2022 10 keepCase rangeValues
           (fun _ => Unicode testLocale) threeRecords (b "a=alex")).
  - apply orderFree_single.
  - intros call. reflexivity.
  - apply rangeValues_empty.
  - reflexivity.
Defined.

(** Where the order matters the difference of a formula with itself
    can keep a record: the sender [a] matches the keyword [b] in the
    first evaluation and not in the second, where its value is
    translated in the reverse order. *)
Lemma self_difference_order_dependent :
  rangesTable swapLocale (swapOrders 2)
  /\ FilterAt swapLocale 2022 10 keepCase rangeValues (swapOrders 2)
       [rSentByA] (single (b "a=b"))
     = Returned [rSentByA] None
  /\ FilterAt swapLocale 2022 10 keepCase rangeValues (swapOrders 2)
       [rSentByA] (binary (b "a=b") "-" (b "a=b"))
     = Returned [rSentByA] None.
Proof.
  split; [|split; vm_compute; reflexivity].
  intros call. unfold swapOrders.
  destruct call as [|w [|? [|? [|? [|? [|i' [|? ?]]]]]]]; try reflexivity.
  destruct ((w =? 1)%nat && (i' =? 2)%nat); [|reflexivity].
  apply Permutation_swap.
Qed.


Lemma Filter_unsupported_operator_witness :
  Filter defaultLocale 2022 10 keepCase rangeValues threeRecords
    (binary (b "a=alex") "*" (b "c=cafea"))
  = Returned [rSucuri; rCafea] (Some (ErrUnsupportedOperator "*")).
Proof.
  apply (Filter_unsupported_operator defaultLocale 2022 10 keepCase
           rangeValues threeRecords (b "a=alex") "*" (b "c=cafea")
           [rSucuri; rCafea]
           [mkComparator "c" "=" (b "cafea") 0 0 (mkScope true true)]).
  - reflexivity.
  - reflexivity.
  - reflexivity.
  - discriminate.
  - discriminate.
  - vm_compute. reflexivity.
  - vm_compute. reflexivity.
Defined.

Lemma Filter_within_witness : rAlimente ∈ threeRecords.
Proof.
  apply (Filter_within defaultLocale 2022 10 keepCase rangeValues
           threeRecords (b "[a=alex] + [c=alimente]")
           [rAlimente; rSucuri; rCafea] None).
  - intros i m r. apply rangeValues_visits.
  - vm_compute. reflexivity.
  - apply list_elem_of_here.
Defined.

Lemma Filter_errors_witness :
  (([] : Collection) = [] /\ (compile (clean (b "[s=abc]")) []
               = Err (ErrNotAnAmount (b "abc00"))
               \/ preparerError (ErrNotAnAmount (b "abc00"))
               \/ compareError (ErrNotAnAmount (b "abc00"))
               \/ ErrNotAnAmount (b "abc00")
                  = ErrIncorrectQuery (b "[s=abc]")))
  \/ walkError (ErrNotAnAmount (b "abc00")).
Proof.
  apply (Filter_errors defaultLocale 2022 10 keepCase rangeValues
           threeRecords (b "[s=abc]") [] (ErrNotAnAmount (b "abc00"))).
  vm_compute. reflexivity.
Defined.

Lemma Filter_mismatched_parentheses_witness :
  Filter defaultLocale 2022 10 keepCase rangeValues threeRecords
    (b "[a=alex] - (c=cafea")
  = Returned [] (Some ErrParenCount).
Proof.
  apply (proj1 (Filter_mismatched_parentheses defaultLocale 2022 10 keepCase
                  rangeValues threeRecords (b "[a=alex] - (c=cafea"))).
  vm_compute. discriminate.
Defined.

Lemma Filter_no_comparison_witness :
  Filter defaultLocale 2022 10 keepCase rangeValues threeRecords
    (single (b "alex"))
  = Returned [] (Some (ErrUnsupportedHeader zero)).
Proof.
  apply (Filter_no_comparison defaultLocale 2022 10 keepCase rangeValues
           threeRecords (b "alex")); reflexivity.
Defined.

Lemma date_month_name_witness :
  exists comp,
    fillComparator testLocale 2022 10 keepCase (mkScope true true) (b "d=")
      (b "Decembrie") = Ok comp
    /\ numberValue comp = unixDate (yearOfMonth 2022 10 12) 12 1
    /\ offsetValue comp
       = 86400 * (daysIn (yearOfMonth 2022 10 12) 12 - 1)
    /\ forall r,
         Compare testLocale keepCase comp r
         = Ok ((unixDate (yearOfMonth 2022 10 12) 12 1 <=? Date r)
               && (Date r <=? unixDate (yearOfMonth 2022 10 12) 12
                                (daysIn (yearOfMonth 2022 10 12) 12))).
Proof.
  apply (date_month_name testLocale 2022 10 keepCase (mkScope true true)
           (b "Decembrie") 11).
  - vm_compute. reflexivity.
  - vm_compute. reflexivity.
  - lia.
  - lia.
Defined.

Lemma date_year_first_witness :
  exists year month day comp,
    ParseInt (b "2019") 16 = Some year
    /\ ParseInt (b "12") 8 = Some month
    /\ ParseInt (b "05") 8 = Some day
    /\ fillComparator testLocale 2022 10 keepCase (mkScope true true)
         (b "d=") (b "2019-12-05") = Ok comp
    /\ numberValue comp
       = (if dayAndMonth day month then unixDate year month day else 0)
    /\ offsetValue comp = 0
    /\ forall r, Compare testLocale keepCase comp r
                 = Ok (Date r =? numberValue comp).
Proof.
  apply (date_year_first testLocale 2022 10 keepCase (mkScope true true)
           (b "2019-12-05") "2" "0" "1" "9" "1" "2" "0" "5").
  - vm_compute. reflexivity.
  - reflexivity.
Defined.

Lemma amount_with_comma_witness :
  exists n comp,
    ParseInt (b "12" ++ b "5") 64 = Some n
    /\ fillComparator defaultLocale 2022 10 keepCase (mkScope true true)
         (b "s=") (b "12,5") = Ok comp
    /\ numberValue comp = n /\ offsetValue comp = 0
    /\ forall r, Compare defaultLocale keepCase comp r
                 = Ok (absAmount r =? n).
Proof.
  apply (amount_with_comma defaultLocale 2022 10 keepCase
           (mkScope true true) (b "12,5") (b "12") (b "5")).
  - vm_compute. reflexivity.
  - reflexivity.
  - discriminate.
  - cbn. lia.
Defined.

Lemma prepare_stops_at_empty_witness :
  prepare defaultLocale 2022 10 keepCase (mkScope true true)
    (b "a=alex" ++ b ";;" ++ b "c=cafea")
  = prepare defaultLocale 2022 10 keepCase (mkScope true true)
      (b "a=alex").
Proof.
  apply (prepare_stops_at_empty defaultLocale 2022 10 keepCase
           (mkScope true true) (b "a=alex") (b "c=cafea"));
    vm_compute; reflexivity.
Defined.

Lemma Translate_untouched_witness :
  Translate testLocale (b "alex") = b "alex".
Proof.
  apply (Translate_untouched testLocale (b "alex")).
  repeat constructor. discriminate.
Defined.

Lemma doesItMatch_quoted_witness :
  doesItMatch defaultLocale keepCase quotedSucuri (b "Sucuri")
  = Ok (bytes_eqb
          (Translate defaultLocale (ToLower keepCase (b "Sucuri")))
          (b "sucuri")).
Proof.
  apply (doesItMatch_quoted defaultLocale keepCase quotedSucuri
           (b "Sucuri") (b "sucuri")); reflexivity.
Defined.


Lemma Filter_bracket_scope_witness :
  Filter defaultLocale 2022 10 keepCase rangeValues threeRecords
    (bracketed false true (b "d>2019-12-04"))
  = orFail
      (prepare defaultLocale 2022 10 keepCase (mkScope false true)
         (bodyOf (b "d>2019-12-04")))
      (fun fs =>
         orFail (query defaultLocale keepCase threeRecords fs)
           (fun out => Returned (SliceStable out) None)).
Proof.
  apply (Filter_bracket_scope defaultLocale 2022 10 keepCase rangeValues
           threeRecords false true (b "d>2019-12-04")).
  reflexivity.
Defined.
